(** * Deformable surface: explicit Euler integration and Gauss curvature term

    A shallow embedding of [src/src/GaussCurvatureConstraint.cc] and
    [src/src/EulerMethod.cc].

    Conventions of the embedding.
    - A C++ [double] is idealised as a real number ([R]): rounding, NaN and
      the infinities are not modelled, except for the energy value, which
      the optimizer tests with [IsInf] and which is therefore an extended
      real ([Energy]).
    - A [double[3]] and a [Vector3D<double>] are a [Vec3].
    - A [vtkDataArray] with one component is a [list R]; [GetComponent] of
      an index past the end reads [0].
    - A [double *] buffer of the optimizer is a flat [list R], three scalars
      per point, or [None] for the NULL pointer.
    - [parallel_for] and [parallel_reduce] run the functor over the blocks
      of an arbitrary recursive partition of the index range. *)

From Stdlib Require Import Reals Lra Lia ZArith Bool.
From stdpp Require Import base list.

#[local] Open Scope R_scope.

(* ===================================================================== *)
(** ** Vectors and the [vtkMath] kernels used by the sources *)
(* ===================================================================== *)

Record Vec3 : Type := mkVec3 { vx : R; vy : R; vz : R }.

Definition zero3 : Vec3 := mkVec3 0 0 0.

Module vtkMath.

(** [vtkMath::Add(a, b, c)]: [c = a + b]. *)
Definition Add (a b : Vec3) : Vec3 :=
  mkVec3 (vx a + vx b) (vy a + vy b) (vz a + vz b).

(** [vtkMath::Subtract(a, b, c)]: [c = a - b]. *)
Definition Subtract (a b : Vec3) : Vec3 :=
  mkVec3 (vx a - vx b) (vy a - vy b) (vz a - vz b).

(** [vtkMath::Dot(a, b)]. *)
Definition Dot (a b : Vec3) : R :=
  vx a * vx b + vy a * vy b + vz a * vz b.

(** [vtkMath::MultiplyScalar(a, s)]: [a *= s]. *)
Definition MultiplyScalar (a : Vec3) (s : R) : Vec3 :=
  mkVec3 (vx a * s) (vy a * s) (vz a * s).

(** [vtkMath::Norm(v)]. *)
Definition Norm (v : Vec3) : R :=
  sqrt (vx v * vx v + vy v * vy v + vz v * vz v).

(** [vtkMath::Normalize(v)]: divides [v] by its norm unless the norm is
    zero (the returned norm is not used by the callers). *)
Definition Normalize (v : Vec3) : Vec3 :=
  let den := Norm v in
  if Req_dec_T den 0 then v
  else mkVec3 (vx v / den) (vy v / den) (vz v / den).

End vtkMath.

(** [s * Vector3D(v)]. *)
Definition scale3 (s : R) (v : Vec3) : Vec3 :=
  mkVec3 (s * vx v) (s * vy v) (s * vz v).

(** [vtkDataArray::GetComponent(i, 0)] of a one-component array. *)
Definition GetComponent (a : list R) (i : nat) : R := nth i a 0.

(** [vtkPoints::GetPoint(i, p)] and [vtkDataArray::GetTuple(i, n)] of a
    three-component array. *)
Definition GetPoint (a : list Vec3) (i : nat) : Vec3 := nth i a zero3.

(** The three scalars of point [ptId] in a flat [double *] buffer, read
    and written through [d = buffer + 3 * ptId] as [d[0]], [d[1]], [d[2]]. *)
Definition load3 (buffer : list R) (ptId : nat) : Vec3 :=
  mkVec3 (nth (3 * ptId) buffer 0)
         (nth (3 * ptId + 1) buffer 0)
         (nth (3 * ptId + 2) buffer 0).

Definition store3 (buffer : list R) (ptId : nat) (v : Vec3) : list R :=
  <[(3 * ptId + 2)%nat := vz v]>
    (<[(3 * ptId + 1)%nat := vy v]>
       (<[(3 * ptId)%nat := vx v]> buffer)).

(* ===================================================================== *)
(** ** Blocked ranges, [parallel_for] and [parallel_reduce] *)
(* ===================================================================== *)

(** [for (ptId = begin; ptId != begin + n; ++ptId) s = body ptId s]. *)
Fixpoint for_range {St : Type} (n : nat) (ptId : nat)
    (body : nat -> St -> St) (s : St) : St :=
  match n with
  | O => s
  | S n' => for_range n' (S ptId) body (body ptId s)
  end.

(** A [blocked_range<int>(begin, end)]. *)
Record blocked_range : Type := mkRange { r_begin : nat; r_end : nat }.

(** The functor's loop over one block. *)
Definition over_block {St : Type} (body : nat -> St -> St)
    (ptIds : blocked_range) (s : St) : St :=
  for_range (r_end ptIds - r_begin ptIds) (r_begin ptIds) body s.

(** How the scheduler cuts a range: not at all, or at [mid] and then each
    half again.  A cut outside the open range is ignored. *)
Inductive Partition : Type :=
| Whole
| Cut (mid : nat) (left right : Partition).

(** [parallel_for(range, f)]: [f] is applied to every block; the blocks
    write through the pointers held by [f], here the threaded state. *)
Fixpoint parallel_for {St : Type} (t : Partition) (ptIds : blocked_range)
    (f : blocked_range -> St -> St) (s : St) : St :=
  match t with
  | Whole => f ptIds s
  | Cut mid l r =>
      if (r_begin ptIds <? mid)%nat && (mid <? r_end ptIds)%nat then
        parallel_for r (mkRange mid (r_end ptIds)) f
          (parallel_for l (mkRange (r_begin ptIds) mid) f s)
      else f ptIds s
  end.

(** [parallel_reduce(range, body)]: at a cut the right half runs on a body
    made by the splitting constructor and is joined into the left one. *)
Fixpoint parallel_reduce {B : Type} (t : Partition) (ptIds : blocked_range)
    (run : blocked_range -> B -> B) (split : B -> B) (join : B -> B -> B)
    (body : B) : B :=
  match t with
  | Whole => run ptIds body
  | Cut mid l r =>
      if (r_begin ptIds <? mid)%nat && (mid <? r_end ptIds)%nat then
        let lhs := parallel_reduce l (mkRange (r_begin ptIds) mid)
                     run split join body in
        let rhs := parallel_reduce r (mkRange mid (r_end ptIds))
                     run split join (split body) in
        join lhs rhs
      else run ptIds body
  end.

(* ===================================================================== *)
(** ** GaussCurvatureConstraint.cc: auxiliaries *)
(* ===================================================================== *)

Module GaussCurvatureConstraintUtils.

(** S-shaped membership function (MATLAB's [smf]). *)
Definition SShapedMembershipFunction (x a b : R) : R :=
  if Rle_dec x a then 0
  else if Rge_dec x b then 1
  else if Rle_dec x (0.5 * (a + b)) then
    let t := (x - a) / (b - a) in
    2 * t * t
  else
    let t := (x - b) / (b - a) in
    1 - 2 * t * t.

(** The [Evaluate] reduction body. *)
Record Evaluate : Type := mkEvaluate {
  ev_GaussCurvature : list R;
  ev_Penalty : R
}.

(** Splitting constructor [Evaluate(const Evaluate &other, split)]. *)
Definition Evaluate_split (other : Evaluate) : Evaluate :=
  mkEvaluate (ev_GaussCurvature other) 0.

(** [Evaluate::join]. *)
Definition Evaluate_join (this other : Evaluate) : Evaluate :=
  mkEvaluate (ev_GaussCurvature this) (ev_Penalty this + ev_Penalty other).

(** [Evaluate::operator()]. *)
Definition Evaluate_call (ptIds : blocked_range) (this : Evaluate)
    : Evaluate :=
  over_block
    (fun ptId e =>
       let K := GetComponent (ev_GaussCurvature e) ptId in
       mkEvaluate (ev_GaussCurvature e) (ev_Penalty e + Rabs K))
    ptIds this.

(** The [EvaluateGradient] functor; [_Gradient] is the buffer it writes
    and is threaded through [EvaluateGradient_call]. *)
Record EvaluateGradient : Type := mkEvaluateGradient {
  eg_Points : list Vec3;
  eg_Status : option (list R);
  eg_EdgeTable : list (list nat);
  eg_Normals : list Vec3;
  eg_GaussCurvature : list R;
  eg_MeanCurvature : list R
}.

(** [EdgeTable::GetAdjacentPoints(ptId, numAdjPts, adjPtIds)]. *)
Definition GetAdjacentPoints (e : list (list nat)) (ptId : nat)
    : list nat := nth ptId e [].

(** [_Status && _Status->GetComponent(ptId, 0) == .0]. *)
Definition is_passive (status : option (list R)) (ptId : nat) : bool :=
  match status with
  | None => false
  | Some s => if Req_dec_T (GetComponent s ptId) 0 then true else false
  end.

(** Magnitude of the spring force from the two curvatures. *)
Definition force_magnitude (K H : R) : R :=
  let m := SShapedMembershipFunction (Rabs K) 0 0.2 in
  if Rlt_dec H 0 then m * (1 - SShapedMembershipFunction (- H) 0 0.5)
  else m * SShapedMembershipFunction H 0 1.

(** The two inner loops over the adjacent points, accumulating [f]. *)
Definition sum_outward (pts : list Vec3) (c n : Vec3) (adjPtIds : list nat)
    : Vec3 :=
  fold_left
    (fun f i =>
       let p := GetPoint pts i in
       let d := vtkMath.Subtract p c in
       if Rgt_dec (vtkMath.Dot d n) 0 then vtkMath.Add f d else f)
    adjPtIds zero3.

Definition sum_all (pts : list Vec3) (c : Vec3) (adjPtIds : list nat)
    : Vec3 :=
  fold_left
    (fun f i =>
       let p := GetPoint pts i in
       let d := vtkMath.Subtract p c in
       vtkMath.Add f d)
    adjPtIds zero3.

(** Body of the loop of [EvaluateGradient::operator()] for one [ptId]. *)
Definition EvaluateGradient_point (this : EvaluateGradient) (ptId : nat)
    (_Gradient : list Vec3) : list Vec3 :=
  if is_passive (eg_Status this) ptId then _Gradient
  else
    let adjPtIds := GetAdjacentPoints (eg_EdgeTable this) ptId in
    let numAdjPts := length adjPtIds in
    if (0 <? numAdjPts)%nat then
      let K := GetComponent (eg_GaussCurvature this) ptId in
      let H := GetComponent (eg_MeanCurvature this) ptId in
      let m := force_magnitude K H in
      let c := GetPoint (eg_Points this) ptId in
      let f :=
        if Rlt_dec K 0 then
          let n := GetPoint (eg_Normals this) ptId in
          sum_outward (eg_Points this) c n adjPtIds
        else sum_all (eg_Points this) c adjPtIds in
      let f := vtkMath.MultiplyScalar f (1 / INR numAdjPts) in
      let f := vtkMath.Normalize f in
      <[ptId := scale3 (- m) f]> _Gradient
    else _Gradient.

(** [EvaluateGradient::operator()]. *)
Definition EvaluateGradient_call (this : EvaluateGradient)
    (ptIds : blocked_range) (_Gradient : list Vec3) : list Vec3 :=
  over_block (EvaluateGradient_point this) ptIds _Gradient.

End GaussCurvatureConstraintUtils.

(* ===================================================================== *)
(** ** GaussCurvatureConstraint.cc: the energy term *)
(* ===================================================================== *)

Module GaussCurvatureConstraint.
Import GaussCurvatureConstraintUtils.

(** A one-component [vtkDataArray] with its modification time. *)
Record vtkDataArray : Type := mkArray {
  Values : list R;
  MTime : nat
}.

(** What the term reads from [_PointSet]. *)
Record RegisteredPointSet : Type := mkPointSet {
  SurfacePoints : list Vec3;
  SurfaceStatus : option (list R);
  SurfaceEdges : list (list nat);
  SurfaceNormals : list Vec3;
  SurfaceMTime : nat              (* [Surface()->GetMTime()] *)
}.

(** The term, its two shared point data arrays and the global VTK
    modification clock from which [Modified()] draws time stamps. *)
Record State : Type := mkState {
  _PointSet : RegisteredPointSet;
  _NumberOfPoints : nat;
  _Gradient : list Vec3;
  GAUSS : vtkDataArray;
  MEAN : vtkDataArray;
  GlobalTimeStamp : nat
}.

(** Arrays of the output of [SurfaceCurvature] and [MeshSmoothing]. *)
Record CurvatureOutput : Type := mkOutput {
  out_GAUSS : list R;
  out_MEAN : list R
}.

(** [a->DeepCopy(src); a->Modified()]. *)
Definition DeepCopy_Modified (src : list R) (clock : nat)
    : vtkDataArray * nat :=
  (mkArray src (S clock), S clock).

Section Collaborators.
(** Bits [SurfaceCurvature::Gauss] and [SurfaceCurvature::Mean]. *)
Variables Gauss Mean : Z.
(** [SurfaceConstraint::Update]. *)
Variable SurfaceConstraint_Update : bool -> State -> State.
(** [SurfaceCurvature(types)] run on the surface. *)
Variable SurfaceCurvature_Run : Z -> RegisteredPointSet -> CurvatureOutput.
(** [MeshSmoothing] of one scalar array, with the iteration count. *)
Variable SmoothArray : RegisteredPointSet -> nat -> list R -> list R.
(** Time stamps drawn by the two filters while they run. *)
Variable filter_ticks : nat.
(** [SurfaceConstraint::EvaluateGradient(gradient, step, weight)]. *)
Variable SurfaceConstraint_EvaluateGradient :
  State -> list R -> R -> R -> list R.

(** The configured [MeshSmoothing] filter. *)
Record MeshSmoothing : Type := mkSmoother {
  sm_Input : CurvatureOutput;
  sm_SmoothGauss : bool;
  sm_SmoothMean : bool;
  sm_NumberOfIterations : nat
}.

(** Modelled from the spec: [MeshSmoothing::Run], which is not among
    the sources.  The smoothing collaborator, "given a scalar field and
    iteration count, returns a neighbor-averaged version"; the arrays
    selected with [SmoothArray] are smoothed and the others passed on. *)
Definition MeshSmoothing_Run (surface : RegisteredPointSet)
    (sm : MeshSmoothing) : CurvatureOutput :=
  mkOutput
    (if sm_SmoothGauss sm
     then SmoothArray surface (sm_NumberOfIterations sm)
            (out_GAUSS (sm_Input sm))
     else out_GAUSS (sm_Input sm))
    (if sm_SmoothMean sm
     then SmoothArray surface (sm_NumberOfIterations sm)
            (out_MEAN (sm_Input sm))
     else out_MEAN (sm_Input sm)).

(** [GaussCurvatureConstraint::Update]. *)
Definition Update (gradient : bool) (s0 : State) : State :=
  let s := SurfaceConstraint_Update gradient s0 in
  if (_NumberOfPoints s =? 0)%nat then s
  else
    let gaussCurvature := GAUSS s in
    let meanCurvature := MEAN s in
    let surface := _PointSet s in
    let curv_types := 0%Z in
    let curv_types :=
      if (MTime gaussCurvature <? SurfaceMTime surface)%nat
      then Z.lor curv_types Gauss else curv_types in
    let curv_types :=
      if (MTime meanCurvature <? SurfaceMTime surface)%nat
      then Z.lor curv_types Mean else curv_types in
    if negb (curv_types =? 0)%Z then
      let curv := SurfaceCurvature_Run curv_types surface in
      let smoother :=
        mkSmoother curv
          (negb (Z.land curv_types Gauss =? 0)%Z)
          (negb (Z.land curv_types Mean =? 0)%Z)
          2 in
      let outputPD := MeshSmoothing_Run surface smoother in
      let clock := (GlobalTimeStamp s + filter_ticks)%nat in
      let '(gaussCurvature, clock) :=
        if negb (Z.land curv_types Gauss =? 0)%Z
        then DeepCopy_Modified (out_GAUSS outputPD) clock
        else (gaussCurvature, clock) in
      let '(meanCurvature, clock) :=
        if negb (Z.land curv_types Mean =? 0)%Z
        then DeepCopy_Modified (out_MEAN outputPD) clock
        else (meanCurvature, clock) in
      mkState (_PointSet s) (_NumberOfPoints s) (_Gradient s)
              gaussCurvature meanCurvature clock
    else s.

(** [GaussCurvatureConstraint::Evaluate]. *)
Definition Evaluate (t : Partition) (s : State) : R :=
  if (_NumberOfPoints s =? 0)%nat then 0
  else
    let eval := mkEvaluate (Values (GAUSS s)) 0 in
    let eval :=
      parallel_reduce t (mkRange 0 (_NumberOfPoints s))
        Evaluate_call Evaluate_split Evaluate_join eval in
    ev_Penalty eval / INR (_NumberOfPoints s).

(** [memset(_Gradient, 0, n * sizeof(GradientType))]. *)
Definition memset_zero (n : nat) (g : list Vec3) : list Vec3 :=
  for_range n 0 (fun i g => <[i := zero3]> g) g.

(** The functor set up by [EvaluateGradient]. *)
Definition gradient_functor (s : State) : EvaluateGradient :=
  mkEvaluateGradient
    (SurfacePoints (_PointSet s)) (SurfaceStatus (_PointSet s))
    (SurfaceEdges (_PointSet s)) (SurfaceNormals (_PointSet s))
    (Values (GAUSS s)) (Values (MEAN s)).

(** The term's own pass of [EvaluateGradient]: the buffer [_Gradient]
    after [memset] and [parallel_for]. *)
Definition own_gradient (t : Partition) (s : State) : list Vec3 :=
  parallel_for t (mkRange 0 (_NumberOfPoints s))
    (EvaluateGradient_call (gradient_functor s))
    (memset_zero (_NumberOfPoints s) (_Gradient s)).

(** [GaussCurvatureConstraint::EvaluateGradient]: the term after the
    call and the caller's buffer [gradient]. *)
Definition EvaluateGradient (t : Partition) (s : State)
    (gradient : list R) (step weight : R) : State * list R :=
  if (_NumberOfPoints s =? 0)%nat then (s, gradient)
  else
    let s' :=
      mkState (_PointSet s) (_NumberOfPoints s) (own_gradient t s)
              (GAUSS s) (MEAN s) (GlobalTimeStamp s) in
    (s', SurfaceConstraint_EvaluateGradient s' gradient step
           (weight / INR (_NumberOfPoints s))).

End Collaborators.

(** Modelled from the spec: the base additive-accumulation step
    [SurfaceConstraint::EvaluateGradient], which is not among the
    sources.  It "adds weight x stepScale x (per-point contribution) into
    the caller-owned gradient buffer", three scalars per point. *)
Definition additive_accumulation (s : State) (gradient : list R)
    (step weight : R) : list R :=
  for_range (_NumberOfPoints s) 0
    (fun ptId g =>
       store3 g ptId
         (vtkMath.Add (load3 g ptId)
            (scale3 (weight * step) (GetPoint (_Gradient s) ptId))))
    gradient.

End GaussCurvatureConstraint.

(* ===================================================================== *)
(** ** EulerMethod.cc: auxiliary functors *)
(* ===================================================================== *)

Module EulerMethodUtils.

(** [ComputeDisplacements]: the negated force and the signed step. *)
Record ComputeDisplacements : Type := mkComputeDisplacements {
  cd_Gradient : list R;
  cd_StepLength : R
}.

(** Constructor [ComputeDisplacements(dx, gradient, dt, norm)]; [dx] is
    the buffer threaded through [ComputeDisplacements_call]. *)
Definition ComputeDisplacements_new (gradient : list R) (dt norm : R)
    : ComputeDisplacements :=
  mkComputeDisplacements gradient (- dt / norm).

(** [ComputeDisplacements::operator()]. *)
Definition ComputeDisplacements_call (this : ComputeDisplacements)
    (ptIds : blocked_range) (_Displacement : list R) : list R :=
  over_block
    (fun ptId d =>
       let g := load3 (cd_Gradient this) ptId in
       store3 d ptId
         (mkVec3 (cd_StepLength this * vx g)
                 (cd_StepLength this * vy g)
                 (cd_StepLength this * vz g)))
    ptIds _Displacement.

(** [ClampDisplacements]: the squared maximum. *)
Record ClampDisplacements : Type := mkClampDisplacements {
  cl_Maximum : R
}.

(** Constructor [ClampDisplacements(dx, max_dx)]. *)
Definition ClampDisplacements_new (max_dx : R) : ClampDisplacements :=
  mkClampDisplacements (max_dx * max_dx).

(** Body of the loop of [ClampDisplacements::operator()]. *)
Definition ClampDisplacements_point (this : ClampDisplacements)
    (ptId : nat) (_Displacement : list R) : list R :=
  let d := load3 _Displacement ptId in
  let norm := vx d * vx d + vy d * vy d + vz d * vz d in
  if Rgt_dec norm (cl_Maximum this) then
    let norm := sqrt (cl_Maximum this / norm) in
    store3 _Displacement ptId
      (mkVec3 (vx d * norm) (vy d * norm) (vz d * norm))
  else _Displacement.

(** [ClampDisplacements::operator()]. *)
Definition ClampDisplacements_call (this : ClampDisplacements)
    (ptIds : blocked_range) (_Displacement : list R) : list R :=
  over_block (ClampDisplacements_point this) ptIds _Displacement.

(** The clamp seen as a function of one displacement vector, for a
    maximum [max_dx]: what [ClampDisplacements_point] leaves in the
    three scalars of its point. *)
Definition clamp_vector (max_dx : R) (d : Vec3) : Vec3 :=
  let norm := vx d * vx d + vy d * vy d + vz d * vz d in
  if Rgt_dec norm (max_dx * max_dx)
  then scale3 (sqrt (max_dx * max_dx / norm)) d
  else d.

End EulerMethodUtils.

(* ===================================================================== *)
(** ** EulerMethod.cc: the optimizer *)
(* ===================================================================== *)

Module EulerMethod.
Import EulerMethodUtils.

(** An energy value: the loop tests it with [IsInf]. *)
Inductive Energy : Type :=
| Finite (value : R)
| Infinite.

Definition IsInf (e : Energy) : bool :=
  match e with Finite _ => false | Infinite => true end.

(** Events sent to the observers. *)
Inductive Event : Type :=
| StartEvent
| IterationStartEvent (iter : nat)
| IterationEndEvent (iter : nat)
| EndEvent (value : Energy).

(** How a call can end abnormally. *)
Inductive Fault : Type :=
| Exit1               (* [exit(1)] of [Initialize] *)
| NullPointer         (* access through a NULL buffer *)
| OutOfBounds.        (* access past the end of a buffer *)

Inductive result (A : Type) : Type :=
| Ok (a : A)
| Crash (f : Fault).
Arguments Ok {A} a.
Arguments Crash {A} f.

Definition bind {A B : Type} (r : result A) (k : A -> result B)
    : result B :=
  match r with Ok a => k a | Crash f => Crash f end.

(** The deformable surface model, as far as the optimizer calls it. *)
Class DeformableSurfaceModel (M : Type) : Type := {
  Transformation : M -> bool;
  NumberOfDOFs : M -> nat;
  NumberOfPoints : M -> nat;
  Gradient : M -> list R -> list R;
  GradientNorm : M -> list R -> R;
  Step : M -> list R -> M * R;
  Update : bool -> M -> M;
  Remesh : M -> M * bool;
  Value : M -> Energy;
  GetArray_Status : M -> option (list R);
  AddArray_Status : list R -> M -> M;
  HasArray_NormalDisplacement : M -> bool;
  AddArray_NormalDisplacement : list R -> M -> M;
  IsSurfaceMesh : M -> bool;
  SurfaceNormals : M -> list Vec3
}.

(** Members inherited from [LocalOptimizer], and the log of the events
    broadcast to the observers. *)
Record LocalOptimizer : Type := mkLocalOptimizer {
  _NumberOfSteps : nat;
  _Epsilon : R;
  _Delta : R;
  _LastDelta : R;
  Observed : list Event
}.

Section Optimizer.
Context {M : Type} `{DeformableSurfaceModel M}.

Record EulerMethod : Type := mkEulerMethod {
  Base : LocalOptimizer;
  _Model : M;
  _StepLength : R;
  _NormalizeStepLength : bool;
  _MaximumDisplacement : R;
  _NormalDisplacement : option (list R);
  _Gradient : option (list R);
  _Displacement : option (list R);
  _NumberOfDOFs : nat
}.

Definition set_Base (b : LocalOptimizer) (o : EulerMethod) :=
  mkEulerMethod b (_Model o) (_StepLength o) (_NormalizeStepLength o)
    (_MaximumDisplacement o) (_NormalDisplacement o) (_Gradient o)
    (_Displacement o) (_NumberOfDOFs o).

Definition set_Model (m : M) (o : EulerMethod) :=
  mkEulerMethod (Base o) m (_StepLength o) (_NormalizeStepLength o)
    (_MaximumDisplacement o) (_NormalDisplacement o) (_Gradient o)
    (_Displacement o) (_NumberOfDOFs o).

Definition set_NormalDisplacement (a : option (list R))
    (o : EulerMethod) :=
  mkEulerMethod (Base o) (_Model o) (_StepLength o)
    (_NormalizeStepLength o) (_MaximumDisplacement o) a (_Gradient o)
    (_Displacement o) (_NumberOfDOFs o).

Definition set_Gradient (g : option (list R)) (o : EulerMethod) :=
  mkEulerMethod (Base o) (_Model o) (_StepLength o)
    (_NormalizeStepLength o) (_MaximumDisplacement o)
    (_NormalDisplacement o) g (_Displacement o) (_NumberOfDOFs o).

Definition set_Displacement (d : option (list R)) (o : EulerMethod) :=
  mkEulerMethod (Base o) (_Model o) (_StepLength o)
    (_NormalizeStepLength o) (_MaximumDisplacement o)
    (_NormalDisplacement o) (_Gradient o) d (_NumberOfDOFs o).

Definition set_NumberOfDOFs (n : nat) (o : EulerMethod) :=
  mkEulerMethod (Base o) (_Model o) (_StepLength o)
    (_NormalizeStepLength o) (_MaximumDisplacement o)
    (_NormalDisplacement o) (_Gradient o) (_Displacement o) n.

Definition set_LastDelta (delta : R) (o : EulerMethod) :=
  set_Base
    (mkLocalOptimizer (_NumberOfSteps (Base o)) (_Epsilon (Base o))
       (_Delta (Base o)) delta (Observed (Base o))) o.

(** [Broadcast(event)]. *)
Definition Broadcast (e : Event) (o : EulerMethod) :=
  set_Base
    (mkLocalOptimizer (_NumberOfSteps (Base o)) (_Epsilon (Base o))
       (_Delta (Base o)) (_LastDelta (Base o))
       (Observed (Base o) ++ [e])) o.

(** [Allocate<double>(n)]; the contents are indeterminate and every
    caller overwrites them before they are read. *)
Definition Allocate (n : nat) : option (list R) := Some (repeat 0 n).

(** The array behind a buffer pointer, for the kernels of the loop
    ([Initialize] has allocated it when there is a point to visit). *)
Definition deref (b : option (list R)) : list R := default [] b.

(** Constructor [EulerMethod(ObjectiveFunction *f)] on top of the
    members set by [LocalOptimizer(f)]. *)
Definition EulerMethod_new (base : LocalOptimizer) (f : M)
    : EulerMethod :=
  mkEulerMethod
    (mkLocalOptimizer (_NumberOfSteps base) 1e-9 (_Delta base)
       (_LastDelta base) (Observed base))
    f 1.0 true 0 None None None 0.

(** [memcpy(dst, src, n * sizeof(double))]. *)
Definition memcpy (dst src : option (list R)) (n : nat)
    : result (option (list R)) :=
  match dst, src with
  | Some d, Some s =>
      if (n <=? length d)%nat && (n <=? length s)%nat
      then Ok (Some (take n s ++ drop n d))
      else Crash OutOfBounds
  | _, _ => Crash NullPointer
  end.

(** [EulerMethod::CopyAttributes]. *)
Definition CopyAttributes (this other : EulerMethod)
    : result EulerMethod :=
  let this :=
    mkEulerMethod (Base this) (_Model this)
      (_StepLength other) (_NormalizeStepLength other)
      (_MaximumDisplacement other) (_NormalDisplacement other)
      (_Gradient this) (_Displacement this) (_NumberOfDOFs other) in
  let this :=
    if negb (_NumberOfDOFs this =? _NumberOfDOFs other)%nat
       || (_NumberOfDOFs other =? 0)%nat
    then
      let this := set_Displacement None (set_Gradient None this) in
      if (0 <? _NumberOfDOFs this)%nat
      then set_Displacement (Allocate (_NumberOfDOFs this))
             (set_Gradient (Allocate (_NumberOfDOFs this)) this)
      else this
    else this in
  if (0 <? _NumberOfDOFs this)%nat then
    bind (memcpy (_Gradient this) (_Gradient other)
            (_NumberOfDOFs this)) (fun g =>
    bind (memcpy (_Displacement this) (_Displacement other)
            (_NumberOfDOFs this)) (fun d =>
    Ok (set_Displacement d (set_Gradient g this))))
  else Ok this.

(** Copy constructor [EulerMethod(const EulerMethod &other)]:
    [LocalOptimizer(other)], both buffers NULL, and the members that
    the initializer list leaves indeterminate taken from [garbage]. *)
Definition EulerMethod_copy (garbage other : EulerMethod)
    : result EulerMethod :=
  CopyAttributes
    (set_Displacement None
       (set_Gradient None (set_Base (Base other) garbage)))
    other.

(** [operator =] for [this != &other]. *)
Definition assign (this other : EulerMethod) : result EulerMethod :=
  CopyAttributes (set_Base (Base other) this) other.

(** The reallocation shared by [Initialize] and [RemeshModel]. *)
Definition grow_buffers (o : EulerMethod) : EulerMethod :=
  if (_NumberOfDOFs o <? NumberOfDOFs (_Model o))%nat then
    let n := NumberOfDOFs (_Model o) in
    set_Displacement (Allocate n)
      (set_Gradient (Allocate n) (set_NumberOfDOFs n o))
  else o.

(** [EulerMethod::Initialize]; [_Function] is a deformable surface
    model by its type here, so that the first [exit(1)] cannot occur. *)
Definition Initialize (o : EulerMethod) : result EulerMethod :=
  if Transformation (_Model o) then Crash Exit1
  else
    let o := grow_buffers o in
    let o :=
      match GetArray_Status (_Model o) with
      | Some _ => o
      | None =>
          set_Model
            (AddArray_Status (repeat 1.0 (NumberOfPoints (_Model o)))
               (_Model o)) o
      end in
    let o :=
      match _NormalDisplacement o with
      | Some a =>
          if HasArray_NormalDisplacement (_Model o) then o
          else set_Model (AddArray_NormalDisplacement a (_Model o)) o
      | None => o
      end in
    Ok o.

(** [EulerMethod::RemeshModel]. *)
Definition RemeshModel (o : EulerMethod) : EulerMethod :=
  let '(m, changed) := Remesh (_Model o) in
  if changed then grow_buffers (set_Model (Update true m) o)
  else set_Model m o.

(** [EulerMethod::GradientNorm]. *)
Definition EulerMethod_GradientNorm (o : EulerMethod) : R :=
  if _NormalizeStepLength o then
    let norm := GradientNorm (_Model o) (deref (_Gradient o)) in
    if Rgt_dec norm 0 then norm else 1.0
  else 1.0 / INR (NumberOfPoints (_Model o)).

(** The first half of [UpdateDisplacement]: the displacement buffer
    after [ComputeDisplacements]. *)
Definition computed_displacement (t : Partition) (o : EulerMethod)
    : list R :=
  let eval :=
    ComputeDisplacements_new (deref (_Gradient o)) (_StepLength o)
      (EulerMethod_GradientNorm o) in
  parallel_for t (mkRange 0 (NumberOfPoints (_Model o)))
    (ComputeDisplacements_call eval) (deref (_Displacement o)).

(** [EulerMethod::TruncateDisplacement(force)]. *)
Definition TruncateDisplacement (t : Partition) (force : bool)
    (o : EulerMethod) : EulerMethod :=
  let max_dx := _MaximumDisplacement o in
  let max_dx :=
    if Rle_dec max_dx 0
    then (if _NormalizeStepLength o then _StepLength o else 1.0)
    else max_dx in
  if force || negb (_NormalizeStepLength o)
     || (if Rlt_dec max_dx (_StepLength o) then true else false)
  then
    let clamp := ClampDisplacements_new max_dx in
    set_Displacement
      (Some (parallel_for t (mkRange 0 (NumberOfPoints (_Model o)))
               (ClampDisplacements_call clamp)
               (deref (_Displacement o)))) o
  else o.

(** [EulerMethod::UpdateDisplacement]; [TruncateDisplacement] is
    called with its default argument [force = false]. *)
Definition UpdateDisplacement (t : Partition) (o : EulerMethod)
    : EulerMethod :=
  TruncateDisplacement t false
    (set_Displacement (Some (computed_displacement t o)) o).

(** [EulerMethod::UpdateNormalDisplacement]. *)
Definition UpdateNormalDisplacement (o : EulerMethod) : EulerMethod :=
  match _NormalDisplacement o with
  | Some a =>
      if IsSurfaceMesh (_Model o) then
        let normals := SurfaceNormals (_Model o) in
        let a :=
          for_range (NumberOfPoints (_Model o)) 0
            (fun ptId a =>
               let dx := load3 (deref (_Displacement o)) ptId in
               let n := GetPoint normals ptId in
               let m := GetComponent a ptId in
               let m := m + (vx dx * vx n + vy dx * vy n
                             + vz dx * vz n) in
               <[ptId := m]> a)
            a in
        set_NormalDisplacement (Some a) o
      else o
  | None => o
  end.

(** [EulerMethod::Finalize]. *)
Definition Finalize (o : EulerMethod) : EulerMethod := o.

(** Why the loop of [Run] was left. *)
Inductive Exit : Type :=
| MaxIterationsReached
| DegenerateStep
| Converged.

Section Loop.
(** [LocalOptimizer::Converged(iter, prev, value, dx)]: the stopping
    criteria may set the status of nodes of the model. *)
Variable LocalOptimizer_Converged :
  nat -> Energy -> Energy -> list R -> M -> M * bool.
(** The partition chosen by the scheduler. *)
Variable t : Partition.

(** The body of the [while] loop of [Run] up to the time step: the
    optimizer with the model as the stepping operation left it and
    [_LastDelta] as it returned it. *)
Definition perform_step (iter : nat) (o : EulerMethod) : EulerMethod :=
  let o := Broadcast (IterationStartEvent iter) o in
  let o := if (1 <? iter)%nat then RemeshModel o else o in
  let o :=
    set_Gradient
      (Some (Gradient (_Model o) (deref (_Gradient o)))) o in
  let o := UpdateDisplacement t o in
  let '(m, delta) := Step (_Model o) (deref (_Displacement o)) in
  set_LastDelta delta (set_Model m o).

(** One pass through the body of the [while] loop of [Run]; [Some]
    exit for a [break]. *)
Definition iteration (iter : nat) (o : EulerMethod) (value : Energy)
    : EulerMethod * Energy * option Exit :=
  let o := perform_step iter o in
  if Rle_dec (_LastDelta (Base o)) (_Delta (Base o))
  then (o, value, Some DegenerateStep)
  else
    let o := set_Model (Update true (_Model o)) o in
    let o := UpdateNormalDisplacement o in
    let prev := value in
    let value := if IsInf prev then value else Value (_Model o) in
    let '(m, converged) :=
      LocalOptimizer_Converged iter prev value
        (deref (_Displacement o)) (_Model o) in
    let o := set_Model m o in
    if converged then (o, value, Some Converged)
    else (Broadcast (IterationEndEvent iter) o, value, None).

(** [Iteration step(0, _NumberOfSteps); while (step.Next()) ...]:
    [remaining] steps are left and the next one is number [iter].  The
    counter of [Iteration], which is not among the sources, runs from [1]
    to [_NumberOfSteps] as the specification has it. *)
Fixpoint loop (remaining : nat) (iter : nat) (o : EulerMethod)
    (value : Energy) : EulerMethod * Energy * Exit :=
  match remaining with
  | O => (o, value, MaxIterationsReached)
  | S remaining' =>
      match iteration iter o value with
      | (o, value, Some exit) => (o, value, exit)
      | (o, value, None) => loop remaining' (S iter) o value
      end
  end.

(** [EulerMethod::Run]; the exit of the loop is returned next to
    the value. *)
Definition Run (o : EulerMethod)
    : result (EulerMethod * Energy * Exit) :=
  bind (Initialize o) (fun o =>
  let o := RemeshModel o in
  let o := set_Model (Update true (_Model o)) o in
  let o := Broadcast StartEvent o in
  let value := Value (_Model o) in
  let '(o, value, exit) :=
    loop (_NumberOfSteps (Base o)) 1 o value in
  let o := Broadcast (EndEvent value) o in
  let o := Finalize o in
  Ok (o, value, exit)).

End Loop.
End Optimizer.

Arguments EulerMethod M : clear implicits.

End EulerMethod.

(* ===================================================================== *)
(** ** Specification-side definitions *)
(* ===================================================================== *)

(** The sum of [f i] for [i] in [[b, b + n)]. *)
Fixpoint sum_from (f : nat -> R) (b n : nat) : R :=
  match n with
  | O => 0
  | S n' => f b + sum_from f (S b) n'
  end.

(** The sum of a list of vectors. *)
Definition sum3 (l : list Vec3) : Vec3 := fold_right vtkMath.Add zero3 l.

(** A loop body that writes [v] into the slot of its own index [i] for
    [w i = Some v], and nothing for [w i = None]. *)
Definition slot_writer {A : Type} (w : nat -> option A) (i : nat)
    (g : list A) : list A :=
  match w i with Some v => <[i := v]> g | None => g end.

(** The same for a flat buffer with three scalars per point, where the
    vector written may depend on the one the slot holds. *)
Definition slot3_writer (w : nat -> Vec3 -> option Vec3) (ptId : nat)
    (buffer : list R) : list R :=
  match w ptId (load3 buffer ptId) with
  | Some v => store3 buffer ptId v
  | None => buffer
  end.

(** The per-point contribution of the curvature term, as the
    specification words it. *)
Module CurvatureForce.
Import GaussCurvatureConstraintUtils GaussCurvatureConstraint.

(** A point is active unless the status array exists and holds [0]. *)
Definition active (s : State) (p : nat) : Prop :=
  match SurfaceStatus (_PointSet s) with
  | None => True
  | Some status => GetComponent status p <> 0
  end.

Definition neighbors (s : State) (p : nat) : list nat :=
  GetAdjacentPoints (SurfaceEdges (_PointSet s)) p.

Definition K (s : State) (p : nat) : R := GetComponent (Values (GAUSS s)) p.
Definition H (s : State) (p : nat) : R := GetComponent (Values (MEAN s)) p.

(** The offset vectors [neighbor - p]. *)
Definition offsets (s : State) (p : nat) : list Vec3 :=
  map (fun q =>
         vtkMath.Subtract (GetPoint (SurfacePoints (_PointSet s)) q)
           (GetPoint (SurfacePoints (_PointSet s)) p))
      (neighbors s p).

(** An offset on the outward side of the surface at [p]. *)
Definition outward (s : State) (p : nat) (d : Vec3) : bool :=
  if Rgt_dec
       (vtkMath.Dot d (GetPoint (SurfaceNormals (_PointSet s)) p)) 0
  then true else false.

(** The offsets that are summed: the outward ones for [K < 0], all of
    them for [K >= 0]. *)
Definition summed_offsets (s : State) (p : nat) : list Vec3 :=
  if Rlt_dec (K s p) 0 then List.filter (outward s p) (offsets s p)
  else offsets s p.

(** The sum divided by the neighbor count and normalized. *)
Definition direction (s : State) (p : nat) : Vec3 :=
  vtkMath.Normalize
    (vtkMath.MultiplyScalar (sum3 (summed_offsets s p))
       (1 / INR (length (neighbors s p)))).

(** The membership weight with its curvature-sign-dependent factor. *)
Definition magnitude (s : State) (p : nat) : R :=
  SShapedMembershipFunction (Rabs (K s p)) 0 0.2
  * (if Rlt_dec (H s p) 0
     then 1 - SShapedMembershipFunction (- H s p) 0 0.5
     else SShapedMembershipFunction (H s p) 0 1).

Definition contribution (s : State) (p : nat) : Vec3 :=
  scale3 (- magnitude s p) (direction s p).

(** What the pass of the term's loop for point [p] writes into the
    slot of [p], if it writes. *)
Definition written (s : State) (p : nat) : option Vec3 :=
  if is_passive (SurfaceStatus (_PointSet s)) p then None
  else if (0 <? length (neighbors s p))%nat then Some (contribution s p)
  else None.

(** The number of points with active status among the first [n]. *)
Definition activePointCount (s : State) (n : nat) : nat :=
  length
    (List.filter
       (fun p => negb (is_passive (SurfaceStatus (_PointSet s)) p))
       (seq 0 n)).

(** A cached field is stale when its time stamp is older than that of
    the geometry of the surface. *)
Definition stale (a : vtkDataArray) (s : State) : Prop :=
  (MTime a < SurfaceMTime (_PointSet s))%nat.

(** The curvature types of the stale fields, as a bit set. *)
Definition stale_types (Gauss Mean : Z) (s : State) : Z :=
  Z.lor
    (if (MTime (GAUSS s) <? SurfaceMTime (_PointSet s))%nat
     then Gauss else 0%Z)
    (if (MTime (MEAN s) <? SurfaceMTime (_PointSet s))%nat
     then Mean else 0%Z).

(** A term with two points of which the second is passive. *)
Definition half_active : State :=
  mkState
    (mkPointSet [mkVec3 0 0 0; mkVec3 1 0 0] (Some [1; 0])
       [[1%nat]; [0%nat]] [mkVec3 1 0 0; mkVec3 1 0 0] 0)
    2 [zero3; zero3] (mkArray [1; 1] 0) (mkArray [1; 1] 0) 0.

End CurvatureForce.

(** The displacement policy of the optimizer, as the specification words
    it. *)
Module DisplacementPolicy.
Import EulerMethod.

(** Modelled from the spec: [DeformableSurfaceModel::GradientNorm], which
    is not among the sources, is "the Euclidean norm of the whole Gradient
    vector", taken here over the [n] degrees of freedom. *)
Definition EuclideanNorm (n : nat) (gradient : list R) : R :=
  sqrt (sum_from (fun i => nth i gradient 0 * nth i gradient 0) 0 n).

Section Policy.
Context {M : Type} `{DeformableSurfaceModel M}.

(** The effective maximum: the configured maximum if positive, else the
    step length if normalizing, else [1]. *)
Definition effective_maximum (o : EulerMethod M) : R :=
  if Rlt_dec 0 (_MaximumDisplacement o) then _MaximumDisplacement o
  else if _NormalizeStepLength o then _StepLength o else 1.

(** When the clamp pass is to run. *)
Definition clamp_applies (force : bool) (o : EulerMethod M) : Prop :=
  force = true \/ _NormalizeStepLength o = false
  \/ effective_maximum o < _StepLength o.

End Policy.
End DisplacementPolicy.

(** A small model to run the optimizer on: it has [toy_points] points,
    reports the Euclidean norm, never remeshes, and its stepping operation
    always reports the delta [toy_delta]. *)
Module ToyModel.
Import EulerMethod.

Record Toy : Type := mkToy { toy_points : nat; toy_delta : R }.

#[export] Instance Toy_model : DeformableSurfaceModel Toy := {|
  Transformation := fun _ => false;
  NumberOfDOFs := fun m => (3 * toy_points m)%nat;
  NumberOfPoints := toy_points;
  Gradient := fun _ gradient => gradient;
  GradientNorm := fun m gradient =>
    DisplacementPolicy.EuclideanNorm (3 * toy_points m) gradient;
  Step := fun m _ => (m, toy_delta m);
  Update := fun _ m => m;
  Remesh := fun m => (m, false);
  Value := fun _ => Finite 0;
  GetArray_Status := fun _ => None;
  AddArray_Status := fun _ m => m;
  HasArray_NormalDisplacement := fun _ => false;
  AddArray_NormalDisplacement := fun _ m => m;
  IsSurfaceMesh := fun _ => true;
  SurfaceNormals := fun _ => []
|}.

(** An optimizer on a model with one point. *)
Definition one_point (normalize : bool) (gradient displacement : list R)
    : EulerMethod Toy :=
  mkEulerMethod (mkLocalOptimizer 10 1e-9 1e-12 0 []) (mkToy 1 1)
    1 normalize 0 None (Some gradient) (Some displacement) 3.

(** A stopping criterion that is never satisfied. *)
Definition never_converged (_ : nat) (_ _ : Energy) (_ : list R) (m : Toy)
    : Toy * bool := (m, false).

(** A stopping criterion that is always satisfied. *)
Definition always_converged (_ : nat) (_ _ : Energy) (_ : list R) (m : Toy)
    : Toy * bool := (m, true).

End ToyModel.

(** The mean position of the neighbors of a point. *)
Module Neighborhood.
Import GaussCurvatureConstraint CurvatureForce.


(** The term with another content of its buffer [_Gradient]. *)
Definition with_Gradient (g : list Vec3) (s : State) : State :=
  mkState (_PointSet s) (_NumberOfPoints s) g (GAUSS s) (MEAN s)
    (GlobalTimeStamp s).

(** Every time stamp of the state was drawn from the global clock. *)
Definition stamps_ok (s : State) : Prop :=
  (SurfaceMTime (_PointSet s) <= GlobalTimeStamp s)%nat /\
  (MTime (GAUSS s) <= GlobalTimeStamp s)%nat /\
  (MTime (MEAN s) <= GlobalTimeStamp s)%nat.

End Neighborhood.

(** Notions to speak about a run of the optimizer. *)
Module RunFacts.
Import EulerMethod.

(** The events of [k] complete iterations numbered from [iter], followed
    by the start of one more iteration when the loop was left by a
    [break]. *)
Fixpoint iteration_events (iter k : nat) (broke : bool) : list Event :=
  match k with
  | O => if broke then [IterationStartEvent iter] else []
  | S k' =>
      IterationStartEvent iter :: IterationEndEvent iter
      :: iteration_events (S iter) k' broke
  end.

Definition is_break (exit : Exit) : bool :=
  match exit with MaxIterationsReached => false | _ => true end.

Section Optimizer.
Context {M : Type} `{DeformableSurfaceModel M}.

(** Both buffers hold [_NumberOfDOFs] scalars (none for NULL). *)
Definition buffers_ok (o : EulerMethod M) : Prop :=
  length (deref (_Gradient o)) = _NumberOfDOFs o /\
  length (deref (_Displacement o)) = _NumberOfDOFs o.

(** The configuration of the optimizer. *)
Definition configuration (o : EulerMethod M)
    : R * bool * R * nat * R * R :=
  (_StepLength o, _NormalizeStepLength o, _MaximumDisplacement o,
   _NumberOfSteps (Base o), _Epsilon (Base o), _Delta (Base o)).

(** The optimizer as [Run] has it when it enters the loop, from the
    optimizer returned by [Initialize]. *)
Definition prepared (initialized : EulerMethod M) : EulerMethod M :=
  let remeshed := RemeshModel initialized in
  Broadcast StartEvent
    (set_Model (Update true (_Model remeshed)) remeshed).

End Optimizer.
End RunFacts.

(** A surface model defined by the equilibrium of its forces only: its
    energy is infinite, and its surface has the unit normal [(0, 0, 1)]
    at every point. *)
Module ForceModel.
Import EulerMethod.

Record Forces : Type := mkForces { forces_points : nat; forces_delta : R }.

#[export] Instance Forces_model : DeformableSurfaceModel Forces := {|
  Transformation := fun _ => false;
  NumberOfDOFs := fun m => (3 * forces_points m)%nat;
  NumberOfPoints := forces_points;
  Gradient := fun _ gradient => gradient;
  GradientNorm := fun m gradient =>
    DisplacementPolicy.EuclideanNorm (3 * forces_points m) gradient;
  Step := fun m _ => (m, forces_delta m);
  Update := fun _ m => m;
  Remesh := fun m => (m, false);
  Value := fun _ => Infinite;
  GetArray_Status := fun _ => None;
  AddArray_Status := fun _ m => m;
  HasArray_NormalDisplacement := fun _ => false;
  AddArray_NormalDisplacement := fun _ m => m;
  IsSurfaceMesh := fun _ => true;
  SurfaceNormals := fun m => repeat (mkVec3 0 0 1) (forces_points m)
|}.

(** An optimizer on such a model with one point, which tracks the
    displacement in normal direction in [a]. *)
Definition inflating (a : option (list R)) (displacement : list R)
    : EulerMethod Forces :=
  mkEulerMethod (mkLocalOptimizer 2 1e-9 1e-12 0 []) (mkForces 1 1)
    1 true 0 a (Some [0; 0; 0]) (Some displacement) 3.

End ForceModel.

(* ===================================================================== *)
(** * Properties *)
(* ===================================================================== *)

(* ===================================================================== *)
(** ** The S-shaped membership function *)
(* ===================================================================== *)

Section SShapedMembershipFunction.
Import GaussCurvatureConstraintUtils.

Ltac smf_cases :=
unfold SShapedMembershipFunction;
repeat (destruct (Rle_dec _ _)); repeat (destruct (Rge_dec _ _));
try lra.

Lemma smf_unit_interval (x a b : R) :
a < b ->
SShapedMembershipFunction x a b
= SShapedMembershipFunction ((x - a) / (b - a)) 0 1.
Proof.
intros Hab.
assert (Hd : 0 < b - a) by lra.
assert (Ht : (x - a) / (b - a) * (b - a) = x - a) by (field; lra).
set (u := (x - a) / (b - a)) in *.
assert (Hx : x = a + u * (b - a)) by lra.
assert (Hb : (x - b) / (b - a) = u - 1) by (subst u; field; lra).
unfold SShapedMembershipFunction.
rewrite Hb. fold u.
destruct (Rle_dec x a), (Rle_dec u 0); try nra.
destruct (Rge_dec x b), (Rge_dec u 1); try nra.
destruct (Rle_dec x (0.5 * (a + b))), (Rle_dec u (0.5 * (0 + 1)));
  try nra; cbv zeta; field.
Qed.

Lemma smf_unit_lipschitz (x y : R) :
x <= y ->
0 <= SShapedMembershipFunction y 0 1 - SShapedMembershipFunction x 0 1
  <= 2 * (y - x).
Proof.
intros Hxy. unfold SShapedMembershipFunction.
destruct (Rle_dec x 0), (Rle_dec y 0); try lra;
destruct (Rge_dec x 1), (Rge_dec y 1); try lra;
destruct (Rle_dec x (0.5 * (0 + 1))), (Rle_dec y (0.5 * (0 + 1)));
  try lra; cbv zeta;
replace ((x - 0) / (1 - 0)) with x by field;
replace ((y - 0) / (1 - 0)) with y by field;
replace ((x - 1) / (1 - 0)) with (x - 1) by field;
replace ((y - 1) / (1 - 0)) with (y - 1) by field;
split; nra.
Qed.

Lemma smf_lipschitz (a b x y : R) :
a < b -> x <= y ->
0 <= SShapedMembershipFunction y a b - SShapedMembershipFunction x a b
  <= 2 / (b - a) * (y - x).
Proof.
intros Hab Hxy.
rewrite (smf_unit_interval x a b Hab), (smf_unit_interval y a b Hab).
assert (Hd : 0 < / (b - a)) by (apply Rinv_0_lt_compat; lra).
assert (Hle : (x - a) / (b - a) <= (y - a) / (b - a)).
{ unfold Rdiv. apply Rmult_le_compat_r; lra. }
pose proof (smf_unit_lipschitz _ _ Hle) as [H0 H1].
split; [exact H0|].
replace (2 / (b - a) * (y - x))
  with (2 * ((y - a) / (b - a) - (x - a) / (b - a))) by (field; lra).
exact H1.
Qed.

Lemma smf_continuity_pt (a b x0 : R) :
a < b -> continuity_pt (fun x => SShapedMembershipFunction x a b) x0.
Proof.
intros Hab eps Heps.
assert (HL : 0 < 2 / (b - a)).
{ apply Rdiv_lt_0_compat; lra. }
exists (eps / (2 / (b - a))). split.
{ apply Rdiv_lt_0_compat; lra. }
intros x [_ Hdist]. simpl in *. unfold Rdist in *.
assert (Hbound : Rabs (x - x0) * (2 / (b - a)) < eps).
{ apply (Rmult_lt_compat_r (2 / (b - a))) in Hdist; [|exact HL].
  replace (eps / (2 / (b - a)) * (2 / (b - a))) with eps in Hdist
    by (field; lra).
  exact Hdist. }
destruct (Rle_dec x x0) as [Hle|Hgt].
- pose proof (smf_lipschitz a b x x0 Hab Hle) as [H0 H1].
  rewrite Rabs_left1 by lra.
  rewrite Rabs_left1 in Hbound by lra. lra.
- assert (Hle : x0 <= x) by lra.
  pose proof (smf_lipschitz a b x0 x Hab Hle) as [H0 H1].
  rewrite Rabs_right by lra.
  rewrite Rabs_right in Hbound by lra. lra.
Qed.

(** C8: for [a < b], [SShapedMembershipFunction x a b] is [0] for
  [x <= a], [1] for [x >= b], the quadratic ease-in
  [2 ((x - a) / (b - a))^2] on [[a, (a + b) / 2]] and the quadratic
  ease-out [1 - 2 ((x - b) / (b - a))^2] on [[(a + b) / 2, b]]; it takes
  the values [0], [0.5] and [1] at [a], [(a + b) / 2] and [b], is
  continuous at these three points, and is monotone non-decreasing on
  [[a, b]]. *)
Theorem SShapedMembershipFunction_shape (a b : R) (Hab : a < b) :
(forall x, x <= a -> SShapedMembershipFunction x a b = 0) /\
(forall x, x >= b -> SShapedMembershipFunction x a b = 1) /\
(forall x, a <= x <= (a + b) / 2 ->
   SShapedMembershipFunction x a b
   = 2 * ((x - a) / (b - a)) * ((x - a) / (b - a))) /\
(forall x, (a + b) / 2 <= x <= b ->
   SShapedMembershipFunction x a b
   = 1 - 2 * ((x - b) / (b - a)) * ((x - b) / (b - a))) /\
SShapedMembershipFunction a a b = 0 /\
SShapedMembershipFunction ((a + b) / 2) a b = 0.5 /\
SShapedMembershipFunction b a b = 1 /\
continuity_pt (fun x => SShapedMembershipFunction x a b) a /\
continuity_pt (fun x => SShapedMembershipFunction x a b) ((a + b) / 2) /\
continuity_pt (fun x => SShapedMembershipFunction x a b) b /\
(forall x y, a <= x -> x <= y -> y <= b ->
   SShapedMembershipFunction x a b <= SShapedMembershipFunction y a b).
Proof.
assert (Hd : b - a <> 0) by lra.
assert (Hlow : forall x, x <= a -> SShapedMembershipFunction x a b = 0).
{ intros x Hx. smf_cases. }
assert (Hhigh : forall x, x >= b -> SShapedMembershipFunction x a b = 1).
{ intros x Hx. smf_cases. }
assert (Hin : forall x, a <= x <= (a + b) / 2 ->
   SShapedMembershipFunction x a b
   = 2 * ((x - a) / (b - a)) * ((x - a) / (b - a))).
{ intros x Hx. smf_cases.
  replace x with a by lra. field. exact Hd. }
assert (Hout : forall x, (a + b) / 2 <= x <= b ->
   SShapedMembershipFunction x a b
   = 1 - 2 * ((x - b) / (b - a)) * ((x - b) / (b - a))).
{ intros x Hx. smf_cases.
  - cbv zeta. replace x with ((a + b) / 2) by lra. field. exact Hd.
  - replace x with b by lra. field. exact Hd. }
repeat split; auto using smf_continuity_pt.
- apply Hlow; lra.
- rewrite Hin by lra.
  replace (((a + b) / 2 - a) / (b - a)) with (1 / 2) by (field; lra).
  lra.
- apply Hhigh; lra.
- intros x y _ Hxy _. pose proof (smf_lipschitz a b x y Hab Hxy). lra.
Qed.

Lemma SShapedMembershipFunction_shape_witness :
0 < 1 /\ SShapedMembershipFunction 0.25 0 1 = 2 * ((0.25 - 0) / (1 - 0)) * ((0.25 - 0) / (1 - 0)).
Proof.
split; [lra|].
apply (SShapedMembershipFunction_shape 0 1 ltac:(lra)). lra.
Defined.

End SShapedMembershipFunction.

(* ===================================================================== *)
(** ** Loops over blocked ranges *)
(* ===================================================================== *)

Section Ranges.
Context {St : Type}.

Lemma for_range_add (body : nat -> St -> St) (n m i : nat) (s : St) :
  for_range (n + m) i body s
  = for_range m (i + n) body (for_range n i body s).
Proof.
  revert i s. induction n as [|n IH]; intros i s; simpl.
  - by rewrite Nat.add_0_r.
  - rewrite IH. by replace (S i + n)%nat with (i + S n)%nat by lia.
Qed.

Lemma over_block_cut (body : nat -> St -> St) (b mid e : nat) (s : St) :
  (b <= mid)%nat -> (mid <= e)%nat ->
  over_block body (mkRange mid e) (over_block body (mkRange b mid) s)
  = over_block body (mkRange b e) s.
Proof.
  intros Hb He. unfold over_block; simpl.
  replace (e - b)%nat with ((mid - b) + (e - mid))%nat by lia.
  rewrite for_range_add. by replace (b + (mid - b))%nat with mid by lia.
Qed.

(** However the scheduler cuts the range, [parallel_for] does what the
    functor does on the whole range. *)
Lemma parallel_for_whole (body : nat -> St -> St) (t : Partition) :
  forall (ptIds : blocked_range) (s : St),
    parallel_for t ptIds (over_block body) s = over_block body ptIds s.
Proof.
  induction t as [|mid l IHl r IHr]; intros [b e] s; simpl; [done|].
  destruct (b <? mid)%nat eqn:Hb; [|done].
  destruct (mid <? e)%nat eqn:He; [|done]. simpl.
  apply Nat.ltb_lt in Hb, He.
  rewrite IHl, IHr. apply over_block_cut; lia.
Qed.

End Ranges.

Lemma sum_from_add (f : nat -> R) (b n m : nat) :
  sum_from f b (n + m) = sum_from f b n + sum_from f (b + n) m.
Proof.
  revert b. induction n as [|n IH]; intros b; simpl.
  - rewrite Nat.add_0_r. lra.
  - rewrite IH. replace (S b + n)%nat with (b + S n)%nat by lia. lra.
Qed.

Lemma sum_from_zero (f : nat -> R) (b n : nat) :
  (forall i, (b <= i < b + n)%nat -> f i = 0) -> sum_from f b n = 0.
Proof.
  revert b. induction n as [|n IH]; intros b Hf; simpl; [done|].
  rewrite Hf by lia. rewrite IH; [lra|]. intros i Hi. apply Hf. lia.
Qed.

Lemma sum_from_map_seq (f : nat -> R) (b n : nat) :
  sum_from f b n = fold_right Rplus 0 (map f (seq b n)).
Proof.
  revert b. induction n as [|n IH]; intros b; simpl; [done|].
  by rewrite IH.
Qed.

Lemma sum_from_nth (l : list R) (g : R -> R) :
  sum_from (fun i => g (nth i l 0)) 0 (length l)
  = fold_right Rplus 0 (map g l).
Proof.
  rewrite sum_from_map_seq.
  assert (Hgen : forall pre,
    map (fun i => g (nth i (pre ++ l) 0)) (seq (length pre) (length l))
    = map g l).
  { induction l as [|x l IH]; intros pre; simpl; [done|].
    f_equal.
    - rewrite app_nth2 by lia. by rewrite Nat.sub_diag.
    - specialize (IH (pre ++ [x])).
      rewrite <- app_assoc in IH. simpl in IH.
      rewrite length_app in IH. simpl in IH.
      by rewrite Nat.add_1_r in IH. }
  specialize (Hgen []). simpl in Hgen. by rewrite Hgen.
Qed.

(* ===================================================================== *)
(** ** The penalty of the curvature term *)
(* ===================================================================== *)

Section Penalty.
Import GaussCurvatureConstraint GaussCurvatureConstraintUtils.

Lemma Evaluate_call_spec (ptIds : blocked_range) (this : Evaluate) :
  Evaluate_call ptIds this
  = mkEvaluate (ev_GaussCurvature this)
      (ev_Penalty this
       + sum_from (fun i => Rabs (GetComponent (ev_GaussCurvature this) i))
           (r_begin ptIds) (r_end ptIds - r_begin ptIds)).
Proof.
  unfold Evaluate_call, over_block.
  generalize (r_end ptIds - r_begin ptIds)%nat as n.
  generalize (r_begin ptIds) as b.
  intros b n. revert b this.
  induction n as [|n IH]; intros b [K p]; simpl.
  - f_equal. lra.
  - rewrite IH. simpl. f_equal. lra.
Qed.

(** The reduction adds up the same terms whatever the partition. *)
Lemma parallel_reduce_Evaluate (t : Partition) :
  forall (b e : nat) (this : Evaluate),
    (b <= e)%nat ->
    parallel_reduce t (mkRange b e)
      Evaluate_call Evaluate_split Evaluate_join this
    = mkEvaluate (ev_GaussCurvature this)
        (ev_Penalty this
         + sum_from
             (fun i => Rabs (GetComponent (ev_GaussCurvature this) i))
             b (e - b)).
Proof.
  induction t as [|mid l IHl r IHr]; intros b e this Hbe; simpl.
  - by rewrite Evaluate_call_spec.
  - destruct (b <? mid)%nat eqn:Hb; simpl;
      [|by rewrite Evaluate_call_spec].
    destruct (mid <? e)%nat eqn:He; simpl;
      [|by rewrite Evaluate_call_spec].
    apply Nat.ltb_lt in Hb, He.
    rewrite IHl, IHr by lia.
    unfold Evaluate_join, Evaluate_split; simpl. f_equal.
    replace (e - b)%nat with ((mid - b) + (e - mid))%nat by lia.
    rewrite sum_from_add.
    replace (b + (mid - b))%nat with mid by lia. lra.
Qed.

(** C7: [Evaluate] returns [0] for a term without points and otherwise
    the sum of [|GaussCurvature(i)|] over the points [i < N] divided by
    [N], whatever the partition of the reduction (the sum is the plain
    sum of the absolute values of the array when it has [N] entries);
    on a field that is zero at every point it returns [0]. *)
Theorem Evaluate_mean_absolute_curvature
    (t : Partition) (s : State) :
  let N := _NumberOfPoints s in
  let K := Values (GAUSS s) in
  (N = 0%nat -> GaussCurvatureConstraint.Evaluate t s = 0) /\
  (N <> 0%nat ->
     GaussCurvatureConstraint.Evaluate t s
     = sum_from (fun i => Rabs (GetComponent K i)) 0 N / INR N) /\
  (length K = N -> N <> 0%nat ->
     GaussCurvatureConstraint.Evaluate t s = fold_right Rplus 0 (map Rabs K) / INR N) /\
  ((forall i, (i < N)%nat -> GetComponent K i = 0) -> GaussCurvatureConstraint.Evaluate t s = 0).
Proof.
  intros N K.
  assert (Hpos : N <> 0%nat ->
     GaussCurvatureConstraint.Evaluate t s
     = sum_from (fun i => Rabs (GetComponent K i)) 0 N / INR N).
  { intros HN. unfold GaussCurvatureConstraint.Evaluate. fold N.
    destruct (N =? 0)%nat eqn:E; [apply Nat.eqb_eq in E; done|].
    rewrite parallel_reduce_Evaluate by lia. simpl.
    rewrite Nat.sub_0_r. fold K. f_equal. lra. }
  repeat split.
  - intros HN. unfold GaussCurvatureConstraint.Evaluate. fold N. by rewrite HN.
  - exact Hpos.
  - intros Hlen HN. rewrite Hpos by done. f_equal.
    rewrite <- Hlen. apply (sum_from_nth K Rabs).
  - intros Hzero. destruct (Nat.eq_dec N 0%nat) as [HN|HN].
    + unfold GaussCurvatureConstraint.Evaluate. fold N. by rewrite HN.
    + rewrite Hpos by done. rewrite sum_from_zero; [lra|].
      intros i Hi. rewrite Hzero by lia. apply Rabs_R0.
Qed.

Lemma Evaluate_mean_absolute_curvature_witness :
  let s := mkState (mkPointSet [] None [] [] 0) 2 [] (mkArray [1; -3] 0)
             (mkArray [] 0) 0 in
  length (Values (GAUSS s)) = 2%nat /\ 2%nat <> 0%nat /\
  GaussCurvatureConstraint.Evaluate (Cut 1 Whole Whole) s = 2.
Proof.
  intros s. split; [reflexivity|]. split; [lia|].
  destruct (Evaluate_mean_absolute_curvature (Cut 1 Whole Whole) s)
    as (_ & _ & Hlist & _).
  rewrite Hlist; [|reflexivity|simpl; lia]. simpl.
  unfold Rabs. repeat destruct (Rcase_abs _); lra.
Defined.

End Penalty.

(* ===================================================================== *)
(** ** Vectors *)
(* ===================================================================== *)

Lemma Vec3_eq (a b : Vec3) :
  vx a = vx b -> vy a = vy b -> vz a = vz b -> a = b.
Proof. destruct a, b; simpl; intros -> -> ->; reflexivity. Qed.

Ltac vec3 :=
  repeat match goal with v : Vec3 |- _ => destruct v end;
  unfold vtkMath.Add, vtkMath.Subtract, vtkMath.MultiplyScalar, scale3,
    zero3 in *; simpl in *;
  try (apply Vec3_eq; simpl; lra).

Lemma Add_zero_l (a : Vec3) : vtkMath.Add zero3 a = a.
Proof. vec3. Qed.

Lemma Add_zero_r (a : Vec3) : vtkMath.Add a zero3 = a.
Proof. vec3. Qed.

Lemma Add_assoc (a b c : Vec3) :
  vtkMath.Add (vtkMath.Add a b) c = vtkMath.Add a (vtkMath.Add b c).
Proof. vec3. Qed.

Lemma scale3_zero (m : R) : scale3 m zero3 = zero3.
Proof. vec3. Qed.

Lemma sum_squares_zero (x y z : R) :
  x * x + y * y + z * z = 0 -> x = 0 /\ y = 0 /\ z = 0.
Proof. intros Hs. repeat split; nra. Qed.

Lemma Norm_zero_iff (v : Vec3) : vtkMath.Norm v = 0 <-> v = zero3.
Proof.
  unfold vtkMath.Norm. split.
  - intros Hs. apply sqrt_eq_0 in Hs; [|nra].
    apply sum_squares_zero in Hs as (Hx & Hy & Hz).
    by apply Vec3_eq.
  - intros ->. simpl.
    replace (0 * 0 + 0 * 0 + 0 * 0) with 0 by lra. apply sqrt_0.
Qed.

Lemma Normalize_zero : vtkMath.Normalize zero3 = zero3.
Proof.
  unfold vtkMath.Normalize.
  destruct (Req_dec_T (vtkMath.Norm zero3) 0) as [_|Hne]; [done|].
  exfalso. apply Hne. by apply Norm_zero_iff.
Qed.

(** A vector that is not zero is normalized to unit length. *)
Lemma Norm_Normalize (v : Vec3) :
  v <> zero3 -> vtkMath.Norm (vtkMath.Normalize v) = 1.
Proof.
  intros Hv. unfold vtkMath.Normalize.
  destruct (Req_dec_T (vtkMath.Norm v) 0) as [Hz|Hnz].
  { exfalso. by apply Hv, Norm_zero_iff. }
  unfold vtkMath.Norm in *. simpl.
  set (q := vx v * vx v + vy v * vy v + vz v * vz v) in *.
  assert (Hq : 0 <= q) by (subst q; nra).
  assert (Hs : sqrt q * sqrt q = q) by (by apply sqrt_sqrt).
  replace (vx v / sqrt q * (vx v / sqrt q) + vy v / sqrt q * (vy v / sqrt q)
           + vz v / sqrt q * (vz v / sqrt q))
    with (q / (sqrt q * sqrt q)) by (subst q; field; exact Hnz).
  rewrite Hs. replace (q / q) with 1; [apply sqrt_1|].
  field. intros Hq0. apply Hnz. rewrite Hq0. apply sqrt_0.
Qed.

Lemma MultiplyScalar_one (v : Vec3) : vtkMath.MultiplyScalar v (1 / 1) = v.
Proof. destruct v. unfold vtkMath.MultiplyScalar; simpl. f_equal; field. Qed.

Lemma MultiplyScalar_zero (k : R) : vtkMath.MultiplyScalar zero3 k = zero3.
Proof. vec3. Qed.

(* ===================================================================== *)
(** ** Loops that write the slot of their own index *)
(* ===================================================================== *)

Section Slots.
Context {A : Type}.

Lemma slot_writer_length (w : nat -> option A) (i : nat) (g : list A) :
  length (slot_writer w i g) = length g.
Proof.
  unfold slot_writer. destruct (w i); [apply length_insert|done].
Qed.

Lemma for_range_slot_writer_length (w : nat -> option A) (n b : nat)
    (g : list A) :
  length (for_range n b (slot_writer w) g) = length g.
Proof.
  revert b g. induction n as [|n IH]; intros b g; simpl; [done|].
  by rewrite IH, slot_writer_length.
Qed.

Lemma for_range_slot_writer_outside (w : nat -> option A) (n b i : nat)
    (g : list A) :
  ~ (b <= i < b + n)%nat ->
  for_range n b (slot_writer w) g !! i = g !! i.
Proof.
  revert b g. induction n as [|n IH]; intros b g Hi; simpl; [done|].
  rewrite IH by lia. unfold slot_writer.
  destruct (w b); [|done]. apply list_lookup_insert_ne. lia.
Qed.

Lemma for_range_slot_writer_inside (w : nat -> option A) (n b i : nat)
    (g : list A) :
  (b <= i < b + n)%nat -> (i < length g)%nat ->
  for_range n b (slot_writer w) g !! i
  = match w i with Some v => Some v | None => g !! i end.
Proof.
  revert b g. induction n as [|n IH]; intros b g Hi Hlen; simpl; [lia|].
  destruct (decide (i = b)) as [->|Hne].
  - rewrite for_range_slot_writer_outside by lia.
    unfold slot_writer. destruct (w b); [|done].
    by apply list_lookup_insert_eq.
  - rewrite IH; [|lia|by rewrite slot_writer_length].
    destruct (w i); [done|]. unfold slot_writer.
    destruct (w b); [|done]. apply list_lookup_insert_ne. lia.
Qed.

End Slots.

Lemma for_range_ext {St : Type} (body body' : nat -> St -> St)
    (n b : nat) (s : St) :
  (forall i s', body i s' = body' i s') ->
  for_range n b body s = for_range n b body' s.
Proof.
  intros Hext. revert b s. induction n as [|n IH]; intros b s; simpl;
    [done|]. by rewrite Hext, IH.
Qed.

(* ===================================================================== *)
(** ** The gradient of the curvature term *)
(* ===================================================================== *)

Section CurvatureGradient.
Import GaussCurvatureConstraint GaussCurvatureConstraintUtils.
Import CurvatureForce.

Lemma fold_left_Add {B : Type} (d : B -> Vec3) (l : list B) (acc : Vec3) :
  fold_left (fun f i => vtkMath.Add f (d i)) l acc
  = vtkMath.Add acc (sum3 (map d l)).
Proof.
  revert acc. induction l as [|x l IH]; intros acc; simpl.
  - by rewrite Add_zero_r.
  - rewrite IH. apply Add_assoc.
Qed.

Lemma sum_all_spec (pts : list Vec3) (c : Vec3) (adj : list nat) :
  sum_all pts c adj
  = sum3 (map (fun q => vtkMath.Subtract (GetPoint pts q) c) adj).
Proof.
  unfold sum_all.
  rewrite (fold_left_Add
             (fun q => vtkMath.Subtract (GetPoint pts q) c)).
  apply Add_zero_l.
Qed.

Lemma sum_outward_spec (pts : list Vec3) (c n : Vec3) (adj : list nat) :
  sum_outward pts c n adj
  = sum3 (List.filter
            (fun d => if Rgt_dec (vtkMath.Dot d n) 0 then true else false)
            (map (fun q => vtkMath.Subtract (GetPoint pts q) c) adj)).
Proof.
  unfold sum_outward.
  assert (Hgen : forall acc,
    fold_left
      (fun f i =>
         let p := GetPoint pts i in
         let d := vtkMath.Subtract p c in
         if Rgt_dec (vtkMath.Dot d n) 0 then vtkMath.Add f d else f)
      adj acc
    = vtkMath.Add acc
        (sum3 (List.filter
                 (fun d =>
                    if Rgt_dec (vtkMath.Dot d n) 0 then true else false)
                 (map (fun q => vtkMath.Subtract (GetPoint pts q) c)
                    adj)))).
  { induction adj as [|q adj IH]; intros acc; simpl.
    - by rewrite Add_zero_r.
    - rewrite IH.
      destruct (Rgt_dec
                  (vtkMath.Dot (vtkMath.Subtract (GetPoint pts q) c) n) 0);
        simpl; [apply Add_assoc|done]. }
  rewrite Hgen. apply Add_zero_l.
Qed.

Lemma force_magnitude_spec (s : State) (p : nat) :
  force_magnitude (K s p) (H s p) = magnitude s p.
Proof.
  unfold force_magnitude, magnitude. by destruct (Rlt_dec (H s p) 0).
Qed.

(** The pass for point [p] writes the contribution of [p] or nothing. *)
Lemma EvaluateGradient_point_written (s : State) (p : nat)
    (g : list Vec3) :
  EvaluateGradient_point (gradient_functor s) p g
  = slot_writer (written s) p g.
Proof.
  unfold EvaluateGradient_point, slot_writer, written, gradient_functor.
  simpl.
  destruct (is_passive (SurfaceStatus (_PointSet s)) p); [done|].
  fold (neighbors s p).
  destruct (0 <? length (neighbors s p))%nat; [|done].
  f_equal. unfold contribution, direction, summed_offsets, offsets.
  fold (K s p) (H s p). rewrite force_magnitude_spec.
  destruct (Rlt_dec (K s p) 0).
  - by rewrite sum_outward_spec.
  - by rewrite sum_all_spec.
Qed.

Lemma own_gradient_lookup (t : Partition) (s : State) (p : nat) :
  (_NumberOfPoints s <= length (_Gradient s))%nat ->
  (p < _NumberOfPoints s)%nat ->
  own_gradient t s !! p = Some (default zero3 (written s p)).
Proof.
  intros Hlen Hp. unfold own_gradient.
  change (EvaluateGradient_call (gradient_functor s))
    with (over_block (EvaluateGradient_point (gradient_functor s))).
  rewrite parallel_for_whole. unfold over_block; simpl.
  rewrite Nat.sub_0_r.
  rewrite (for_range_ext _ (slot_writer (written s)))
    by (intros; apply EvaluateGradient_point_written).
  change (memset_zero (_NumberOfPoints s) (_Gradient s))
    with (for_range (_NumberOfPoints s) 0
            (slot_writer (fun _ => Some zero3)) (_Gradient s)).
  rewrite for_range_slot_writer_inside;
    [|lia|rewrite for_range_slot_writer_length; lia].
  destruct (written s p); [done|].
  rewrite for_range_slot_writer_inside by lia. done.
Qed.

Lemma is_passive_active (s : State) (p : nat) :
  is_passive (SurfaceStatus (_PointSet s)) p = false <-> active s p.
Proof.
  unfold is_passive, active.
  destruct (SurfaceStatus (_PointSet s)) as [st|]; [|done].
  destruct (Req_dec_T (GetComponent st p) 0); split; try done.
Qed.

Lemma GetPoint_own_gradient (t : Partition) (s : State) (p : nat) :
  (_NumberOfPoints s <= length (_Gradient s))%nat ->
  (p < _NumberOfPoints s)%nat ->
  GetPoint (own_gradient t s) p = default zero3 (written s p).
Proof.
  intros Hlen Hp. unfold GetPoint.
  rewrite nth_lookup, own_gradient_lookup by done. done.
Qed.

Lemma MultiplyScalar_nonzero (v : Vec3) (k : R) :
  k <> 0 -> v <> zero3 -> vtkMath.MultiplyScalar v k <> zero3.
Proof.
  intros Hk Hv Hz. apply Hv. destruct v as [x y z].
  unfold vtkMath.MultiplyScalar, zero3 in Hz. simpl in Hz.
  injection Hz as Hx Hy Hz.
  apply Vec3_eq; simpl; nra.
Qed.

Lemma own_gradient_active (t : Partition) (s : State) (p : nat) :
  (_NumberOfPoints s <= length (_Gradient s))%nat ->
  (p < _NumberOfPoints s)%nat ->
  active s p -> neighbors s p <> [] ->
  GetPoint (own_gradient t s) p = contribution s p.
Proof.
  intros Hlen Hp Hact Hn.
  rewrite GetPoint_own_gradient by done. unfold written.
  apply is_passive_active in Hact. rewrite Hact.
  by destruct (neighbors s p).
Qed.

(** C1: after the term's own pass of [EvaluateGradient] (the [memset]
    and the loop over all points, however it is partitioned), the slot
    of a point [p] that is active and has a neighbor holds
    [- m * f], where [f] is the sum of the offsets [neighbor - p] (of
    those with a positive dot product with the normal of [p] when
    [GaussCurvature(p) < 0], of all of them otherwise) divided by the
    neighbor count and normalized; [f] has unit length unless the sum is
    zero, in which case the contribution is zero.  The slot of a point
    that is passive or has no neighbor holds zero. *)
Theorem EvaluateGradient_contribution (t : Partition) (s : State)
    (p : nat)
    (Hlen : (_NumberOfPoints s <= length (_Gradient s))%nat)
    (Hp : (p < _NumberOfPoints s)%nat) :
  (active s p -> neighbors s p <> [] ->
     GetPoint (own_gradient t s) p = contribution s p) /\
  (~ active s p \/ neighbors s p = [] ->
     GetPoint (own_gradient t s) p = zero3) /\
  (sum3 (summed_offsets s p) = zero3 -> contribution s p = zero3) /\
  (neighbors s p <> [] -> sum3 (summed_offsets s p) <> zero3 ->
     vtkMath.Norm (direction s p) = 1).
Proof.
  split; [by apply own_gradient_active|].
  rewrite GetPoint_own_gradient by done. unfold written.
  repeat split.
  - intros [Hpas|Hn].
    + destruct (is_passive (SurfaceStatus (_PointSet s)) p) eqn:E;
        [done|]. exfalso. by apply Hpas, is_passive_active.
    + rewrite Hn. simpl.
      by destruct (is_passive (SurfaceStatus (_PointSet s)) p).
  - intros Hsum. unfold contribution, direction. rewrite Hsum.
    by rewrite MultiplyScalar_zero, Normalize_zero, scale3_zero.
  - intros Hn Hsum. unfold direction. apply Norm_Normalize.
    apply MultiplyScalar_nonzero; [|done].
    assert (0 < INR (length (neighbors s p))).
    { apply lt_0_INR. destruct (neighbors s p); [done|simpl; lia]. }
    apply Rgt_not_eq. apply Rdiv_lt_0_compat; lra.
Qed.

(** C2: for an active point with a neighbor the factor [m] is
    [smf(|K|, 0, 0.2) * (1 - smf(-H, 0, 0.5))] for [H < 0] and
    [smf(|K|, 0, 0.2) * smf(H, 0, 1)] for [H >= 0].  With exactly one
    neighbor, [K = -0.3], [H = -0.2] and the offset on the positive side
    of the normal, [m = smf(0.3, 0, 0.2) * (1 - smf(0.2, 0, 0.5))], which
    is [0.68], and the slot holds [- m * normalize(neighbor - point)]. *)
Theorem EvaluateGradient_force_magnitude (t : Partition) (s : State)
    (p : nat)
    (Hlen : (_NumberOfPoints s <= length (_Gradient s))%nat)
    (Hp : (p < _NumberOfPoints s)%nat)
    (Hact : active s p) (Hn : neighbors s p <> []) :
  (H s p < 0 ->
     GetPoint (own_gradient t s) p
     = scale3 (- (SShapedMembershipFunction (Rabs (K s p)) 0 0.2
                  * (1 - SShapedMembershipFunction (- H s p) 0 0.5)))
         (direction s p)) /\
  (H s p >= 0 ->
     GetPoint (own_gradient t s) p
     = scale3 (- (SShapedMembershipFunction (Rabs (K s p)) 0 0.2
                  * SShapedMembershipFunction (H s p) 0 1))
         (direction s p)) /\
  (forall q : nat,
     let d := vtkMath.Subtract
                (GetPoint (SurfacePoints (_PointSet s)) q)
                (GetPoint (SurfacePoints (_PointSet s)) p) in
     let m := SShapedMembershipFunction 0.3 0 0.2
              * (1 - SShapedMembershipFunction 0.2 0 0.5) in
     neighbors s p = [q] -> K s p = -0.3 -> H s p = -0.2 ->
     vtkMath.Dot d (GetPoint (SurfaceNormals (_PointSet s)) p) > 0 ->
     m = 0.68 /\
     GetPoint (own_gradient t s) p
     = scale3 (- m) (vtkMath.Normalize d)).
Proof.
  rewrite (own_gradient_active t s p Hlen Hp Hact Hn).
  unfold contribution, magnitude.
  split; [|split].
  - intros HH. by destruct (Rlt_dec (H s p) 0); [|lra].
  - intros HH. by destruct (Rlt_dec (H s p) 0); [lra|].
  - intros q Hq HK HH Hdot.
    set (d := vtkMath.Subtract _ _) in *.
    set (m := SShapedMembershipFunction 0.3 0 0.2 * _).
    assert (Hm : m = 0.68).
    { subst m. unfold SShapedMembershipFunction.
      repeat (destruct (Rle_dec _ _); try lra);
        repeat (destruct (Rge_dec _ _); try lra). }
    split; [exact Hm|].
    rewrite HK, HH.
    replace (Rabs (-0.3)) with 0.3
      by (unfold Rabs; destruct (Rcase_abs _); lra).
    replace (- -0.2) with 0.2 by lra.
    destruct (Rlt_dec (-0.2) 0); [|lra]. fold m. f_equal.
    unfold direction, summed_offsets, offsets. rewrite Hq, HK. simpl.
    destruct (Rlt_dec (-0.3) 0); [|lra]. simpl.
    unfold outward. fold d.
    destruct (Rgt_dec _ 0); [|done]. simpl.
    by rewrite Add_zero_r, MultiplyScalar_one.
Qed.

Lemma EvaluateGradient_contribution_witness :
  let s :=
    mkState
      (mkPointSet [mkVec3 0 0 0; mkVec3 1 0 0] None [[1%nat]; [0%nat]]
         [mkVec3 1 0 0; mkVec3 1 0 0] 0)
      2 [mkVec3 5 5 5; mkVec3 7 7 7]
      (mkArray [-0.3; 0] 0) (mkArray [-0.2; 0] 0) 0 in
  (_NumberOfPoints s <= length (_Gradient s))%nat /\
  (0 < _NumberOfPoints s)%nat /\
  GetPoint (own_gradient (Cut 1 Whole Whole) s) 0 = contribution s 0.
Proof.
  intros s. split; [simpl; lia|]. split; [simpl; lia|].
  apply (EvaluateGradient_contribution (Cut 1 Whole Whole) s 0);
    [simpl; lia|simpl; lia|exact I|discriminate].
Defined.

Lemma EvaluateGradient_force_magnitude_witness :
  let s :=
    mkState
      (mkPointSet [mkVec3 0 0 0; mkVec3 2 0 0] None [[1%nat]; [0%nat]]
         [mkVec3 1 0 0; mkVec3 1 0 0] 0)
      2 [mkVec3 5 5 5; mkVec3 7 7 7]
      (mkArray [-0.3; 0] 0) (mkArray [-0.2; 0] 0) 0 in
  GetPoint (own_gradient Whole s) 0
  = scale3 (- (SShapedMembershipFunction 0.3 0 0.2
               * (1 - SShapedMembershipFunction 0.2 0 0.5)))
      (vtkMath.Normalize (mkVec3 (2 - 0) (0 - 0) (0 - 0))).
Proof.
  intros s.
  assert (Hlen : (_NumberOfPoints s <= length (_Gradient s))%nat)
    by (simpl; lia).
  assert (Hp : (0 < _NumberOfPoints s)%nat) by (simpl; lia).
  assert (Hn : neighbors s 0 <> []) by discriminate.
  destruct (EvaluateGradient_force_magnitude Whole s 0 Hlen Hp I Hn)
    as (_ & _ & Hscenario).
  apply (Hscenario 1%nat); try reflexivity.
  unfold vtkMath.Dot; simpl. lra.
Defined.

End CurvatureGradient.

(* ===================================================================== *)
(** ** Flat buffers with three scalars per point *)
(* ===================================================================== *)

Section FlatBuffers.

Lemma nth_insert_eq (l : list R) (i : nat) (x : R) :
  (i < length l)%nat -> nth i (<[i := x]> l) 0 = x.
Proof.
  intros Hi. by rewrite nth_lookup, list_lookup_insert_eq.
Qed.

Lemma nth_insert_ne (l : list R) (i j : nat) (x : R) :
  i <> j -> nth i (<[j := x]> l) 0 = nth i l 0.
Proof.
  intros Hij. by rewrite !nth_lookup, list_lookup_insert_ne.
Qed.

Lemma store3_length (d : list R) (p : nat) (v : Vec3) :
  length (store3 d p v) = length d.
Proof. unfold store3. by rewrite !length_insert. Qed.

Lemma nth_store3_other (d : list R) (p i : nat) (v : Vec3) :
  ~ (3 * p <= i < 3 * p + 3)%nat ->
  nth i (store3 d p v) 0 = nth i d 0.
Proof.
  intros Hi. unfold store3. rewrite !nth_insert_ne by lia. done.
Qed.

Lemma load3_store3_same (d : list R) (p : nat) (v : Vec3) :
  (3 * p + 3 <= length d)%nat -> load3 (store3 d p v) p = v.
Proof.
  intros Hlen. unfold load3, store3. apply Vec3_eq; simpl.
  - rewrite !nth_insert_ne by lia. apply nth_insert_eq. lia.
  - rewrite nth_insert_ne by lia. apply nth_insert_eq.
    rewrite length_insert. lia.
  - apply nth_insert_eq. rewrite !length_insert. lia.
Qed.

Lemma load3_store3_other (d : list R) (p q : nat) (v : Vec3) :
  p <> q -> load3 (store3 d p v) q = load3 d q.
Proof.
  intros Hpq. unfold load3.
  rewrite !nth_store3_other by lia. done.
Qed.

Lemma slot3_writer_length (w : nat -> Vec3 -> option Vec3) (p : nat)
    (d : list R) :
  length (slot3_writer w p d) = length d.
Proof.
  unfold slot3_writer. destruct (w p _); [apply store3_length|done].
Qed.

Lemma for_range_slot3_writer_length (w : nat -> Vec3 -> option Vec3)
    (n b : nat) (d : list R) :
  length (for_range n b (slot3_writer w) d) = length d.
Proof.
  revert b d. induction n as [|n IH]; intros b d; simpl; [done|].
  by rewrite IH, slot3_writer_length.
Qed.

(** Scalars outside the points of the range are not touched. *)
Lemma for_range_slot3_writer_nth_outside
    (w : nat -> Vec3 -> option Vec3) (n b i : nat) (d : list R) :
  ~ (3 * b <= i < 3 * (b + n))%nat ->
  nth i (for_range n b (slot3_writer w) d) 0 = nth i d 0.
Proof.
  revert b d. induction n as [|n IH]; intros b d Hi; simpl; [done|].
  rewrite IH by lia. unfold slot3_writer.
  destruct (w b _); [|done]. apply nth_store3_other. lia.
Qed.

Lemma for_range_slot3_writer_outside
    (w : nat -> Vec3 -> option Vec3) (n b p : nat) (d : list R) :
  ~ (b <= p < b + n)%nat ->
  load3 (for_range n b (slot3_writer w) d) p = load3 d p.
Proof.
  intros Hp. unfold load3.
  rewrite !for_range_slot3_writer_nth_outside by lia. done.
Qed.

(** The vector of a point of the range is rewritten once, from the
    vector it held before the loop. *)
Lemma for_range_slot3_writer_inside
    (w : nat -> Vec3 -> option Vec3) (n b p : nat) (d : list R) :
  (b <= p < b + n)%nat -> (3 * (b + n) <= length d)%nat ->
  load3 (for_range n b (slot3_writer w) d) p
  = default (load3 d p) (w p (load3 d p)).
Proof.
  revert b d. induction n as [|n IH]; intros b d Hp Hlen; simpl; [lia|].
  destruct (decide (p = b)) as [->|Hne].
  - rewrite for_range_slot3_writer_outside by lia.
    unfold slot3_writer. destruct (w b (load3 d b)); [|done].
    simpl. apply load3_store3_same. lia.
  - rewrite IH; [|lia|rewrite slot3_writer_length; lia].
    assert (Hsame : load3 (slot3_writer w b d) p = load3 d p).
    { unfold slot3_writer. destruct (w b _); [|done].
      by apply load3_store3_other. }
    by rewrite Hsame.
Qed.

End FlatBuffers.

(* ===================================================================== *)
(** ** Accumulation of the gradient of the curvature term *)
(* ===================================================================== *)

Section Accumulation.
Import GaussCurvatureConstraint GaussCurvatureConstraintUtils.
Import CurvatureForce.

(** The term as it is when the base class is called. *)
Lemma EvaluateGradient_forwards
    (base : State -> list R -> R -> R -> list R)
    (t : Partition) (s : State) (gradient : list R) (step weight : R) :
  _NumberOfPoints s <> 0%nat ->
  let s' := mkState (_PointSet s) (_NumberOfPoints s) (own_gradient t s)
              (GAUSS s) (MEAN s) (GlobalTimeStamp s) in
  GaussCurvatureConstraint.EvaluateGradient base t s gradient step weight
  = (s', base s' gradient step (weight / INR (_NumberOfPoints s))).
Proof.
  intros HN s'. unfold GaussCurvatureConstraint.EvaluateGradient.
  destruct (_NumberOfPoints s =? 0)%nat eqn:E; [|done].
  by apply Nat.eqb_eq in E.
Qed.

Lemma additive_accumulation_writer (s : State) (gradient : list R)
    (step weight : R) :
  additive_accumulation s gradient step weight
  = for_range (_NumberOfPoints s) 0
      (slot3_writer
         (fun p v =>
            Some (vtkMath.Add v
                    (scale3 (weight * step) (GetPoint (_Gradient s) p)))))
      gradient.
Proof. reflexivity. Qed.

(** With the additive base step, every point of the term receives the
    forwarded scale times the step times what the pass wrote for it. *)
Lemma EvaluateGradient_additive_point (t : Partition) (s : State)
    (gradient : list R) (step weight : R) (p : nat) :
  let N := _NumberOfPoints s in
  (N <= length (_Gradient s))%nat -> (3 * N <= length gradient)%nat ->
  (p < N)%nat ->
  load3
    (snd (GaussCurvatureConstraint.EvaluateGradient additive_accumulation
            t s gradient step weight)) p
  = vtkMath.Add (load3 gradient p)
      (scale3 (weight / INR N * step) (default zero3 (written s p))).
Proof.
  intros N Hg Hlen Hp.
  rewrite EvaluateGradient_forwards by (fold N; lia). simpl.
  rewrite additive_accumulation_writer. simpl. fold N.
  rewrite for_range_slot3_writer_inside by lia. simpl.
  by rewrite GetPoint_own_gradient.
Qed.

(** C9, amended: [EvaluateGradient] calls the base class with its
    buffer and the scale [weight / _NumberOfPoints], the count of all
    points of the term whatever their status (the divisor of
    [Evaluate]).  With the additive base step, the caller's buffer
    receives [weight / _NumberOfPoints * step * contribution] at every
    point; the scalars of a passive point, of a point without
    neighbor and of every point past the term's are left as they
    were, and nothing happens for a term without points. *)
Theorem EvaluateGradient_accumulates
    (base : State -> list R -> R -> R -> list R)
    (t : Partition) (s : State) (gradient : list R) (step weight : R) :
  let N := _NumberOfPoints s in
  let scale := weight / INR N in
  let out :=
    snd (GaussCurvatureConstraint.EvaluateGradient additive_accumulation
           t s gradient step weight) in
  (N <> 0%nat ->
     snd (GaussCurvatureConstraint.EvaluateGradient base t s gradient
            step weight)
     = base (fst (GaussCurvatureConstraint.EvaluateGradient base t s
                    gradient step weight))
         gradient step scale) /\
  (N = 0%nat ->
     snd (GaussCurvatureConstraint.EvaluateGradient base t s gradient
            step weight) = gradient) /\
  ((N <= length (_Gradient s))%nat -> (3 * N <= length gradient)%nat ->
     length out = length gradient /\
     (forall p, (p < N)%nat -> active s p -> neighbors s p <> [] ->
        load3 out p
        = vtkMath.Add (load3 gradient p)
            (scale3 (scale * step) (contribution s p))) /\
     (forall p, (p < N)%nat -> ~ active s p \/ neighbors s p = [] ->
        load3 out p = load3 gradient p) /\
     (forall i, (3 * N <= i)%nat -> nth i out 0 = nth i gradient 0)).
Proof.
  intros N scale out. split; [|split].
  - intros HN. by rewrite EvaluateGradient_forwards.
  - intros HN. unfold GaussCurvatureConstraint.EvaluateGradient.
    fold N. by rewrite HN.
  - intros Hg Hlen. subst out.
    destruct (Nat.eq_dec N 0%nat) as [HN|HN].
    { unfold GaussCurvatureConstraint.EvaluateGradient. fold N.
      rewrite HN. simpl. repeat split; try done; intros; lia. }
    assert (Hpoint : forall p, (p < N)%nat ->
      load3
        (snd (GaussCurvatureConstraint.EvaluateGradient
                additive_accumulation t s gradient step weight)) p
      = vtkMath.Add (load3 gradient p)
          (scale3 (scale * step) (default zero3 (written s p)))).
    { intros p Hp. by apply EvaluateGradient_additive_point. }
    rewrite EvaluateGradient_forwards in * by done. simpl in *.
    rewrite additive_accumulation_writer in *. simpl in *.
    fold N scale in Hpoint |- *.
    split; [apply for_range_slot3_writer_length|]. split; [|split].
    + intros p Hp Hact Hn. rewrite Hpoint by done. unfold written.
      apply is_passive_active in Hact. rewrite Hact.
      by destruct (neighbors s p).
    + intros p Hp Hskip. rewrite Hpoint by done.
      replace (written s p) with (@None Vec3).
      { simpl. by rewrite scale3_zero, Add_zero_r. }
      unfold written. destruct Hskip as [Hpas|Hn].
      * destruct (is_passive (SurfaceStatus (_PointSet s)) p) eqn:E;
          [done|]. exfalso. by apply Hpas, is_passive_active.
      * rewrite Hn. simpl.
        by destruct (is_passive (SurfaceStatus (_PointSet s)) p).
    + intros i Hi. apply for_range_slot3_writer_nth_outside. lia.
Qed.

Lemma activePointCount_half_active :
  activePointCount half_active (_NumberOfPoints half_active) = 1%nat.
Proof.
  unfold activePointCount, half_active, is_passive, GetComponent. simpl.
  destruct (Req_dec_T 1 0) as [H10|_]; [lra|].
  destruct (Req_dec_T 0 0) as [_|H00]; [|lra]. reflexivity.
Qed.

Lemma contribution_half_active :
  contribution half_active 0 = mkVec3 (-1) 0 0.
Proof.
  unfold contribution, magnitude, direction, summed_offsets, offsets,
    neighbors, K, H, half_active, GetComponent, GetPoint,
    GetAdjacentPoints. simpl.
  destruct (Rlt_dec 1 0) as [Hlt|_]; [lra|]. simpl.
  rewrite Rabs_R1.
  assert (Hsat1 : SShapedMembershipFunction 1 0 0.2 = 1)
    by (unfold SShapedMembershipFunction;
        destruct (Rle_dec 1 0); [lra|];
        destruct (Rge_dec 1 0.2); [done|lra]).
  assert (Hsat2 : SShapedMembershipFunction 1 0 1 = 1)
    by (unfold SShapedMembershipFunction;
        destruct (Rle_dec 1 0); [lra|];
        destruct (Rge_dec 1 1); [done|lra]).
  rewrite Hsat1, Hsat2.
  unfold vtkMath.Normalize, vtkMath.Norm, vtkMath.MultiplyScalar,
    vtkMath.Add, vtkMath.Subtract, scale3; simpl.
  replace ((1 - 0 + 0) * (1 / 1) * ((1 - 0 + 0) * (1 / 1))
           + (0 - 0 + 0) * (1 / 1) * ((0 - 0 + 0) * (1 / 1))
           + (0 - 0 + 0) * (1 / 1) * ((0 - 0 + 0) * (1 / 1)))
    with 1 by lra.
  rewrite sqrt_1.
  destruct (Req_dec_T 1 0) as [H10|_]; [lra|]. simpl.
  f_equal; lra.
Qed.

(** C9 as stated fails: with one of two points passive and weight [1],
    the base class receives the scale [1 / 2] and not
    [1 / activePointCount = 1], and the additive base step leaves
    [- 1 / 2] and not [- 1] in the first scalar of the active point. *)
Lemma EvaluateGradient_scale_not_active_count :
  let probe := fun (_ : State) (_ : list R) (_ : R) (w : R) => [w] in
  let out :=
    snd (GaussCurvatureConstraint.EvaluateGradient additive_accumulation
           Whole half_active [0; 0; 0; 0; 0; 0] 1 1) in
  let claimed :=
    1 / INR (activePointCount half_active (_NumberOfPoints half_active)) in
  snd (GaussCurvatureConstraint.EvaluateGradient probe Whole half_active
         [] 1 1) = [1 / 2] /\
  [1 / 2] <> [claimed] /\
  load3 out 0 = mkVec3 (- 1 / 2) 0 0 /\
  load3 out 0
  <> vtkMath.Add (load3 [0; 0; 0; 0; 0; 0] 0)
       (scale3 (claimed * 1) (contribution half_active 0)).
Proof.
  intros probe out claimed. subst claimed.
  rewrite activePointCount_half_active.
  assert (Hout : load3 out 0 = mkVec3 (- 1 / 2) 0 0).
  { subst out.
    rewrite EvaluateGradient_additive_point by (simpl; lia).
    replace (written half_active 0) with (Some (contribution half_active 0)).
    - simpl. rewrite contribution_half_active.
      unfold vtkMath.Add, scale3, load3; simpl. f_equal; lra.
    - unfold written, half_active, is_passive, GetComponent, neighbors,
        GetAdjacentPoints. simpl.
      by destruct (Req_dec_T 1 0) as [H10|_]; [lra|]. }
  split; [|split; [|split]].
  - unfold GaussCurvatureConstraint.EvaluateGradient, probe. simpl.
    f_equal; lra.
  - simpl. intros Heq. injection Heq as Heq. lra.
  - exact Hout.
  - rewrite Hout, contribution_half_active.
    unfold vtkMath.Add, scale3, load3; simpl.
    intros Heq. injection Heq as Heq. lra.
Qed.

Lemma EvaluateGradient_accumulates_witness :
  let out :=
    snd (GaussCurvatureConstraint.EvaluateGradient additive_accumulation
           Whole half_active [9; 9; 9; 4; 4; 4; 8] 1 1) in
  load3 out 1 = mkVec3 4 4 4 /\ nth 6 out 0 = 8.
Proof.
  intros out.
  destruct (EvaluateGradient_accumulates additive_accumulation Whole
              half_active [9; 9; 9; 4; 4; 4; 8] 1 1)
    as (_ & _ & Hadd).
  destruct Hadd as (_ & _ & Hskip & Hpast); [simpl; lia|simpl; lia|].
  split.
  - apply (Hskip 1%nat); [simpl; lia|]. left.
    unfold active, half_active, GetComponent. simpl. lra.
  - apply (Hpast 6%nat). simpl. lia.
Defined.

End Accumulation.

(* ===================================================================== *)
(** ** Lazy recomputation of the curvature fields *)
(* ===================================================================== *)

Section LazyUpdate.
Import GaussCurvatureConstraint GaussCurvatureConstraintUtils.
Import CurvatureForce.

Variables Gauss Mean : Z.
Variable SurfaceConstraint_Update : bool -> State -> State.
Variable SurfaceCurvature_Run : Z -> RegisteredPointSet -> CurvatureOutput.
Variable SmoothArray : RegisteredPointSet -> nat -> list R -> list R.
Variable filter_ticks : nat.

(** The two bits are distinct bits. *)
Hypothesis Gauss_bit : Gauss <> 0%Z.
Hypothesis Mean_bit : Mean <> 0%Z.
Hypothesis distinct_bits : Z.land Gauss Mean = 0%Z.

(** The update of the base class does not touch the geometry, the point
    count and the two arrays, and does not turn the clock back. *)
Hypothesis base_frame : forall gradient s,
  let s' := SurfaceConstraint_Update gradient s in
  _PointSet s' = _PointSet s /\
  _NumberOfPoints s' = _NumberOfPoints s /\
  GAUSS s' = GAUSS s /\ MEAN s' = MEAN s /\
  (GlobalTimeStamp s <= GlobalTimeStamp s')%nat.

Local Abbreviation Update :=
  (GaussCurvatureConstraint.Update Gauss Mean SurfaceConstraint_Update
     SurfaceCurvature_Run SmoothArray filter_ticks).

Lemma land_both_Gauss : Z.land (Z.lor (Z.lor 0 Gauss) Mean) Gauss = Gauss.
Proof.
  rewrite Z.lor_0_l, Z.land_lor_distr_l, Z.land_diag.
  rewrite (Z.land_comm Mean Gauss), distinct_bits. apply Z.lor_0_r.
Qed.

Lemma land_both_Mean : Z.land (Z.lor (Z.lor 0 Gauss) Mean) Mean = Mean.
Proof.
  rewrite Z.lor_0_l, Z.land_lor_distr_l, Z.land_diag, distinct_bits.
  apply Z.lor_0_l.
Qed.

Lemma lor_both_nonzero : Z.lor (Z.lor 0 Gauss) Mean <> 0%Z.
Proof.
  rewrite Z.lor_0_l. intros Hz. apply Z.lor_eq_0_iff in Hz as [Hz _].
  by apply Gauss_bit.
Qed.

(** What [Update] does to a state on which the base class has run. *)
Lemma Update_cases (gradient : bool) (s0 : State) :
  let s := SurfaceConstraint_Update gradient s0 in
  let surface := _PointSet s in
  let out := SurfaceCurvature_Run (stale_types Gauss Mean s) surface in
  let clock := (GlobalTimeStamp s + filter_ticks)%nat in
  let sg := (MTime (GAUSS s) <? SurfaceMTime surface)%nat in
  let sm := (MTime (MEAN s) <? SurfaceMTime surface)%nat in
  Update gradient s0
  = if (_NumberOfPoints s =? 0)%nat then s
    else if sg || sm then
      mkState surface (_NumberOfPoints s) (_Gradient s)
        (if sg then mkArray (SmoothArray surface 2 (out_GAUSS out))
                      (S clock)
         else GAUSS s)
        (if sm then mkArray (SmoothArray surface 2 (out_MEAN out))
                      (if sg then S (S clock) else S clock)
         else MEAN s)
        (if sg && sm then S (S clock) else S clock)
    else s.
Proof.
  cbv zeta. unfold GaussCurvatureConstraint.Update, stale_types.
  set (s := SurfaceConstraint_Update gradient s0).
  destruct (_NumberOfPoints s =? 0)%nat; [done|].
  destruct (MTime (GAUSS s) <? SurfaceMTime (_PointSet s))%nat,
    (MTime (MEAN s) <? SurfaceMTime (_PointSet s))%nat; simpl.
  - destruct (Z.eqb_spec (Z.lor (Z.lor 0 Gauss) Mean) 0) as [Hz|_];
      [by apply lor_both_nonzero in Hz|]. simpl.
    rewrite land_both_Gauss, land_both_Mean.
    destruct (Z.eqb_spec Gauss 0) as [Hz|_]; [done|].
    destruct (Z.eqb_spec Mean 0) as [Hz|_]; [done|]. simpl.
    unfold MeshSmoothing_Run; simpl. by rewrite Z.lor_0_l.
  - rewrite Z.lor_0_l, Z.lor_0_r, Z.land_diag, distinct_bits.
    destruct (Z.eqb_spec Gauss 0) as [Hz|_]; [done|]. simpl.
    unfold MeshSmoothing_Run; simpl. done.
  - rewrite Z.lor_0_l, Z.land_diag, (Z.land_comm Mean Gauss),
      distinct_bits.
    destruct (Z.eqb_spec Mean 0) as [Hz|_]; [done|]. simpl.
    unfold MeshSmoothing_Run; simpl. done.
  - done.
Qed.

Lemma Update_frame (gradient : bool) (s : State) :
  _PointSet (Update gradient s) = _PointSet s /\
  _NumberOfPoints (Update gradient s) = _NumberOfPoints s /\
  (GlobalTimeStamp s <= GlobalTimeStamp (Update gradient s))%nat.
Proof.
  rewrite Update_cases.
  destruct (base_frame gradient s) as (HP & HN & _ & _ & Hc).
  set (s1 := SurfaceConstraint_Update gradient s) in *.
  destruct (_NumberOfPoints s1 =? 0)%nat; [done|].
  destruct (MTime (GAUSS s1) <? SurfaceMTime (_PointSet s1))%nat,
    (MTime (MEAN s1) <? SurfaceMTime (_PointSet s1))%nat; simpl;
    repeat split; try done; lia.
Qed.

(** The two fields after [Update], from the state before it. *)
Lemma Update_fields (gradient : bool) (s : State) :
  let surface := _PointSet s in
  let out := SurfaceCurvature_Run (stale_types Gauss Mean s) surface in
  let sg := (MTime (GAUSS s) <? SurfaceMTime surface)%nat in
  let sm := (MTime (MEAN s) <? SurfaceMTime surface)%nat in
  exists clock : nat,
    (GlobalTimeStamp s <= clock)%nat /\
    GAUSS (Update gradient s)
    = (if negb (_NumberOfPoints s =? 0)%nat && sg
       then mkArray (SmoothArray surface 2 (out_GAUSS out)) (S clock)
       else GAUSS s) /\
    MEAN (Update gradient s)
    = (if negb (_NumberOfPoints s =? 0)%nat && sm
       then mkArray (SmoothArray surface 2 (out_MEAN out))
              (if sg then S (S clock) else S clock)
       else MEAN s) /\
    (S (S clock) >= GlobalTimeStamp (Update gradient s))%nat.
Proof.
  intros surface out sg sm. subst surface out sg sm.
  rewrite Update_cases. unfold stale_types.
  destruct (base_frame gradient s) as (HP & HN & HG & HM & Hc).
  set (s1 := SurfaceConstraint_Update gradient s) in *.
  rewrite HP, HN, HG, HM.
  exists (GlobalTimeStamp s1 + filter_ticks)%nat.
  split; [lia|].
  destruct (_NumberOfPoints s =? 0)%nat; simpl.
  { rewrite HG, HM. repeat split; try done; lia. }
  destruct (MTime (GAUSS s) <? SurfaceMTime (_PointSet s))%nat,
    (MTime (MEAN s) <? SurfaceMTime (_PointSet s))%nat; simpl;
    rewrite ?HG, ?HM; repeat split; try done; lia.
Qed.

(** C6: [Update] leaves the geometry alone.  A field that is not
    stale keeps its values and its time stamp whatever happens to the
    other one, and so do both fields of a term without points.  A
    stale field of a term with points receives the array computed by
    the curvature filter for the stale types and smoothed with
    iteration count [2], and a time stamp drawn after the call began.
    Hence, on a state whose geometry time stamp is not ahead of the
    clock, no field of a term with points is stale after [Update], and
    a second [Update] changes neither field. *)
Theorem Update_recomputes_stale_fields_only
    (gradient again : bool) (s : State) :
  let s' := Update gradient s in
  let surface := _PointSet s in
  let out := SurfaceCurvature_Run (stale_types Gauss Mean s) surface in
  _PointSet s' = surface /\
  (~ stale (GAUSS s) s -> GAUSS s' = GAUSS s) /\
  (~ stale (MEAN s) s -> MEAN s' = MEAN s) /\
  (_NumberOfPoints s = 0%nat -> GAUSS s' = GAUSS s /\ MEAN s' = MEAN s) /\
  (stale (GAUSS s) s -> _NumberOfPoints s <> 0%nat ->
     Values (GAUSS s') = SmoothArray surface 2 (out_GAUSS out) /\
     (GlobalTimeStamp s < MTime (GAUSS s'))%nat) /\
  (stale (MEAN s) s -> _NumberOfPoints s <> 0%nat ->
     Values (MEAN s') = SmoothArray surface 2 (out_MEAN out) /\
     (GlobalTimeStamp s < MTime (MEAN s'))%nat) /\
  ((SurfaceMTime surface <= GlobalTimeStamp s)%nat ->
     (_NumberOfPoints s <> 0%nat ->
        ~ stale (GAUSS s') s' /\ ~ stale (MEAN s') s') /\
     GAUSS (Update again s') = GAUSS s' /\
     MEAN (Update again s') = MEAN s').
Proof.
  intros s' surface out.
  destruct (Update_frame gradient s) as (HP & HN & Hc).
  destruct (Update_fields gradient s) as (clock & Hclock & HG & HM & _).
  fold s' surface out in HP, HN, Hc, HG, HM.
  assert (Hsg : forall a, stale a s <->
            (MTime a <? SurfaceMTime surface)%nat = true).
  { intros a. unfold stale. symmetry. apply Nat.ltb_lt. }
  assert (Hfresh_after :
    (SurfaceMTime surface <= GlobalTimeStamp s)%nat ->
    _NumberOfPoints s <> 0%nat ->
    ~ stale (GAUSS s') s' /\ ~ stale (MEAN s') s').
  { intros Hwf HN0. apply Nat.eqb_neq in HN0.
    unfold stale. rewrite HP, HG, HM, HN0. simpl.
    destruct (MTime (GAUSS s) <? SurfaceMTime surface)%nat eqn:E1,
      (MTime (MEAN s) <? SurfaceMTime surface)%nat eqn:E2; simpl;
      try apply Nat.ltb_ge in E1; try apply Nat.ltb_ge in E2;
      split; lia. }
  split; [exact HP|].
  split.
  { intros Hfresh. rewrite HG.
    destruct (MTime (GAUSS s) <? SurfaceMTime surface)%nat eqn:E;
      [by apply Hsg in E|]. by rewrite andb_false_r. }
  split.
  { intros Hfresh. rewrite HM.
    destruct (MTime (MEAN s) <? SurfaceMTime surface)%nat eqn:E;
      [by apply Hsg in E|]. by rewrite andb_false_r. }
  split.
  { intros H0. rewrite HG, HM, H0. done. }
  split.
  { intros Hstale HN0. apply Hsg in Hstale. apply Nat.eqb_neq in HN0.
    rewrite HG, HN0, Hstale. simpl. split; [done|lia]. }
  split.
  { intros Hstale HN0. apply Hsg in Hstale. apply Nat.eqb_neq in HN0.
    rewrite HM, HN0, Hstale. simpl. split; [done|].
    destruct (MTime (GAUSS s) <? SurfaceMTime surface)%nat; simpl; lia. }
  intros Hwf. split; [by apply Hfresh_after|].
  destruct (Update_fields again s') as (clock2 & _ & HG2 & HM2 & _).
  rewrite HG2, HM2, HN.
  destruct (Nat.eq_dec (_NumberOfPoints s) 0%nat) as [H0|HN0].
  { by rewrite H0. }
  destruct (Hfresh_after Hwf HN0) as [HfG HfM].
  unfold stale in HfG, HfM.
  apply Nat.nlt_ge, Nat.ltb_ge in HfG, HfM.
  rewrite HfG, HfM. by rewrite !andb_false_r.
Qed.

End LazyUpdate.

Section LazyUpdateExample.
Import GaussCurvatureConstraint CurvatureForce.

Lemma Update_recomputes_stale_fields_only_witness :
  let s := mkState (mkPointSet [zero3] None [[]] [zero3] 2) 1 [zero3]
             (mkArray [5] 0) (mkArray [7] 3) 3 in
  let U := GaussCurvatureConstraint.Update 8 4 (fun _ s => s)
             (fun _ _ => mkOutput [1] [2])
             (fun _ n a => map (fun x => x + INR n) a) 0 in
  (8 <> 0)%Z /\ (4 <> 0)%Z /\ Z.land 8 4 = 0%Z /\
  (SurfaceMTime (_PointSet s) <= GlobalTimeStamp s)%nat /\
  GAUSS (U false (U true s)) = GAUSS (U true s) /\
  MEAN (U false (U true s)) = MEAN (U true s).
Proof.
  intros s U.
  split; [lia|]. split; [lia|]. split; [reflexivity|].
  split; [simpl; lia|].
  apply (Update_recomputes_stale_fields_only 8 4 (fun _ s => s)
           (fun _ _ => mkOutput [1] [2])
           (fun _ n a => map (fun x => x + INR n) a) 0);
    [lia|lia|reflexivity| |simpl; lia].
  intros gradient s0. simpl. repeat split; lia.
Defined.

End LazyUpdateExample.

(* ===================================================================== *)
(** ** The clamp of one displacement vector *)
(* ===================================================================== *)

Section ClampVector.
Import EulerMethodUtils.

Lemma square_norm_nonneg (d : Vec3) :
  0 <= vx d * vx d + vy d * vy d + vz d * vz d.
Proof. nra. Qed.

Lemma clamp_vector_within (max_dx : R) (d : Vec3) :
  vtkMath.Norm d <= max_dx -> clamp_vector max_dx d = d.
Proof.
  unfold vtkMath.Norm, clamp_vector. intros Hle.
  set (q := vx d * vx d + vy d * vy d + vz d * vz d) in *.
  destruct (Rgt_dec q (max_dx * max_dx)) as [Hgt|_]; [|done].
  exfalso.
  assert (Hq : 0 <= q) by apply square_norm_nonneg.
  pose proof (sqrt_pos q) as Hs.
  pose proof (sqrt_sqrt q Hq) as Hss.
  nra.
Qed.

Lemma clamp_factor_pos (max_dx q : R) :
  q > max_dx * max_dx ->
  0 <= sqrt (max_dx * max_dx / q) <= 1 /\
  (max_dx <> 0 -> 0 < sqrt (max_dx * max_dx / q)) /\
  sqrt (max_dx * max_dx / q) * sqrt (max_dx * max_dx / q) * q
  = max_dx * max_dx.
Proof.
  intros Hgt.
  assert (Hq : 0 < q) by nra.
  assert (Hr : 0 <= max_dx * max_dx / q).
  { apply Rmult_le_pos; [nra|]. left. by apply Rinv_0_lt_compat. }
  assert (Hr1 : max_dx * max_dx / q <= 1).
  { apply (Rmult_le_reg_r q); [done|].
    replace (max_dx * max_dx / q * q) with (max_dx * max_dx)
      by (field; lra). lra. }
  split; [split|split].
  - apply sqrt_pos.
  - rewrite <- sqrt_1. by apply sqrt_le_1_alt.
  - intros Hne. apply sqrt_lt_R0.
    apply Rdiv_lt_0_compat; [nra|done].
  - rewrite sqrt_sqrt by done. field. lra.
Qed.

Lemma clamp_vector_exceeding (max_dx : R) (d : Vec3) :
  let q := vx d * vx d + vy d * vy d + vz d * vz d in
  q > max_dx * max_dx ->
  clamp_vector max_dx d = scale3 (sqrt (max_dx * max_dx / q)) d.
Proof.
  intros q Hgt. unfold clamp_vector. fold q.
  by destruct (Rgt_dec q (max_dx * max_dx)).
Qed.

Lemma clamp_vector_idempotent (max_dx : R) (d : Vec3) :
  clamp_vector max_dx (clamp_vector max_dx d) = clamp_vector max_dx d.
Proof.
  unfold clamp_vector at 2 3.
  set (q := vx d * vx d + vy d * vy d + vz d * vz d).
  destruct (Rgt_dec q (max_dx * max_dx)) as [Hgt|Hle].
  - destruct (clamp_factor_pos max_dx q Hgt) as (_ & _ & Hsq).
    set (k := sqrt (max_dx * max_dx / q)) in *.
    unfold clamp_vector, scale3; simpl.
    destruct (Rgt_dec _ (max_dx * max_dx)) as [Hgt'|_]; [|done].
    exfalso. subst q. nra.
  - unfold clamp_vector. fold q.
    by destruct (Rgt_dec q (max_dx * max_dx)).
Qed.

(** The loop body of the clamp, as a writer of the slot of its point. *)
Lemma ClampDisplacements_point_writer (max_dx : R) (p : nat) (d : list R) :
  ClampDisplacements_point (ClampDisplacements_new max_dx) p d
  = slot3_writer
      (fun _ v =>
         if Rgt_dec (vx v * vx v + vy v * vy v + vz v * vz v)
              (max_dx * max_dx)
         then Some (clamp_vector max_dx v) else None) p d.
Proof.
  unfold ClampDisplacements_point, slot3_writer, ClampDisplacements_new,
    clamp_vector. simpl.
  destruct (Rgt_dec _ (max_dx * max_dx)); [|done].
  f_equal. unfold scale3. apply Vec3_eq; simpl; lra.
Qed.

(** One pass of [ClampDisplacements] clamps the vector of every point of
    the range and nothing else. *)
Lemma ClampDisplacements_pass (t : Partition) (max_dx : R) (N : nat)
    (d : list R) :
  let out := parallel_for t (mkRange 0 N)
               (ClampDisplacements_call (ClampDisplacements_new max_dx)) d in
  (3 * N <= length d)%nat ->
  length out = length d /\
  (forall p, (p < N)%nat -> load3 out p = clamp_vector max_dx (load3 d p)) /\
  (forall i, (3 * N <= i)%nat -> nth i out 0 = nth i d 0).
Proof.
  intros out Hlen. subst out.
  change (ClampDisplacements_call (ClampDisplacements_new max_dx))
    with (over_block
            (ClampDisplacements_point (ClampDisplacements_new max_dx))).
  rewrite parallel_for_whole. unfold over_block; simpl.
  rewrite Nat.sub_0_r.
  erewrite for_range_ext
    by (intros; apply ClampDisplacements_point_writer).
  split; [apply for_range_slot3_writer_length|]. split.
  - intros p Hp. rewrite for_range_slot3_writer_inside by lia.
    destruct (Rgt_dec _ (max_dx * max_dx)) as [Hgt|Hle]; simpl; [done|].
    unfold clamp_vector. by destruct (Rgt_dec _ (max_dx * max_dx)).
  - intros i Hi. apply for_range_slot3_writer_nth_outside. lia.
Qed.

End ClampVector.

(* ===================================================================== *)
(** ** The displacement update of the optimizer *)
(* ===================================================================== *)

Section DisplacementUpdate.
Import EulerMethodUtils EulerMethod DisplacementPolicy.
Context {M : Type} `{DeformableSurfaceModel M}.

Lemma TruncateDisplacement_cases (t : Partition) (force : bool)
    (o : EulerMethod M) :
  TruncateDisplacement t force o
  = if force || negb (_NormalizeStepLength o)
       || (if Rlt_dec (effective_maximum o) (_StepLength o)
           then true else false)
    then
      set_Displacement
        (Some (parallel_for t (mkRange 0 (NumberOfPoints (_Model o)))
                 (ClampDisplacements_call
                    (ClampDisplacements_new (effective_maximum o)))
                 (deref (_Displacement o)))) o
    else o.
Proof.
  unfold TruncateDisplacement.
  replace (if Rle_dec (_MaximumDisplacement o) 0
           then if _NormalizeStepLength o then _StepLength o else 1.0
           else _MaximumDisplacement o)
    with (effective_maximum o); [done|].
  unfold effective_maximum.
  destruct (Rle_dec (_MaximumDisplacement o) 0),
    (Rlt_dec 0 (_MaximumDisplacement o)); try lra.
  destruct (_NormalizeStepLength o); [done|lra].
Qed.

Lemma clamp_applies_test (force : bool) (o : EulerMethod M) :
  clamp_applies force o
  <-> force || negb (_NormalizeStepLength o)
      || (if Rlt_dec (effective_maximum o) (_StepLength o)
          then true else false) = true.
Proof.
  unfold clamp_applies.
  destruct force, (_NormalizeStepLength o),
    (Rlt_dec (effective_maximum o) (_StepLength o)); simpl;
    intuition (try congruence; try lra).
Qed.

(** C4: the clamp leaves a vector within the bound as it is, scales a
    vector whose squared norm exceeds the squared maximum by
    [sqrt(max^2 / norm^2)], a factor in [[0, 1]] that is positive unless
    the maximum is zero, and is idempotent.  [TruncateDisplacement] runs
    it on the vector of every point, with the effective maximum, exactly
    when it is forced, normalization is off, or the effective maximum is
    less than the step length; otherwise it changes nothing. *)
Theorem TruncateDisplacement_clamp (t : Partition) (force : bool)
    (o : EulerMethod M) :
  let max_dx := effective_maximum o in
  let N := NumberOfPoints (_Model o) in
  let d := deref (_Displacement o) in
  (forall v, vtkMath.Norm v <= max_dx -> clamp_vector max_dx v = v) /\
  (forall v,
     let norm2 := vx v * vx v + vy v * vy v + vz v * vz v in
     norm2 > max_dx * max_dx ->
     clamp_vector max_dx v = scale3 (sqrt (max_dx * max_dx / norm2)) v /\
     0 <= sqrt (max_dx * max_dx / norm2) <= 1 /\
     (max_dx <> 0 -> 0 < sqrt (max_dx * max_dx / norm2))) /\
  (forall v,
     clamp_vector max_dx (clamp_vector max_dx v) = clamp_vector max_dx v) /\
  (clamp_applies force o -> (3 * N <= length d)%nat ->
     forall p, (p < N)%nat ->
       load3 (deref (_Displacement (TruncateDisplacement t force o))) p
       = clamp_vector max_dx (load3 d p)) /\
  (~ clamp_applies force o -> TruncateDisplacement t force o = o).
Proof.
  intros max_dx N d.
  split; [intros v; apply clamp_vector_within|].
  split.
  { intros v norm2 Hgt.
    destruct (clamp_factor_pos max_dx norm2 Hgt) as (H01 & Hpos & _).
    split; [by apply clamp_vector_exceeding|done]. }
  split; [intros v; apply clamp_vector_idempotent|].
  rewrite TruncateDisplacement_cases. split.
  - intros Happ Hlen p Hp. apply clamp_applies_test in Happ.
    rewrite Happ. simpl.
    by apply (ClampDisplacements_pass t max_dx N d Hlen).
  - intros Hnot.
    destruct (force || negb (_NormalizeStepLength o)
              || (if Rlt_dec (effective_maximum o) (_StepLength o)
                  then true else false)) eqn:E; [|done].
    exfalso. by apply Hnot, clamp_applies_test.
Qed.

(** The loop body of [ComputeDisplacements], as a writer of the slot of
    its point. *)
Lemma ComputeDisplacements_pass (t : Partition) (gradient : list R)
    (dt norm : R) (N : nat) (d : list R) :
  let out := parallel_for t (mkRange 0 N)
               (ComputeDisplacements_call
                  (ComputeDisplacements_new gradient dt norm)) d in
  (3 * N <= length d)%nat ->
  length out = length d /\
  (forall p, (p < N)%nat ->
     load3 out p = scale3 (- dt / norm) (load3 gradient p)) /\
  (forall i, (3 * N <= i)%nat -> nth i out 0 = nth i d 0).
Proof.
  intros out Hlen. subst out. unfold ComputeDisplacements_call.
  rewrite parallel_for_whole. unfold over_block; simpl.
  rewrite Nat.sub_0_r.
  change (for_range N 0 _ d)
    with (for_range N 0
            (slot3_writer
               (fun p _ => Some (scale3 (- dt / norm) (load3 gradient p))))
            d).
  split; [apply for_range_slot3_writer_length|]. split.
  - intros p Hp. by rewrite for_range_slot3_writer_inside by lia.
  - intros i Hi. apply for_range_slot3_writer_nth_outside. lia.
Qed.

Lemma EuclideanNorm_zero (n : nat) (gradient : list R) :
  (forall i, (i < n)%nat -> nth i gradient 0 = 0) ->
  EuclideanNorm n gradient = 0.
Proof.
  intros Hz. unfold EuclideanNorm.
  rewrite sum_from_zero; [apply sqrt_0|].
  intros i Hi. rewrite Hz by lia. lra.
Qed.

(** C3: [GradientNorm] is the norm reported by the model when
    normalizing, replaced by [1] when that norm is not positive, so that
    it is always positive then (for a model that reports the Euclidean
    norm it is [1] on a zero gradient); it is [1 / pointCount] when not
    normalizing.  [ComputeDisplacements] leaves
    [(- stepLength / norm) * gradient[point]] at every point, and with the
    normalization on and no configured maximum this is the displacement
    [UpdateDisplacement] ends with. *)
Theorem UpdateDisplacement_formula (t : Partition) (o : EulerMethod M) :
  let N := NumberOfPoints (_Model o) in
  let g := deref (_Gradient o) in
  let d := deref (_Displacement o) in
  let norm := EulerMethod_GradientNorm o in
  (_NormalizeStepLength o = true ->
     (GradientNorm (_Model o) g > 0 -> norm = GradientNorm (_Model o) g) /\
     (GradientNorm (_Model o) g <= 0 -> norm = 1) /\
     0 < norm /\
     ((forall x, GradientNorm (_Model o) x
                 = EuclideanNorm (NumberOfDOFs (_Model o)) x) ->
      (forall i, (i < NumberOfDOFs (_Model o))%nat -> nth i g 0 = 0) ->
      norm = 1)) /\
  (_NormalizeStepLength o = false -> norm = 1 / INR N) /\
  ((3 * N <= length d)%nat ->
     forall p, (p < N)%nat ->
       load3 (computed_displacement t o) p
       = scale3 (- _StepLength o / norm) (load3 g p)) /\
  (_NormalizeStepLength o = true -> _MaximumDisplacement o <= 0 ->
     _Displacement (UpdateDisplacement t o)
     = Some (computed_displacement t o)).
Proof.
  intros N g d norm. subst norm. unfold EulerMethod_GradientNorm.
  fold g N. split; [|split; [|split]].
  - intros ->.
    destruct (Rgt_dec (GradientNorm (_Model o) g) 0) as [Hpos|Hnpos].
    + repeat split; try done; try lra.
      intros HE Hz. rewrite HE, EuclideanNorm_zero in Hpos by done. lra.
    + repeat split; try done; try lra.
  - intros Hf. rewrite Hf. f_equal. lra.
  - intros Hlen p Hp. unfold computed_displacement. fold N g d.
    by apply (ComputeDisplacements_pass t g _ _ N d Hlen).
  - intros Hn Hmax. unfold UpdateDisplacement.
    rewrite TruncateDisplacement_cases. simpl.
    unfold effective_maximum. simpl. rewrite Hn. simpl.
    destruct (Rlt_dec 0 (_MaximumDisplacement o)); [lra|].
    by destruct (Rlt_dec (_StepLength o) (_StepLength o)); [lra|].
Qed.

End DisplacementUpdate.

Section DisplacementExamples.
Import EulerMethodUtils EulerMethod DisplacementPolicy ToyModel.

Lemma UpdateDisplacement_formula_witness :
  let o := one_point true [3; 4; 0] [0; 0; 0] in
  _NormalizeStepLength o = true /\
  (3 * NumberOfPoints (_Model o) <= length (deref (_Displacement o)))%nat /\
  0 < EulerMethod_GradientNorm o /\
  load3 (computed_displacement Whole o) 0
  = scale3 (- _StepLength o / EulerMethod_GradientNorm o)
      (load3 (deref (_Gradient o)) 0).
Proof.
  intros o.
  destruct (UpdateDisplacement_formula Whole o)
    as (Hnorm & _ & Hdisp & _).
  split; [reflexivity|]. split; [simpl; lia|]. split.
  - apply Hnorm. reflexivity.
  - apply Hdisp; simpl; lia.
Defined.

Lemma TruncateDisplacement_clamp_witness :
  let o := one_point false [0; 0; 0] [3; 4; 0] in
  clamp_applies false o /\
  (3 * NumberOfPoints (_Model o) <= length (deref (_Displacement o)))%nat /\
  load3 (deref (_Displacement (TruncateDisplacement Whole false o))) 0
  = clamp_vector (effective_maximum o) (load3 (deref (_Displacement o)) 0).
Proof.
  intros o.
  assert (Happ : clamp_applies false o) by (right; left; reflexivity).
  assert (Hlen : (3 * NumberOfPoints (_Model o)
                  <= length (deref (_Displacement o)))%nat)
    by (simpl; lia).
  split; [exact Happ|]. split; [exact Hlen|].
  destruct (TruncateDisplacement_clamp Whole false o)
    as (_ & _ & _ & Hpass & _).
  apply Hpass; [exact Happ|exact Hlen|simpl; lia].
Defined.

End DisplacementExamples.

(* ===================================================================== *)
(** ** The loop of the optimizer *)
(* ===================================================================== *)

Section RunLoop.
Import EulerMethodUtils EulerMethod.
Context {M : Type} `{DeformableSurfaceModel M}.

Lemma Base_grow_buffers (o : EulerMethod M) :
  Base (grow_buffers o) = Base o.
Proof.
  unfold grow_buffers.
  by destruct (_NumberOfDOFs o <? NumberOfDOFs (_Model o))%nat.
Qed.

Lemma Base_RemeshModel (o : EulerMethod M) : Base (RemeshModel o) = Base o.
Proof.
  unfold RemeshModel. destruct (Remesh (_Model o)) as [m changed].
  destruct changed; [by rewrite Base_grow_buffers|done].
Qed.

Lemma Base_TruncateDisplacement (t : Partition) (force : bool)
    (o : EulerMethod M) :
  Base (TruncateDisplacement t force o) = Base o.
Proof.
  rewrite TruncateDisplacement_cases.
  by destruct (force || negb (_NormalizeStepLength o) || _).
Qed.

Lemma Base_UpdateDisplacement (t : Partition) (o : EulerMethod M) :
  Base (UpdateDisplacement t o) = Base o.
Proof. unfold UpdateDisplacement. by rewrite Base_TruncateDisplacement. Qed.

(** The thresholds are not touched up to the time step, and the model
    and [_LastDelta] are what the stepping operation returned. *)
Lemma perform_step_Base (t : Partition) (iter : nat) (o : EulerMethod M) :
  _Delta (Base (perform_step t iter o)) = _Delta (Base o) /\
  _Epsilon (Base (perform_step t iter o)) = _Epsilon (Base o) /\
  exists (m0 : M) (d0 : list R),
    (_Model (perform_step t iter o),
     _LastDelta (Base (perform_step t iter o))) = Step m0 d0.
Proof.
  unfold perform_step.
  set (o1 := Broadcast (IterationStartEvent iter) o).
  set (o2 := if (1 <? iter)%nat then RemeshModel o1 else o1).
  set (o3 := set_Gradient _ o2).
  set (o4 := UpdateDisplacement t o3).
  assert (HB : Base o4 = Base o1).
  { subst o4 o3. rewrite Base_UpdateDisplacement. simpl. subst o2.
    destruct (1 <? iter)%nat; [apply Base_RemeshModel|done]. }
  destruct (Step (_Model o4) (deref (_Displacement o4))) as [m delta] eqn:E.
  simpl. rewrite HB. simpl. repeat split.
  exists (_Model o4), (deref (_Displacement o4)). by rewrite E.
Qed.

(** After the loop [Run] only notifies the observers: the model is the
    one the loop ended with. *)
Lemma Run_after_loop
    (LocalOptimizer_Converged :
       nat -> Energy -> Energy -> list R -> M -> M * bool)
    (t : Partition) (start initialized : EulerMethod M) :
  Initialize start = Ok initialized ->
  let remeshed := RemeshModel initialized in
  let o0 := Broadcast StartEvent
              (set_Model (Update true (_Model remeshed)) remeshed) in
  forall o' value exit,
    loop LocalOptimizer_Converged t (_NumberOfSteps (Base o0)) 1 o0
      (Value (_Model o0)) = (o', value, exit) ->
    exists final,
      Run LocalOptimizer_Converged t start = Ok (final, value, exit) /\
      _Model final = _Model o'.
Proof.
  intros Hinit remeshed o0 o' value exit Hloop.
  subst o0 remeshed. unfold Run. rewrite Hinit.
  cbv beta iota zeta delta [bind]. rewrite Hloop. by eexists.
Qed.

(** C5, amended: the threshold of the degenerate-step exit is the member
    [_Delta], which the optimizer inherits from [LocalOptimizer]; the
    [1e-9] of the constructor is the default of [_Epsilon], another
    member.  In every iteration, if the delta returned by the stepping
    operation is at most [_Delta], the loop is left in [DegenerateStep]
    with the optimizer as the time step left it: the model is the one
    returned by the stepping operation, the value is the previous one,
    and the result does not depend on the stopping criterion; [Run] then
    returns with that model.  With a greater delta the iteration does
    not end in [DegenerateStep]. *)
Theorem Run_degenerate_step_exit
    (LocalOptimizer_Converged :
       nat -> Energy -> Energy -> list R -> M -> M * bool)
    (t : Partition) (remaining iter : nat) (o : EulerMethod M)
    (value : Energy) :
  let stepped := perform_step t iter o in
  (forall base (f : M),
     _Epsilon (Base (EulerMethod_new base f)) = 1e-9 /\
     _Delta (Base (EulerMethod_new base f)) = _Delta base) /\
  (exists (m0 : M) (d0 : list R),
     (_Model stepped, _LastDelta (Base stepped)) = Step m0 d0) /\
  (_LastDelta (Base stepped) <= _Delta (Base o) ->
     iteration LocalOptimizer_Converged t iter o value
     = (stepped, value, Some DegenerateStep) /\
     loop LocalOptimizer_Converged t (S remaining) iter o value
     = (stepped, value, DegenerateStep)) /\
  (_LastDelta (Base stepped) > _Delta (Base o) ->
     snd (iteration LocalOptimizer_Converged t iter o value)
     <> Some DegenerateStep) /\
  (forall start initialized : EulerMethod M,
     Initialize start = Ok initialized ->
     let remeshed := RemeshModel initialized in
     let o0 := Broadcast StartEvent
                 (set_Model (Update true (_Model remeshed)) remeshed) in
     forall o' value' exit,
       loop LocalOptimizer_Converged t (_NumberOfSteps (Base o0)) 1 o0
         (Value (_Model o0)) = (o', value', exit) ->
       exists final,
         Run LocalOptimizer_Converged t start = Ok (final, value', exit) /\
         _Model final = _Model o').
Proof.
  intros stepped.
  destruct (perform_step_Base t iter o) as (HD & _ & Hstep).
  fold stepped in HD, Hstep.
  split; [done|]. split; [exact Hstep|].
  assert (Hiter : _LastDelta (Base stepped) <= _Delta (Base o) ->
     iteration LocalOptimizer_Converged t iter o value
     = (stepped, value, Some DegenerateStep)).
  { intros Hle. unfold iteration. fold stepped. rewrite HD.
    by destruct (Rle_dec (_LastDelta (Base stepped)) (_Delta (Base o))). }
  split; [|split].
  - intros Hle. split; [by apply Hiter|].
    simpl. by rewrite Hiter.
  - intros Hgt. unfold iteration. fold stepped. rewrite HD.
    destruct (Rle_dec (_LastDelta (Base stepped)) (_Delta (Base o)));
      [lra|].
    destruct (LocalOptimizer_Converged _ _ _ _ _) as [m converged].
    by destruct converged.
  - intros start initialized Hinit. by apply Run_after_loop.
Qed.

End RunLoop.

Section RunLoopExamples.
Import EulerMethodUtils EulerMethod ToyModel.

(** C5 as stated fails: a default-constructed optimizer whose inherited
    [_Delta] is [1e-12] and whose model reports the delta [1e-10], which is
    below [_Epsilon = 1e-9], goes on to the convergence test, and that
    test decides how the iteration ends. *)
Lemma degenerate_step_threshold_is_not_Epsilon :
  let o := EulerMethod_new (mkLocalOptimizer 10 1e-4 1e-12 0 [])
             (mkToy 0 1e-10) in
  _Epsilon (Base o) = 1e-9 /\
  _LastDelta (Base (perform_step Whole 1 o)) <= _Epsilon (Base o) /\
  snd (iteration never_converged Whole 1 o (Finite 0)) = None /\
  snd (iteration always_converged Whole 1 o (Finite 0)) = Some Converged.
Proof.
  intros o.
  assert (Hdelta : _LastDelta (Base (perform_step Whole 1 o)) = 1e-10).
  { unfold perform_step. simpl. unfold UpdateDisplacement. simpl.
    rewrite TruncateDisplacement_cases. simpl.
    by destruct (Rlt_dec _ _). }
  assert (HD : _Delta (Base (perform_step Whole 1 o)) = 1e-12).
  { by destruct (perform_step_Base Whole 1 o) as (-> & _). }
  split; [reflexivity|]. split; [rewrite Hdelta; simpl; lra|].
  unfold iteration. rewrite Hdelta, HD.
  destruct (Rle_dec 1e-10 1e-12); [lra|]. done.
Qed.

Lemma Run_degenerate_step_exit_witness :
  let o := EulerMethod_new (mkLocalOptimizer 10 1e-4 1e-12 0 [])
             (mkToy 0 0) in
  _LastDelta (Base (perform_step Whole 1 o)) <= _Delta (Base o) /\
  loop always_converged Whole 10 1 o (Finite 0)
  = (perform_step Whole 1 o, Finite 0, DegenerateStep).
Proof.
  intros o.
  assert (Hle : _LastDelta (Base (perform_step Whole 1 o))
                <= _Delta (Base o)).
  { unfold perform_step. simpl. unfold UpdateDisplacement. simpl.
    rewrite TruncateDisplacement_cases. simpl.
    destruct (Rlt_dec _ _); simpl; lra. }
  split; [exact Hle|].
  by apply (Run_degenerate_step_exit always_converged Whole 9 1 o
              (Finite 0)).
Defined.

End RunLoopExamples.

(* ===================================================================== *)
(** ** Copying the optimizer *)
(* ===================================================================== *)

Section Copy.
Import EulerMethod.
Context {M : Type} `{DeformableSurfaceModel M}.

(** [CopyAttributes] assigns [_NumberOfDOFs] before it compares it with
    the source's, so that for a source with degrees of freedom the
    buffers of the target are never reallocated: the copy goes into the
    buffers the target happens to have. *)
Lemma CopyAttributes_keeps_buffers (this other : EulerMethod M) :
  (0 < _NumberOfDOFs other)%nat ->
  CopyAttributes this other
  = bind (memcpy (_Gradient this) (_Gradient other) (_NumberOfDOFs other))
      (fun g =>
       bind (memcpy (_Displacement this) (_Displacement other)
               (_NumberOfDOFs other))
         (fun d =>
          Ok (mkEulerMethod (Base this) (_Model this) (_StepLength other)
                (_NormalizeStepLength other) (_MaximumDisplacement other)
                (_NormalDisplacement other) g d (_NumberOfDOFs other)))).
Proof.
  destruct this as [b1 m1 sl1 ns1 md1 nd1 g1 d1 n1].
  destruct other as [b2 m2 sl2 ns2 md2 nd2 g2 d2 n2]. simpl.
  intros Hn. destruct n2 as [|n2]; [lia|].
  unfold CopyAttributes. simpl. rewrite Nat.eqb_refl. simpl.
  destruct (memcpy g1 g2 (S n2)) as [g|f]; [|done]. simpl.
  by destruct (memcpy d1 d2 (S n2)).
Qed.

(** C10 fails on the code: for a source with [_NumberOfDOFs > 0], copy
    construction writes through the NULL [_Gradient] of the new object,
    assignment to a target with smaller buffers writes past their end,
    and assignment to a target with larger buffers keeps them, instead
    of allocating buffers of the source's size first. *)
Theorem EulerMethod_copy_writes_unallocated
    (garbage this other : EulerMethod M)
    (Hdofs : (0 < _NumberOfDOFs other)%nat) :
  EulerMethod_copy garbage other = Crash NullPointer /\
  (forall g s,
     _Gradient this = Some g -> _Gradient other = Some s ->
     (length g < _NumberOfDOFs other)%nat ->
     assign this other = Crash OutOfBounds) /\
  (forall g d s s',
     _Gradient this = Some g -> _Displacement this = Some d ->
     _Gradient other = Some s -> _Displacement other = Some s' ->
     length s = _NumberOfDOFs other -> length s' = _NumberOfDOFs other ->
     (_NumberOfDOFs other < length g)%nat ->
     (_NumberOfDOFs other < length d)%nat ->
     exists r g',
       assign this other = Ok r /\ _Gradient r = Some g' /\
       length g' = length g /\ length g' <> _NumberOfDOFs other).
Proof.
  split; [|split].
  - unfold EulerMethod_copy.
    by rewrite CopyAttributes_keeps_buffers.
  - intros g s Hg Hs Hlt. unfold assign.
    rewrite CopyAttributes_keeps_buffers by done. simpl.
    rewrite Hg, Hs. simpl.
    destruct (_NumberOfDOFs other <=? length g)%nat eqn:E;
      [apply Nat.leb_le in E; lia|]. done.
  - intros g d s s' Hg Hd Hs Hs' Hls Hls' Hlt Hlt'. unfold assign.
    rewrite CopyAttributes_keeps_buffers by done. simpl.
    rewrite Hg, Hd, Hs, Hs'. simpl. rewrite Hls, Hls'.
    rewrite Nat.leb_refl.
    destruct (_NumberOfDOFs other <=? length g)%nat eqn:E;
      [|apply Nat.leb_gt in E; lia].
    destruct (_NumberOfDOFs other <=? length d)%nat eqn:E';
      [|apply Nat.leb_gt in E'; lia].
    simpl. eexists _, _. split; [reflexivity|]. simpl.
    split; [reflexivity|].
    rewrite length_app, length_take, length_drop. lia.
Qed.

End Copy.

Section CopyExamples.
Import EulerMethod ToyModel.

Lemma EulerMethod_copy_writes_unallocated_witness :
  let other := one_point true [1; 2; 3] [4; 5; 6] in
  (0 < _NumberOfDOFs other)%nat /\
  EulerMethod_copy other other = Crash NullPointer.
Proof.
  intros other.
  assert (Hdofs : (0 < _NumberOfDOFs other)%nat) by (simpl; lia).
  split; [exact Hdofs|].
  by destruct (EulerMethod_copy_writes_unallocated other other other
                 Hdofs) as (Hcopy & _).
Defined.

End CopyExamples.

(* ===================================================================== *)
(** ** More on the membership function and the penalty *)
(* ===================================================================== *)

Section MembershipRange.
Import GaussCurvatureConstraint GaussCurvatureConstraintUtils.

Lemma smf_unit_range (u : R) : 0 <= SShapedMembershipFunction u 0 1 <= 1.
Proof.
  unfold SShapedMembershipFunction.
  destruct (Rle_dec u 0); [lra|].
  destruct (Rge_dec u 1); [lra|].
  destruct (Rle_dec u (0.5 * (0 + 1))); cbv zeta;
    replace ((u - 0) / (1 - 0)) with u by field;
    replace ((u - 1) / (1 - 0)) with (u - 1) by field;
    split; nra.
Qed.

(** X1: for [a < b] the membership function takes its values in
    [[0, 1]] and is monotone non-decreasing on the whole real line. *)
Theorem SShapedMembershipFunction_range_monotone (a b : R) (Hab : a < b) :
  (forall x, 0 <= SShapedMembershipFunction x a b <= 1) /\
  (forall x y, x <= y ->
     SShapedMembershipFunction x a b <= SShapedMembershipFunction y a b).
Proof.
  split.
  - intros x. rewrite (smf_unit_interval x a b Hab). apply smf_unit_range.
  - intros x y Hxy. pose proof (smf_lipschitz a b x y Hab Hxy). lra.
Qed.

Lemma SShapedMembershipFunction_range_monotone_witness :
  0 < 0.2 /\ 0 <= SShapedMembershipFunction 0.1 0 0.2 <= 1.
Proof.
  split; [lra|].
  apply (SShapedMembershipFunction_range_monotone 0 0.2 ltac:(lra)).
Defined.

(** X2: when the interval is empty or a point ([b <= a]) the function is
    the step at [a]: [0] up to [a] and [1] after it; the two quadratic
    branches, which divide by [b - a], are never reached. *)
Theorem SShapedMembershipFunction_degenerate (x a b : R) (Hba : b <= a) :
  SShapedMembershipFunction x a b = if Rle_dec x a then 0 else 1.
Proof.
  unfold SShapedMembershipFunction.
  destruct (Rle_dec x a); [done|].
  destruct (Rge_dec x b); [done|lra].
Qed.

Lemma SShapedMembershipFunction_degenerate_witness :
  1 <= 1 /\ SShapedMembershipFunction 2 1 1 = 1.
Proof.
  split; [lra|].
  rewrite (SShapedMembershipFunction_degenerate 2 1 1) by lra.
  destruct (Rle_dec 2 1); [lra|reflexivity].
Defined.

(** X3: for [a < b] the function is point-symmetric about the midpoint
    of the interval: [smf(a + b - x) = 1 - smf(x)]. *)
Theorem SShapedMembershipFunction_symmetry (x a b : R) (Hab : a < b) :
  SShapedMembershipFunction (a + b - x) a b
  = 1 - SShapedMembershipFunction x a b.
Proof.
  rewrite (smf_unit_interval x a b Hab),
    (smf_unit_interval (a + b - x) a b Hab).
  replace ((a + b - x - a) / (b - a)) with (1 - (x - a) / (b - a))
    by (field; lra).
  generalize ((x - a) / (b - a)). intros u.
  unfold SShapedMembershipFunction.
  destruct (Rle_dec (1 - u) 0), (Rle_dec u 0); try lra;
  destruct (Rge_dec (1 - u) 1), (Rge_dec u 1); try lra;
  destruct (Rle_dec (1 - u) (0.5 * (0 + 1))),
    (Rle_dec u (0.5 * (0 + 1))); try lra; cbv zeta;
  replace ((u - 0) / (1 - 0)) with u by field;
  replace ((u - 1) / (1 - 0)) with (u - 1) by field;
  replace ((1 - u - 0) / (1 - 0)) with (1 - u) by field;
  replace ((1 - u - 1) / (1 - 0)) with (- u) by field;
  try nra.
  all: replace u with (1 / 2) by lra; lra.
Qed.

Lemma SShapedMembershipFunction_symmetry_witness :
  0 < 1 /\
  SShapedMembershipFunction (0 + 1 - 0.25) 0 1
  = 1 - SShapedMembershipFunction 0.25 0 1.
Proof.
  split; [lra|].
  apply (SShapedMembershipFunction_symmetry 0.25 0 1). lra.
Defined.

End MembershipRange.

Section PenaltyBounds.
Import GaussCurvatureConstraint GaussCurvatureConstraintUtils.

Lemma sum_from_bounds (f : nat -> R) (B : R) (b n : nat) :
  (forall i, (b <= i < b + n)%nat -> 0 <= f i <= B) ->
  0 <= sum_from f b n <= INR n * B.
Proof.
  revert b. induction n as [|n IH]; intros b Hf.
  - simpl. lra.
  - rewrite S_INR. simpl.
    assert (Hb : 0 <= f b <= B) by (apply Hf; lia).
    assert (Hrest : 0 <= sum_from f (S b) n <= INR n * B).
    { apply IH. intros i Hi. apply Hf. lia. }
    lra.
Qed.

Lemma sum_from_zero_inv (f : nat -> R) (b n : nat) :
  (forall i, (b <= i < b + n)%nat -> 0 <= f i) ->
  sum_from f b n = 0 ->
  forall i, (b <= i < b + n)%nat -> f i = 0.
Proof.
  revert b. induction n as [|n IH]; intros b Hpos Hsum i Hi; [lia|].
  simpl in Hsum.
  assert (Hb : 0 <= f b) by (apply Hpos; lia).
  assert (Hrest : 0 <= sum_from f (S b) n).
  { clear -Hpos. revert b Hpos. induction n as [|n IH]; intros b Hpos;
      simpl; [lra|].
    assert (0 <= f (S b)) by (apply Hpos; lia).
    assert (0 <= sum_from f (S (S b)) n)
      by (apply IH; intros j Hj; apply Hpos; lia).
    lra. }
  destruct (decide (i = b)) as [->|Hne]; [lra|].
  apply (IH (S b)); [intros j Hj; apply Hpos; lia|lra|lia].
Qed.

Lemma Evaluate_as_sum (t : Partition) (s : State) :
  let N := _NumberOfPoints s in
  let K := Values (GAUSS s) in
  (N = 0%nat -> GaussCurvatureConstraint.Evaluate t s = 0) /\
  (N <> 0%nat ->
     GaussCurvatureConstraint.Evaluate t s
     = sum_from (fun i => Rabs (GetComponent K i)) 0 N / INR N).
Proof.
  intros N K. unfold GaussCurvatureConstraint.Evaluate. fold N. split.
  - by intros ->.
  - intros HN. destruct (N =? 0)%nat eqn:E;
      [by apply Nat.eqb_eq in E|].
    rewrite parallel_reduce_Evaluate by lia. simpl.
    rewrite Nat.sub_0_r. fold K. f_equal. lra.
Qed.

(** X4: the penalty is never negative; on a term with points it is zero
    exactly when the Gauss curvature is zero at every point, and it is at
    most [B] when no point has a curvature of magnitude above [B]. *)
Theorem Evaluate_nonnegative (t : Partition) (s : State) :
  let N := _NumberOfPoints s in
  let K := Values (GAUSS s) in
  0 <= GaussCurvatureConstraint.Evaluate t s /\
  (N <> 0%nat ->
     (GaussCurvatureConstraint.Evaluate t s = 0
      <-> forall i, (i < N)%nat -> GetComponent K i = 0)) /\
  (forall B, 0 <= B ->
     (forall i, (i < N)%nat -> Rabs (GetComponent K i) <= B) ->
     GaussCurvatureConstraint.Evaluate t s <= B).
Proof.
  intros N K.
  destruct (Evaluate_as_sum t s) as (H0 & Hmean).
  fold N K in H0, Hmean.
  destruct (Nat.eq_dec N 0%nat) as [HN|HN].
  { rewrite (H0 HN). repeat split; try lra; try done. }
  rewrite (Hmean HN).
  assert (HNpos : 0 < INR N) by (apply lt_0_INR; lia).
  assert (Hsum : forall B,
    (forall i, (i < N)%nat -> Rabs (GetComponent K i) <= B) ->
    0 <= sum_from (fun i => Rabs (GetComponent K i)) 0 N <= INR N * B).
  { intros B HB. apply sum_from_bounds. intros i Hi.
    split; [apply Rabs_pos|apply HB; lia]. }
  assert (Hnonneg : 0 <= sum_from (fun i => Rabs (GetComponent K i)) 0 N).
  { clear. generalize 0%nat. induction N as [|n IH]; intros b; simpl;
      [lra|]. pose proof (Rabs_pos (GetComponent K b)).
    specialize (IH (S b)). lra. }
  split; [|split].
  - apply Rmult_le_pos; [exact Hnonneg|]. left.
    by apply Rinv_0_lt_compat.
  - intros _. split.
    + intros Hz i Hi.
      assert (Hs : sum_from (fun i => Rabs (GetComponent K i)) 0 N = 0).
      { apply (Rmult_eq_reg_r (/ INR N)); [|apply Rinv_neq_0_compat; lra].
        rewrite Rmult_0_l. exact Hz. }
      pose proof (sum_from_zero_inv _ 0 N
                    (fun j _ => Rabs_pos (GetComponent K j)) Hs i
                    ltac:(lia)) as Habs.
      simpl in Habs.
      destruct (Req_dec_T (GetComponent K i) 0) as [|Hne]; [done|].
      apply Rabs_no_R0 in Hne. done.
    + intros Hz. rewrite sum_from_zero; [lra|].
      intros i Hi. rewrite Hz by lia. apply Rabs_R0.
  - intros B HB Hall. destruct (Hsum B Hall) as [_ Hle].
    apply (Rmult_le_reg_r (INR N)); [exact HNpos|].
    replace (sum_from (fun i => Rabs (GetComponent K i)) 0 N / INR N
             * INR N)
      with (sum_from (fun i => Rabs (GetComponent K i)) 0 N)
      by (field; lra).
    lra.
Qed.

Lemma Evaluate_nonnegative_witness :
  let s := mkState (mkPointSet [] None [] [] 0) 2 [] (mkArray [0; 0] 0)
             (mkArray [] 0) 0 in
  _NumberOfPoints s <> 0%nat /\
  GaussCurvatureConstraint.Evaluate Whole s = 0.
Proof.
  intros s.
  assert (HN : _NumberOfPoints s <> 0%nat) by (simpl; lia).
  split; [exact HN|].
  destruct (Evaluate_nonnegative Whole s) as (_ & Hiff & _).
  apply (Hiff HN). intros i Hi. simpl in Hi.
  destruct i as [|[|i]]; [reflexivity|reflexivity|lia].
Defined.

End PenaltyBounds.

(* ===================================================================== *)
(** ** More on the gradient of the curvature term *)
(* ===================================================================== *)

Section ForceBounds.
Import GaussCurvatureConstraint GaussCurvatureConstraintUtils.
Import CurvatureForce Neighborhood.

Lemma smf_range (x a b : R) :
  a < b -> 0 <= SShapedMembershipFunction x a b <= 1.
Proof.
  intros Hab. rewrite (smf_unit_interval x a b Hab). apply smf_unit_range.
Qed.

Lemma magnitude_range (s : State) (p : nat) : 0 <= magnitude s p <= 1.
Proof.
  unfold magnitude.
  pose proof (smf_range (Rabs (K s p)) 0 0.2 ltac:(lra)) as H1.
  pose proof (smf_range (- H s p) 0 0.5 ltac:(lra)) as H2.
  pose proof (smf_range (H s p) 0 1 ltac:(lra)) as H3.
  destruct (Rlt_dec (H s p) 0); split; nra.
Qed.

Lemma Norm_nonneg (v : Vec3) : 0 <= vtkMath.Norm v.
Proof. apply sqrt_pos. Qed.

Lemma Norm_zero3 : vtkMath.Norm zero3 = 0.
Proof. by apply Norm_zero_iff. Qed.

Lemma Norm_scale3 (k : R) (v : Vec3) :
  vtkMath.Norm (scale3 k v) = Rabs k * vtkMath.Norm v.
Proof.
  unfold vtkMath.Norm, scale3; simpl.
  replace (k * vx v * (k * vx v) + k * vy v * (k * vy v)
           + k * vz v * (k * vz v))
    with (k * k * (vx v * vx v + vy v * vy v + vz v * vz v)) by ring.
  rewrite sqrt_mult by nra.
  f_equal. replace (k * k) with (Rsqr k) by (unfold Rsqr; ring).
  apply sqrt_Rsqr_abs.
Qed.

Lemma Norm_Normalize_le (v : Vec3) :
  vtkMath.Norm (vtkMath.Normalize v) <= 1.
Proof.
  destruct (Req_dec_T (vtkMath.Norm v) 0) as [Hz|Hne].
  - apply Norm_zero_iff in Hz as ->.
    rewrite Normalize_zero, Norm_zero3. lra.
  - rewrite Norm_Normalize; [lra|].
    intros ->. by apply Hne, Norm_zero_iff.
Qed.

Lemma Norm_contribution (s : State) (p : nat) :
  vtkMath.Norm (contribution s p) <= 1.
Proof.
  unfold contribution. rewrite Norm_scale3, Rabs_Ropp.
  pose proof (magnitude_range s p) as Hm.
  rewrite (Rabs_right (magnitude s p)) by lra.
  pose proof (Norm_Normalize_le
                (vtkMath.MultiplyScalar (sum3 (summed_offsets s p))
                   (1 / INR (length (neighbors s p))))) as Hn.
  pose proof (Norm_nonneg (direction s p)) as H0.
  unfold direction in *. nra.
Qed.

(** X5: after the term's own pass no point carries a vector longer than
    [1]: the factor [m] lies in [[0, 1]] and the direction is a unit
    vector or zero. *)
Theorem own_gradient_bounded (t : Partition) (s : State) (p : nat)
    (Hlen : (_NumberOfPoints s <= length (_Gradient s))%nat)
    (Hp : (p < _NumberOfPoints s)%nat) :
  vtkMath.Norm (GetPoint (own_gradient t s) p) <= 1 /\
  0 <= magnitude s p <= 1.
Proof.
  split; [|apply magnitude_range].
  rewrite GetPoint_own_gradient by done.
  destruct (written s p) as [v|] eqn:E; simpl.
  - unfold written in E.
    destruct (is_passive _ _); [done|].
    destruct (0 <? _)%nat; [|done].
    injection E as <-. apply Norm_contribution.
  - rewrite Norm_zero3. lra.
Qed.

Lemma magnitude_zero (s : State) (p : nat) :
  K s p = 0 \/ H s p = 0 \/ H s p <= - 0.5 -> magnitude s p = 0.
Proof.
  unfold magnitude, SShapedMembershipFunction.
  intros [HK|[HH|HH]].
  - rewrite HK, Rabs_R0. destruct (Rle_dec 0 0); [lra|lra].
  - rewrite HH. destruct (Rlt_dec 0 0); [lra|].
    destruct (Rle_dec 0 0) as [_|Hn]; [lra|lra].
  - destruct (Rlt_dec (H s p) 0); [|lra].
    destruct (Rle_dec (- H s p) 0); [lra|].
    destruct (Rge_dec (- H s p) 0.5); [lra|lra].
Qed.

Lemma magnitude_one (s : State) (p : nat) :
  0.2 <= Rabs (K s p) -> 1 <= H s p -> magnitude s p = 1.
Proof.
  unfold magnitude, SShapedMembershipFunction. intros HK HH.
  destruct (Rle_dec (Rabs (K s p)) 0); [lra|].
  destruct (Rge_dec (Rabs (K s p)) 0.2); [|lra].
  destruct (Rlt_dec (H s p) 0); [lra|].
  destruct (Rle_dec (H s p) 0); [lra|].
  destruct (Rge_dec (H s p) 1); [lra|lra].
Qed.

(** X6: the term exerts no force where the Gauss curvature is zero,
    where the mean curvature is zero, or where the mean curvature is
    [-0.5] or less; where [|K| >= 0.2] and [H >= 1] an active point with
    a neighbor receives the full negated direction. *)
Theorem own_gradient_vanishes (t : Partition) (s : State) (p : nat)
    (Hlen : (_NumberOfPoints s <= length (_Gradient s))%nat)
    (Hp : (p < _NumberOfPoints s)%nat) :
  (K s p = 0 \/ H s p = 0 \/ H s p <= - 0.5 ->
     GetPoint (own_gradient t s) p = zero3) /\
  (0.2 <= Rabs (K s p) -> 1 <= H s p ->
     active s p -> neighbors s p <> [] ->
     GetPoint (own_gradient t s) p = scale3 (- 1) (direction s p)).
Proof.
  split.
  - intros Hz. rewrite GetPoint_own_gradient by done.
    destruct (written s p) as [v|] eqn:E; simpl; [|done].
    unfold written in E.
    destruct (is_passive _ _); [done|].
    destruct (0 <? _)%nat; [|done].
    injection E as <-. unfold contribution.
    rewrite (magnitude_zero s p Hz).
    apply Vec3_eq; simpl; lra.
  - intros HK HH Hact Hn.
    rewrite own_gradient_active by done. unfold contribution.
    by rewrite magnitude_one.
Qed.

Lemma own_gradient_bounded_witness :
  let s := half_active in
  (_NumberOfPoints s <= length (_Gradient s))%nat /\
  (0 < _NumberOfPoints s)%nat /\
  vtkMath.Norm (GetPoint (own_gradient Whole s) 0) <= 1.
Proof.
  intros s.
  assert (Hlen : (_NumberOfPoints s <= length (_Gradient s))%nat)
    by (simpl; lia).
  assert (Hp : (0 < _NumberOfPoints s)%nat) by (simpl; lia).
  split; [exact Hlen|]. split; [exact Hp|].
  apply (own_gradient_bounded Whole s 0 Hlen Hp).
Defined.

Lemma own_gradient_vanishes_witness :
  let s := mkState
             (mkPointSet [mkVec3 0 0 0; mkVec3 1 0 0] None
                [[1%nat]; [0%nat]] [mkVec3 1 0 0; mkVec3 1 0 0] 0)
             2 [mkVec3 5 5 5; mkVec3 7 7 7]
             (mkArray [0; 0] 0) (mkArray [3; 3] 0) 0 in
  (_NumberOfPoints s <= length (_Gradient s))%nat /\
  (0 < _NumberOfPoints s)%nat /\ K s 0 = 0 /\
  GetPoint (own_gradient Whole s) 0 = zero3.
Proof.
  intros s.
  assert (Hlen : (_NumberOfPoints s <= length (_Gradient s))%nat)
    by (simpl; lia).
  assert (Hp : (0 < _NumberOfPoints s)%nat) by (simpl; lia).
  split; [exact Hlen|]. split; [exact Hp|]. split; [reflexivity|].
  apply (own_gradient_vanishes Whole s 0 Hlen Hp). left. reflexivity.
Defined.

End ForceBounds.

Section ForceDirection.
Import GaussCurvatureConstraint GaussCurvatureConstraintUtils.
Import CurvatureForce Neighborhood.




Lemma Dot_Add (a b n : Vec3) :
  vtkMath.Dot (vtkMath.Add a b) n = vtkMath.Dot a n + vtkMath.Dot b n.
Proof. unfold vtkMath.Dot, vtkMath.Add; simpl. ring. Qed.

Lemma Dot_sum_outward (n : Vec3) (l : list Vec3) :
  0 <= vtkMath.Dot
         (sum3 (List.filter
                  (fun d =>
                     if Rgt_dec (vtkMath.Dot d n) 0 then true else false)
                  l)) n.
Proof.
  induction l as [|d l IH]; simpl.
  - unfold vtkMath.Dot; simpl. lra.
  - destruct (Rgt_dec (vtkMath.Dot d n) 0); [|exact IH].
    simpl. rewrite Dot_Add. lra.
Qed.

Lemma Dot_Normalize_MultiplyScalar (v n : Vec3) (k : R) :
  0 <= k -> 0 <= vtkMath.Dot v n ->
  0 <= vtkMath.Dot (vtkMath.Normalize (vtkMath.MultiplyScalar v k)) n.
Proof.
  intros Hk Hv.
  assert (Hs : 0 <= vtkMath.Dot (vtkMath.MultiplyScalar v k) n).
  { unfold vtkMath.Dot, vtkMath.MultiplyScalar in *; simpl.
    replace (vx v * k * vx n + vy v * k * vy n + vz v * k * vz n)
      with (k * (vx v * vx n + vy v * vy n + vz v * vz n)) by ring.
    by apply Rmult_le_pos. }
  set (w := vtkMath.MultiplyScalar v k) in *. clearbody w.
  unfold vtkMath.Normalize.
  destruct (Req_dec_T (vtkMath.Norm w) 0) as [_|Hne]; [exact Hs|].
  pose proof (Norm_nonneg w) as Hpos.
  assert (Hinv : 0 < / vtkMath.Norm w)
    by (apply Rinv_0_lt_compat; lra).
  unfold vtkMath.Dot in *; simpl.
  replace (vx w / vtkMath.Norm w * vx n + vy w / vtkMath.Norm w * vy n
           + vz w / vtkMath.Norm w * vz n)
    with (/ vtkMath.Norm w * (vx w * vx n + vy w * vy n + vz w * vz n))
    by (field; exact Hne).
  apply Rmult_le_pos; lra.
Qed.

(** X8: where the Gauss curvature is negative the vector written for a
    point never has a positive component along the normal of the point:
    only offsets on the positive side of the normal are summed, and the
    sum is negated. *)
Theorem own_gradient_not_outward (t : Partition) (s : State) (p : nat)
    (Hlen : (_NumberOfPoints s <= length (_Gradient s))%nat)
    (Hp : (p < _NumberOfPoints s)%nat)
    (HK : K s p < 0) :
  vtkMath.Dot (GetPoint (own_gradient t s) p)
    (GetPoint (SurfaceNormals (_PointSet s)) p) <= 0.
Proof.
  rewrite GetPoint_own_gradient by done.
  destruct (written s p) as [v|] eqn:E; simpl.
  - unfold written in E.
    destruct (is_passive _ _); [done|].
    destruct (0 <? _)%nat; [|done].
    injection E as <-. unfold contribution.
    pose proof (magnitude_range s p) as Hm.
    set (nrm := GetPoint (SurfaceNormals (_PointSet s)) p).
    assert (Hd : 0 <= vtkMath.Dot (direction s p) nrm).
    { unfold direction, summed_offsets.
      destruct (Rlt_dec (K s p) 0); [|lra].
      apply Dot_Normalize_MultiplyScalar.
      - apply Rmult_le_pos; [lra|].
        destruct (length (neighbors s p)) as [|k].
        + simpl. rewrite Rinv_0. lra.
        + left. apply Rinv_0_lt_compat, lt_0_INR. lia.
      - apply Dot_sum_outward. }
    unfold vtkMath.Dot, scale3 in *; simpl.
    replace (- magnitude s p * vx (direction s p) * vx nrm
             + - magnitude s p * vy (direction s p) * vy nrm
             + - magnitude s p * vz (direction s p) * vz nrm)
      with (- (magnitude s p
               * (vx (direction s p) * vx nrm
                  + vy (direction s p) * vy nrm
                  + vz (direction s p) * vz nrm))) by ring.
    nra.
  - unfold vtkMath.Dot; simpl. lra.
Qed.

Lemma own_gradient_not_outward_witness :
  let s := mkState
             (mkPointSet [mkVec3 0 0 0; mkVec3 1 0 0] None
                [[1%nat]; [0%nat]] [mkVec3 1 0 0; mkVec3 1 0 0] 0)
             2 [mkVec3 5 5 5; mkVec3 7 7 7]
             (mkArray [-1; 0] 0) (mkArray [3; 3] 0) 0 in
  (_NumberOfPoints s <= length (_Gradient s))%nat /\
  (0 < _NumberOfPoints s)%nat /\ K s 0 < 0 /\
  vtkMath.Dot (GetPoint (own_gradient Whole s) 0)
    (GetPoint (SurfaceNormals (_PointSet s)) 0) <= 0.
Proof.
  intros s.
  assert (Hlen : (_NumberOfPoints s <= length (_Gradient s))%nat)
    by (simpl; lia).
  assert (Hp : (0 < _NumberOfPoints s)%nat) by (simpl; lia).
  assert (HK : K s 0 < 0) by (unfold K, GetComponent; simpl; lra).
  split; [exact Hlen|]. split; [exact Hp|]. split; [exact HK|].
  apply (own_gradient_not_outward Whole s 0 Hlen Hp HK).
Defined.

End ForceDirection.

Section ForceBuffer.
Import GaussCurvatureConstraint GaussCurvatureConstraintUtils.
Import CurvatureForce Neighborhood.

Lemma own_gradient_as_writers (t : Partition) (s : State) :
  own_gradient t s
  = for_range (_NumberOfPoints s) 0 (slot_writer (written s))
      (for_range (_NumberOfPoints s) 0
         (slot_writer (fun _ => Some zero3)) (_Gradient s)).
Proof.
  unfold own_gradient.
  change (EvaluateGradient_call (gradient_functor s))
    with (over_block (EvaluateGradient_point (gradient_functor s))).
  rewrite parallel_for_whole. unfold over_block; simpl.
  rewrite Nat.sub_0_r.
  by rewrite (for_range_ext _ (slot_writer (written s)))
    by (intros; apply EvaluateGradient_point_written).
Qed.

Lemma written_with_Gradient (g : list Vec3) (s : State) (p : nat) :
  written (with_Gradient g s) p = written s p.
Proof. reflexivity. Qed.

(** X9: the term's own pass overwrites and does not accumulate: the
    vectors it leaves for its points do not depend on what the buffer
    [_Gradient] held before; the buffer keeps its length, and the slots
    past the points of the term are not written. *)
Theorem own_gradient_overwrites (t : Partition) (s : State)
    (g g' : list Vec3)
    (Hg : (_NumberOfPoints s <= length g)%nat)
    (Hg' : (_NumberOfPoints s <= length g')%nat) :
  (forall p, (p < _NumberOfPoints s)%nat ->
     GetPoint (own_gradient t (with_Gradient g s)) p
     = GetPoint (own_gradient t (with_Gradient g' s)) p) /\
  length (own_gradient t (with_Gradient g s)) = length g /\
  (forall i, (_NumberOfPoints s <= i)%nat ->
     own_gradient t (with_Gradient g s) !! i = g !! i).
Proof.
  split; [|split].
  - intros p Hp.
    rewrite !GetPoint_own_gradient by done.
    by rewrite !written_with_Gradient.
  - rewrite own_gradient_as_writers. simpl.
    rewrite for_range_slot_writer_length.
    apply (for_range_slot_writer_length (fun _ => Some zero3)).
  - intros i Hi. rewrite own_gradient_as_writers. simpl.
    rewrite !for_range_slot_writer_outside by lia. done.
Qed.

Lemma own_gradient_overwrites_witness :
  let s := half_active in
  (_NumberOfPoints s <= length [zero3; zero3; zero3])%nat /\
  (_NumberOfPoints s <= length [mkVec3 1 2 3; mkVec3 4 5 6])%nat /\
  own_gradient Whole (with_Gradient [zero3; zero3; mkVec3 9 9 9] s) !! 2%nat
  = Some (mkVec3 9 9 9).
Proof.
  intros s.
  assert (Hg : (_NumberOfPoints s
                <= length [zero3; zero3; mkVec3 9 9 9])%nat)
    by (simpl; lia).
  assert (Hg' : (_NumberOfPoints s
                 <= length [mkVec3 1 2 3; mkVec3 4 5 6])%nat)
    by (simpl; lia).
  split; [simpl; lia|]. split; [exact Hg'|].
  destruct (own_gradient_overwrites Whole s _ _ Hg Hg')
    as (_ & _ & Hpast).
  rewrite (Hpast 2%nat) by (simpl; lia). reflexivity.
Defined.


(** X10: when every point of the term is passive, has no neighbor, or
    has [K = 0], [H = 0] or [H <= -0.5], [EvaluateGradient] hands the
    base step a buffer that is zero at every point, whatever the buffer
    held before; a term without points returns at once, calls no base
    step and leaves the term and the caller's buffer as they were. *)
Theorem EvaluateGradient_no_force
    (base : State -> list R -> R -> R -> list R)
    (t : Partition) (s : State) (gradient : list R) (step weight : R)
    (Hg : (_NumberOfPoints s <= length (_Gradient s))%nat)
    (Hflat : forall p, (p < _NumberOfPoints s)%nat ->
       ~ active s p \/ neighbors s p = [] \/ K s p = 0 \/ H s p = 0
       \/ H s p <= - 0.5) :
  let r := GaussCurvatureConstraint.EvaluateGradient base t s gradient
             step weight in
  (forall p, (p < _NumberOfPoints s)%nat ->
     GetPoint (_Gradient (fst r)) p = zero3) /\
  (_NumberOfPoints s <> 0%nat ->
     snd r = base (fst r) gradient step
               (weight / INR (_NumberOfPoints s))) /\
  (_NumberOfPoints s = 0%nat -> r = (s, gradient)).
Proof.
  intros r. subst r.
  destruct (Nat.eq_dec (_NumberOfPoints s) 0%nat) as [HN|HN].
  { unfold GaussCurvatureConstraint.EvaluateGradient. rewrite HN. simpl.
    split; [intros p Hp; lia|]. split; [done|done]. }
  rewrite EvaluateGradient_forwards by done. simpl.
  split; [|split; [done|done]].
  intros p Hp. rewrite GetPoint_own_gradient by done.
  unfold written.
  destruct (is_passive (SurfaceStatus (_PointSet s)) p) eqn:E; [done|].
  destruct (0 <? length (neighbors s p))%nat eqn:E'; [|done].
  simpl. destruct (Hflat p Hp) as [Hpas|[Hn|Hz]].
  - exfalso. by apply Hpas, is_passive_active.
  - rewrite Hn in E'. done.
  - unfold contribution. rewrite (magnitude_zero s p Hz).
    apply Vec3_eq; simpl; lra.
Qed.

Lemma EvaluateGradient_no_force_witness :
  let s := mkState
             (mkPointSet [mkVec3 0 0 0; mkVec3 1 0 0] None
                [[1%nat]; [0%nat]] [mkVec3 1 0 0; mkVec3 1 0 0] 0)
             2 [mkVec3 5 5 5; mkVec3 7 7 7]
             (mkArray [0; 0] 0) (mkArray [0; 0] 0) 0 in
  let buffer : list R := [1; 2; 3; 4; 5; 6; 7] in
  let r := GaussCurvatureConstraint.EvaluateGradient
             (fun _ gradient _ _ => gradient) Whole s buffer 1 1 in
  (_NumberOfPoints s <= length (_Gradient s))%nat /\
  GetPoint (_Gradient (fst r)) 0 = zero3 /\
  GetPoint (_Gradient (fst r)) 1 = zero3.
Proof.
  intros s buffer r.
  assert (Hg : (_NumberOfPoints s <= length (_Gradient s))%nat)
    by (simpl; lia).
  assert (Hflat : forall p, (p < _NumberOfPoints s)%nat ->
            ~ active s p \/ neighbors s p = [] \/ K s p = 0 \/ H s p = 0
            \/ H s p <= - 0.5).
  { intros p Hp. right. right. left.
    unfold K, GetComponent. simpl in *.
    destruct p as [|[|p]]; [reflexivity|reflexivity|lia]. }
  destruct (EvaluateGradient_no_force (fun _ gradient _ _ => gradient)
              Whole s buffer 1 1 Hg Hflat) as (Hzero & _).
  split; [exact Hg|].
  split; apply Hzero; simpl; lia.
Defined.

End ForceBuffer.

(* ===================================================================== *)
(** ** More on the lazy recomputation *)
(* ===================================================================== *)

Section UpdateStamps.
Import GaussCurvatureConstraint GaussCurvatureConstraintUtils.
Import CurvatureForce Neighborhood.

Variables Gauss Mean : Z.
Variable SurfaceConstraint_Update : bool -> State -> State.
Variable SurfaceCurvature_Run : Z -> RegisteredPointSet -> CurvatureOutput.
Variable SmoothArray : RegisteredPointSet -> nat -> list R -> list R.
Variable filter_ticks : nat.

Hypothesis Gauss_bit : Gauss <> 0%Z.
Hypothesis Mean_bit : Mean <> 0%Z.
Hypothesis distinct_bits : Z.land Gauss Mean = 0%Z.
Hypothesis base_frame : forall gradient s,
  let s' := SurfaceConstraint_Update gradient s in
  _PointSet s' = _PointSet s /\
  _NumberOfPoints s' = _NumberOfPoints s /\
  GAUSS s' = GAUSS s /\ MEAN s' = MEAN s /\
  (GlobalTimeStamp s <= GlobalTimeStamp s')%nat.

Local Abbreviation Update :=
  (GaussCurvatureConstraint.Update Gauss Mean SurfaceConstraint_Update
     SurfaceCurvature_Run SmoothArray filter_ticks).

(** X11: [Update] keeps the time stamps consistent with the clock: if
    no stamp of the state is ahead of the global clock before the call,
    none is after it, and no stamp of a field is moved backwards.  When
    neither field is stale, or the term has no points, [Update] does
    nothing beyond the update of the base class. *)
Theorem Update_keeps_stamps (gradient : bool) (s : State) :
  let s' := Update gradient s in
  (stamps_ok s ->
     stamps_ok s' /\
     (MTime (GAUSS s) <= MTime (GAUSS s'))%nat /\
     (MTime (MEAN s) <= MTime (MEAN s'))%nat) /\
  ((~ stale (GAUSS s) s /\ ~ stale (MEAN s) s) \/ _NumberOfPoints s = 0%nat ->
     s' = SurfaceConstraint_Update gradient s).
Proof.
  intros s'. subst s'.
  rewrite (Update_cases Gauss Mean SurfaceConstraint_Update
             SurfaceCurvature_Run SmoothArray filter_ticks
             Gauss_bit Mean_bit distinct_bits).
  destruct (base_frame gradient s) as (HP & HN & HG & HM & Hc).
  set (s1 := SurfaceConstraint_Update gradient s) in *.
  rewrite HP, HN, HG, HM. unfold stale, stamps_ok. split.
  - intros (Hs & Hg & Hm).
    destruct (_NumberOfPoints s =? 0)%nat.
    { rewrite HP, HG, HM. repeat split; lia. }
    destruct (MTime (GAUSS s) <? SurfaceMTime (_PointSet s))%nat eqn:E1,
      (MTime (MEAN s) <? SurfaceMTime (_PointSet s))%nat eqn:E2; simpl;
      rewrite ?HP, ?HG, ?HM; repeat split; lia.
  - intros [[Hfg Hfm]|H0].
    + apply Nat.nlt_ge, Nat.ltb_ge in Hfg, Hfm. rewrite Hfg, Hfm. simpl.
      by destruct (_NumberOfPoints s =? 0)%nat.
    + by rewrite H0.
Qed.

End UpdateStamps.

Section UpdateStampsExample.
Import GaussCurvatureConstraint CurvatureForce Neighborhood.

Lemma Update_keeps_stamps_witness :
  let s := mkState (mkPointSet [zero3] None [[]] [zero3] 2) 1 [zero3]
             (mkArray [5] 0) (mkArray [7] 3) 3 in
  let U := GaussCurvatureConstraint.Update 8 4 (fun _ s => s)
             (fun _ _ => mkOutput [1] [2])
             (fun _ n a => map (fun x => x + INR n) a) 0 in
  (8 <> 0)%Z /\ (4 <> 0)%Z /\ Z.land 8 4 = 0%Z /\ stamps_ok s /\
  stamps_ok (U true s).
Proof.
  intros s U.
  assert (Hok : stamps_ok s) by (unfold stamps_ok; simpl; lia).
  split; [lia|]. split; [lia|]. split; [reflexivity|].
  split; [exact Hok|].
  apply (Update_keeps_stamps 8 4 (fun _ s => s)
           (fun _ _ => mkOutput [1] [2])
           (fun _ n a => map (fun x => x + INR n) a) 0);
    [lia|lia|reflexivity| |exact Hok].
  intros gradient s0. simpl. repeat split; lia.
Defined.

End UpdateStampsExample.

(* ===================================================================== *)
(** ** More on the displacement update *)
(* ===================================================================== *)

Section ClampBound.
Import EulerMethodUtils EulerMethod DisplacementPolicy.
Context {M : Type} `{DeformableSurfaceModel M}.




Lemma deref_set_Displacement (d : list R) (o : EulerMethod M) :
  deref (_Displacement (set_Displacement (Some d) o)) = d.
Proof. reflexivity. Qed.




(** X14: skipping the clamp is sound.  When the step length is
    normalized and the norm reported by the model is at least the length
    of the gradient vector of every point, [ComputeDisplacements] already
    leaves no point displaced by more than [|_StepLength|], and so does
    [UpdateDisplacement], whether or not it goes on to clamp. *)
Theorem UpdateDisplacement_within_step (t : Partition) (o : EulerMethod M)
    (p : nat)
    (Hnorm : _NormalizeStepLength o = true)
    (Hlen : (3 * NumberOfPoints (_Model o)
             <= length (deref (_Displacement o)))%nat)
    (Hp : (p < NumberOfPoints (_Model o))%nat)
    (Hdom : vtkMath.Norm (load3 (deref (_Gradient o)) p)
            <= GradientNorm (_Model o) (deref (_Gradient o))) :
  vtkMath.Norm (load3 (computed_displacement t o) p)
  <= Rabs (_StepLength o) /\
  vtkMath.Norm (load3 (deref (_Displacement (UpdateDisplacement t o))) p)
  <= Rabs (_StepLength o).
Proof.
  set (g := deref (_Gradient o)) in *.
  set (N := NumberOfPoints (_Model o)) in *.
  assert (Hcomp : vtkMath.Norm (load3 (computed_displacement t o) p)
                  <= Rabs (_StepLength o)).
  { unfold computed_displacement. fold g N.
    destruct (ComputeDisplacements_pass t g (_StepLength o)
                (EulerMethod_GradientNorm o) N (deref (_Displacement o))
                Hlen) as (_ & Hpass & _).
    rewrite (Hpass p Hp), Norm_scale3.
    unfold EulerMethod_GradientNorm. rewrite Hnorm. fold g.
    pose proof (Norm_nonneg (load3 g p)) as Hg0.
    pose proof (Rabs_pos (_StepLength o)) as Hs0.
    destruct (Rgt_dec (GradientNorm (_Model o) g) 0) as [Hpos|Hnpos].
    - set (n := GradientNorm (_Model o) g) in *.
      unfold Rdiv. rewrite Rabs_mult, Rabs_Ropp.
      rewrite (Rabs_right (/ n))
        by (left; apply Rinv_0_lt_compat; lra).
      assert (Hq : / n * vtkMath.Norm (load3 g p) <= 1).
      { apply (Rmult_le_reg_l n); [lra|].
        replace (n * (/ n * vtkMath.Norm (load3 g p)))
          with (vtkMath.Norm (load3 g p)) by (field; lra). lra. }
      assert (Hq0 : 0 <= / n * vtkMath.Norm (load3 g p)).
      { apply Rmult_le_pos; [|lra]. left. apply Rinv_0_lt_compat. lra. }
      nra.
    - assert (Hz : vtkMath.Norm (load3 g p) = 0) by lra.
      rewrite Hz. lra. }
  split; [exact Hcomp|].
  unfold UpdateDisplacement. rewrite TruncateDisplacement_cases.
  set (o' := set_Displacement (Some (computed_displacement t o)) o).
  destruct (false || negb (_NormalizeStepLength o') || _) eqn:E.
  - rewrite deref_set_Displacement.
    assert (Hlen' : (3 * N <= length (computed_displacement t o))%nat).
    { unfold computed_displacement. fold g N.
      destruct (ComputeDisplacements_pass t g (_StepLength o)
                  (EulerMethod_GradientNorm o) N (deref (_Displacement o))
                  Hlen) as (Hl & _). lia. }
    destruct (ClampDisplacements_pass t (effective_maximum o') N
                (computed_displacement t o) Hlen') as (_ & Hpass & _).
    change (NumberOfPoints (_Model o')) with N.
    change (deref (_Displacement o')) with (computed_displacement t o).
    rewrite (Hpass p Hp).
    unfold clamp_vector.
    destruct (Rgt_dec _ _) as [Hgt|_]; [|exact Hcomp].
    destruct (clamp_factor_pos _ _ Hgt) as ((Hk0 & Hk1) & _).
    rewrite Norm_scale3, Rabs_right by lra.
    pose proof (Norm_nonneg (load3 (computed_displacement t o) p)).
    nra.
  - exact Hcomp.
Qed.

End ClampBound.

Section ClampBoundExamples.
Import EulerMethodUtils EulerMethod DisplacementPolicy ToyModel.



Lemma UpdateDisplacement_within_step_witness :
  let o := one_point true [3; 4; 0] [0; 0; 0] in
  _NormalizeStepLength o = true /\
  (3 * NumberOfPoints (_Model o) <= length (deref (_Displacement o)))%nat /\
  (0 < NumberOfPoints (_Model o))%nat /\
  vtkMath.Norm (load3 (deref (_Gradient o)) 0)
  <= GradientNorm (_Model o) (deref (_Gradient o)) /\
  vtkMath.Norm
    (load3 (deref (_Displacement (UpdateDisplacement Whole o))) 0)
  <= Rabs (_StepLength o).
Proof.
  intros o.
  assert (Hlen : (3 * NumberOfPoints (_Model o)
                  <= length (deref (_Displacement o)))%nat)
    by (simpl; lia).
  assert (Hp : (0 < NumberOfPoints (_Model o))%nat) by (simpl; lia).
  assert (Hdom : vtkMath.Norm (load3 (deref (_Gradient o)) 0)
                 <= GradientNorm (_Model o) (deref (_Gradient o))).
  { right. unfold vtkMath.Norm, EuclideanNorm. simpl.
    unfold EuclideanNorm. simpl. f_equal. ring. }
  split; [reflexivity|]. split; [exact Hlen|]. split; [exact Hp|].
  split; [exact Hdom|].
  apply (UpdateDisplacement_within_step Whole o 0 eq_refl Hlen Hp Hdom).
Defined.

End ClampBoundExamples.

(* ===================================================================== *)
(** ** Initialization and the run of the optimizer *)
(* ===================================================================== *)

Section RunInvariants.
Import EulerMethodUtils EulerMethod DisplacementPolicy RunFacts.
Context {M : Type} `{DeformableSurfaceModel M}.

(** *** What each step leaves alone *)

Lemma grow_buffers_spec (o : EulerMethod M) :
  Base (grow_buffers o) = Base o /\
  _Model (grow_buffers o) = _Model o /\
  configuration (grow_buffers o) = configuration o /\
  _NormalDisplacement (grow_buffers o) = _NormalDisplacement o /\
  (_NumberOfDOFs o <= _NumberOfDOFs (grow_buffers o))%nat /\
  (NumberOfDOFs (_Model o) <= _NumberOfDOFs (grow_buffers o))%nat /\
  (buffers_ok o -> buffers_ok (grow_buffers o)) /\
  ((NumberOfDOFs (_Model o) <= _NumberOfDOFs o)%nat ->
     grow_buffers o = o).
Proof.
  unfold grow_buffers, buffers_ok, configuration.
  destruct (_NumberOfDOFs o <? NumberOfDOFs (_Model o))%nat eqn:E.
  - apply Nat.ltb_lt in E. simpl. rewrite !repeat_length.
    repeat split; try done; try lia.
  - apply Nat.ltb_ge in E. repeat split; try done; lia.
Qed.

Lemma RemeshModel_spec (o : EulerMethod M) :
  Base (RemeshModel o) = Base o /\
  configuration (RemeshModel o) = configuration o /\
  _NormalDisplacement (RemeshModel o) = _NormalDisplacement o /\
  (_NumberOfDOFs o <= _NumberOfDOFs (RemeshModel o))%nat /\
  (buffers_ok o -> buffers_ok (RemeshModel o)).
Proof.
  unfold RemeshModel. destruct (Remesh (_Model o)) as [m changed].
  destruct changed; [|done].
  destruct (grow_buffers_spec (set_Model (Update true m) o))
    as (HB & _ & HC & HN & Hd & _ & Hok & _).
  rewrite HB, HC, HN.
  split; [done|]. split; [done|]. split; [done|]. split; [exact Hd|].
  intros Hb. apply Hok. exact Hb.
Qed.

Lemma computed_displacement_length (t : Partition) (o : EulerMethod M) :
  length (computed_displacement t o) = length (deref (_Displacement o)).
Proof.
  unfold computed_displacement, ComputeDisplacements_call.
  rewrite parallel_for_whole. unfold over_block; simpl.
  apply (for_range_slot3_writer_length
           (fun p _ =>
              Some (scale3 (- _StepLength o / EulerMethod_GradientNorm o)
                      (load3 (deref (_Gradient o)) p)))).
Qed.

Lemma clamp_pass_length (t : Partition) (max_dx : R) (N : nat)
    (d : list R) :
  length (parallel_for t (mkRange 0 N)
            (ClampDisplacements_call (ClampDisplacements_new max_dx)) d)
  = length d.
Proof.
  change (ClampDisplacements_call (ClampDisplacements_new max_dx))
    with (over_block
            (ClampDisplacements_point (ClampDisplacements_new max_dx))).
  rewrite parallel_for_whole. unfold over_block; simpl.
  erewrite for_range_ext
    by (intros; apply ClampDisplacements_point_writer).
  apply for_range_slot3_writer_length.
Qed.

Lemma UpdateDisplacement_spec (t : Partition) (o : EulerMethod M) :
  Base (UpdateDisplacement t o) = Base o /\
  _Model (UpdateDisplacement t o) = _Model o /\
  configuration (UpdateDisplacement t o) = configuration o /\
  _NormalDisplacement (UpdateDisplacement t o) = _NormalDisplacement o /\
  _Gradient (UpdateDisplacement t o) = _Gradient o /\
  _NumberOfDOFs (UpdateDisplacement t o) = _NumberOfDOFs o /\
  length (deref (_Displacement (UpdateDisplacement t o)))
  = length (deref (_Displacement o)).
Proof.
  unfold UpdateDisplacement. rewrite TruncateDisplacement_cases.
  destruct (false || _ || _); simpl;
    rewrite ?clamp_pass_length, ?computed_displacement_length;
    repeat split; done.
Qed.

Lemma UpdateNormalDisplacement_spec (o : EulerMethod M) :
  Base (UpdateNormalDisplacement o) = Base o /\
  _Model (UpdateNormalDisplacement o) = _Model o /\
  configuration (UpdateNormalDisplacement o) = configuration o /\
  _Gradient (UpdateNormalDisplacement o) = _Gradient o /\
  _Displacement (UpdateNormalDisplacement o) = _Displacement o /\
  _NumberOfDOFs (UpdateNormalDisplacement o) = _NumberOfDOFs o.
Proof.
  unfold UpdateNormalDisplacement.
  destruct (_NormalDisplacement o); [|done].
  by destruct (IsSurfaceMesh (_Model o)).
Qed.

Lemma Initialize_spec (o o' : EulerMethod M) :
  Initialize o = Ok o' ->
  Transformation (_Model o) = false /\
  Base o' = Base o /\
  configuration o' = configuration o /\
  _NormalDisplacement o' = _NormalDisplacement o /\
  _Gradient o' = _Gradient (grow_buffers o) /\
  _Displacement o' = _Displacement (grow_buffers o) /\
  _NumberOfDOFs o' = _NumberOfDOFs (grow_buffers o).
Proof.
  unfold Initialize. destruct (Transformation (_Model o)); [done|].
  intros [= <-].
  destruct (grow_buffers_spec o) as (HB & _ & HC & HN & _).
  destruct (GetArray_Status (_Model (grow_buffers o)));
    cbv zeta; simpl;
    (destruct (_NormalDisplacement (grow_buffers o)) eqn:E;
     [destruct (HasArray_NormalDisplacement _)|]); simpl;
    rewrite <- ?HB, <- ?HC, <- ?HN, ?E; done.
Qed.

Section Loop.
Variable LocalOptimizer_Converged :
  nat -> Energy -> Energy -> list R -> M -> M * bool.
Variable t : Partition.

Lemma perform_step_spec (iter : nat) (o : EulerMethod M) :
  configuration (perform_step t iter o) = configuration o /\
  (_NumberOfDOFs o <= _NumberOfDOFs (perform_step t iter o))%nat /\
  Observed (Base (perform_step t iter o))
  = Observed (Base o) ++ [IterationStartEvent iter] /\
  ((forall (m : M) g, length (Gradient m g) = length g) ->
   buffers_ok o -> buffers_ok (perform_step t iter o)).
Proof.
  unfold perform_step.
  set (o1 := Broadcast (IterationStartEvent iter) o).
  set (o2 := if (1 <? iter)%nat then RemeshModel o1 else o1).
  set (o3 := set_Gradient _ o2).
  set (o4 := UpdateDisplacement t o3).
  assert (H2 : Base o2 = Base o1 /\ configuration o2 = configuration o1 /\
               (_NumberOfDOFs o1 <= _NumberOfDOFs o2)%nat /\
               (buffers_ok o1 -> buffers_ok o2)).
  { subst o2. destruct (1 <? iter)%nat; [|done].
    destruct (RemeshModel_spec o1) as (? & ? & _ & ? & ?). done. }
  destruct H2 as (HB2 & HC2 & HN2 & Hok2).
  destruct (UpdateDisplacement_spec t o3)
    as (HB4 & _ & HC4 & _ & HG4 & HN4 & HL4).
  fold o4 in HB4, HC4, HG4, HN4, HL4.
  destruct (Step (_Model o4) (deref (_Displacement o4))) as [m delta].
  split; [|split; [|split]].
  - transitivity (configuration o4); [done|].
    rewrite HC4. transitivity (configuration o2); [done|].
    by rewrite HC2.
  - simpl. rewrite HN4. exact HN2.
  - simpl. rewrite HB4. simpl. by rewrite HB2.
  - intros HG [Hg Hd].
    destruct (Hok2 (conj Hg Hd)) as [Hg2 Hd2].
    split; simpl.
    + rewrite HG4, HN4. simpl. by rewrite HG.
    + rewrite HL4, HN4. exact Hd2.
Qed.

Lemma iteration_spec (iter : nat) (o o' : EulerMethod M)
    (value value' : Energy) (exit : option Exit) :
  iteration LocalOptimizer_Converged t iter o value = (o', value', exit) ->
  configuration o' = configuration o /\
  (_NumberOfDOFs o <= _NumberOfDOFs o')%nat /\
  Observed (Base o')
  = Observed (Base o) ++ IterationStartEvent iter
      :: match exit with None => [IterationEndEvent iter] | _ => [] end /\
  ((forall (m : M) g, length (Gradient m g) = length g) ->
   buffers_ok o -> buffers_ok o') /\
  (value = Infinite -> value' = Infinite) /\
  exit <> Some MaxIterationsReached /\
  (exit = Some DegenerateStep ->
   _LastDelta (Base o') <= _Delta (Base o') /\ value' = value) /\
  (exit <> Some DegenerateStep ->
   _LastDelta (Base o') > _Delta (Base o')).
Proof.
  unfold iteration.
  destruct (perform_step_spec iter o) as (HC & HN & HO & Hok).
  set (s := perform_step t iter o) in *.
  destruct (Rle_dec (_LastDelta (Base s)) (_Delta (Base s))) as [Hle|Hgt].
  { intros [= <- <- <-]. rewrite HO.
    split; [exact HC|]. split; [exact HN|]. split; [done|].
    split; [exact Hok|]. split; [done|]. split; [done|].
    split; [done|]. intros Hne. by destruct Hne. }
  set (u := UpdateNormalDisplacement (set_Model (Update true (_Model s)) s)).
  destruct (UpdateNormalDisplacement_spec
              (set_Model (Update true (_Model s)) s))
    as (HBu & _ & HCu & HGu & HDu & HNu).
  fold u in HBu, HCu, HGu, HDu, HNu. simpl in HBu, HGu, HDu, HNu.
  assert (Hcu : configuration u = configuration o).
  { rewrite HCu. transitivity (configuration s); [done|exact HC]. }
  assert (Hoku : (forall (m : M) g, length (Gradient m g) = length g) ->
                 buffers_ok o -> buffers_ok u).
  { intros HG Hb. destruct (Hok HG Hb) as [Hg Hd].
    split; by rewrite ?HGu, ?HDu, HNu. }
  assert (Hinf : value = Infinite ->
                 (if IsInf value then value else Value (_Model u))
                 = Infinite).
  { by intros ->. }
  assert (Hd : _LastDelta (Base u) > _Delta (Base u)).
  { rewrite HBu. lra. }
  destruct (LocalOptimizer_Converged _ _ _ _ _) as [m converged].
  destruct converged; intros [= <- <- <-].
  - simpl. rewrite HBu, HNu, HO.
    split; [exact Hcu|]. split; [exact HN|]. split; [done|].
    split; [exact Hoku|]. split; [exact Hinf|]. split; [done|].
    split; [done|]. intros _. rewrite <- HBu. exact Hd.
  - simpl. rewrite HBu, HNu, HO.
    split; [exact Hcu|]. split; [exact HN|].
    split; [by rewrite <- app_assoc|].
    split; [exact Hoku|]. split; [exact Hinf|]. split; [done|].
    split; [done|]. intros _. rewrite <- HBu. exact Hd.
Qed.

Lemma loop_spec (remaining : nat) :
  forall (iter : nat) (o o' : EulerMethod M) (value value' : Energy)
         (exit : Exit),
  loop LocalOptimizer_Converged t remaining iter o value
  = (o', value', exit) ->
  configuration o' = configuration o /\
  (_NumberOfDOFs o <= _NumberOfDOFs o')%nat /\
  (exists k : nat,
     (if is_break exit then (k < remaining)%nat else k = remaining) /\
     Observed (Base o')
     = Observed (Base o) ++ iteration_events iter k (is_break exit)) /\
  ((forall (m : M) g, length (Gradient m g) = length g) ->
   buffers_ok o -> buffers_ok o') /\
  (value = Infinite -> value' = Infinite) /\
  (exit = DegenerateStep -> _LastDelta (Base o') <= _Delta (Base o')) /\
  (exit <> DegenerateStep -> (0 < remaining)%nat ->
   _LastDelta (Base o') > _Delta (Base o')) /\
  (remaining = 0%nat ->
   o' = o /\ value' = value /\ exit = MaxIterationsReached).
Proof.
  induction remaining as [|n IH]; intros iter o o' value value' exit.
  { simpl. intros [= <- <- <-].
    split; [done|]. split; [done|].
    split; [exists 0%nat; simpl; by rewrite app_nil_r|].
    split; [done|]. split; [done|]. split; [done|].
    split; [intros _ Hlt; lia|done]. }
  simpl.
  destruct (iteration LocalOptimizer_Converged t iter o value)
    as [[o1 v1] [ex|]] eqn:E;
    destruct (iteration_spec _ _ _ _ _ _ E)
      as (HC & HN & HO & Hok & Hinf & Hmax & Hdeg & Hnd).
  - intros [= <- <- <-].
    split; [exact HC|]. split; [exact HN|].
    split.
    { exists 0%nat. destruct ex; try done; simpl; (split; [lia|exact HO]). }
    split; [exact Hok|]. split; [exact Hinf|].
    split; [intros ->; by apply Hdeg|].
    split; [|done].
    intros Hne _. apply Hnd. intros [= ->]. done.
  - intros Hloop.
    destruct (IH _ _ _ _ _ _ Hloop)
      as (HC' & HN' & (k & Hk & HO') & Hok' & Hinf' & Hdeg' & Hnd' & Hz).
    split; [by rewrite HC'|]. split; [lia|].
    split.
    { exists (S k). split; [destruct (is_break exit); lia|].
      rewrite HO', HO. simpl. by rewrite <- app_assoc. }
    split; [intros HG Hb; apply Hok'; [exact HG|by apply Hok]|].
    split; [intros Hv; by apply Hinf', Hinf|].
    split; [exact Hdeg'|].
    split; [|done].
    intros Hne _. destruct n as [|n'].
    + destruct (Hz eq_refl) as (-> & _ & _). apply Hnd. done.
    + apply Hnd'; [exact Hne|lia].
Qed.

Lemma prepared_spec (o : EulerMethod M) :
  configuration (prepared o) = configuration o /\
  (_NumberOfDOFs o <= _NumberOfDOFs (prepared o))%nat /\
  Observed (Base (prepared o)) = Observed (Base o) ++ [StartEvent] /\
  (buffers_ok o -> buffers_ok (prepared o)).
Proof.
  unfold prepared.
  destruct (RemeshModel_spec o) as (HB & HC & _ & HN & Hok).
  set (r := RemeshModel o) in *.
  split; [|split; [|split]].
  - transitivity (configuration r); [done|exact HC].
  - exact HN.
  - simpl. by rewrite HB.
  - intros Hb. exact (Hok Hb).
Qed.

Lemma Run_unfold (o : EulerMethod M) :
  Run LocalOptimizer_Converged t o
  = bind (Initialize o) (fun initialized =>
      let '(o', value, exit) :=
        loop LocalOptimizer_Converged t
          (_NumberOfSteps (Base (prepared initialized))) 1
          (prepared initialized)
          (Value (_Model (prepared initialized))) in
      Ok (Broadcast (EndEvent value) o', value, exit)).
Proof. reflexivity. Qed.

(** What [Run] returns, in terms of the loop it runs. *)
Lemma Run_inv (o final : EulerMethod M) (value : Energy) (exit : Exit) :
  Run LocalOptimizer_Converged t o = Ok (final, value, exit) ->
  exists initialized o',
    Initialize o = Ok initialized /\
    loop LocalOptimizer_Converged t
      (_NumberOfSteps (Base (prepared initialized))) 1
      (prepared initialized) (Value (_Model (prepared initialized)))
    = (o', value, exit) /\
    final = Broadcast (EndEvent value) o'.
Proof.
  rewrite Run_unfold. destruct (Initialize o) as [oi|f]; [|done].
  cbv beta iota zeta delta [bind].
  destruct (loop _ _ _ _ _ _) as [[o' v] e] eqn:E.
  intros [= <- <- <-]. by exists oi, o'.
Qed.

Lemma Run_returns (o : EulerMethod M) :
  Transformation (_Model o) = false ->
  exists final value exit,
    Run LocalOptimizer_Converged t o = Ok (final, value, exit).
Proof.
  intros Hn. rewrite Run_unfold. unfold Initialize at 1. rewrite Hn.
  cbv beta iota zeta delta [bind].
  destruct (loop _ _ _ _ _ _) as [[o' v] e]. by eexists _, _, _.
Qed.

End Loop.
End RunInvariants.

Section RunProperties.
Import EulerMethodUtils EulerMethod DisplacementPolicy RunFacts.
Context {M : Type} `{DeformableSurfaceModel M}.
Variable LocalOptimizer_Converged :
  nat -> Energy -> Energy -> list R -> M -> M * bool.
Variable t : Partition.



(** X17: Provided the model's [Gradient] writes into the buffer it is
    given without changing its size, [Run] keeps both buffers at
    [_NumberOfDOFs] scalars, and [_NumberOfDOFs] never shrinks. *)
Theorem Run_keeps_buffers (o final : EulerMethod M) (value : Energy)
    (exit : Exit) :
  (forall (m : M) g, length (Gradient m g) = length g) ->
  buffers_ok o ->
  Run LocalOptimizer_Converged t o = Ok (final, value, exit) ->
  buffers_ok final /\ (_NumberOfDOFs o <= _NumberOfDOFs final)%nat.
Proof.
  intros HG Hb HR.
  destruct (Run_inv _ _ _ _ _ _ HR) as (oi & o' & Hinit & Hloop & ->).
  destruct (Initialize_spec o oi Hinit)
    as (_ & _ & _ & _ & HGi & HDi & HFi).
  destruct (grow_buffers_spec o)
    as (_ & _ & _ & _ & Hmono & _ & Hok & _).
  assert (Hbi : buffers_ok oi).
  { destruct (Hok Hb) as [Hg Hd].
    split; [by rewrite HGi, HFi|by rewrite HDi, HFi]. }
  destruct (prepared_spec oi) as (_ & HNp & _ & Hokp).
  destruct (loop_spec _ _ _ _ _ _ _ _ _ Hloop)
    as (_ & HNl & _ & Hokl & _).
  split.
  - exact (Hokl HG (Hokp Hbi)).
  - simpl. rewrite HFi in HNp. lia.
Qed.

(** X18: [Run] changes none of the parameters of the optimizer: the
    step length, the normalization flag, the maximum displacement, the
    number of steps, [_Epsilon] and [_Delta] are on return what they
    were at the call. *)
Theorem Run_keeps_configuration (o final : EulerMethod M)
    (value : Energy) (exit : Exit) :
  Run LocalOptimizer_Converged t o = Ok (final, value, exit) ->
  configuration final = configuration o.
Proof.
  intros HR.
  destruct (Run_inv _ _ _ _ _ _ HR) as (oi & o' & Hinit & Hloop & ->).
  destruct (Initialize_spec o oi Hinit) as (_ & _ & HCi & _).
  destruct (prepared_spec oi) as (HCp & _).
  destruct (loop_spec _ _ _ _ _ _ _ _ _ Hloop) as (HCl & _).
  transitivity (configuration o'); [done|].
  by rewrite HCl, HCp.
Qed.

(** X19: The observers of a returning [Run] receive, after what they
    had received before: the start event; for each of [k] complete
    iterations its start and its end event, in the order of the counter
    of [Iteration], which starts at [1]; the start
    event of one more iteration when the loop was left by a [break]; and
    the end event carrying the returned value.  [k] is the number of
    steps when the loop ran out of steps and less otherwise. *)
Theorem Run_event_log (o final : EulerMethod M) (value : Energy)
    (exit : Exit) :
  Run LocalOptimizer_Converged t o = Ok (final, value, exit) ->
  exists k : nat,
    (if is_break exit then (k < _NumberOfSteps (Base o))%nat
     else k = _NumberOfSteps (Base o)) /\
    Observed (Base final)
    = Observed (Base o) ++ [StartEvent]
      ++ iteration_events 1 k (is_break exit) ++ [EndEvent value].
Proof.
  intros HR.
  destruct (Run_inv _ _ _ _ _ _ HR) as (oi & o' & Hinit & Hloop & ->).
  destruct (Initialize_spec o oi Hinit) as (_ & HBi & HCi & _).
  destruct (prepared_spec oi) as (HCp & _ & HOp & _).
  destruct (loop_spec _ _ _ _ _ _ _ _ _ Hloop)
    as (_ & _ & (k & Hk & HO) & _).
  assert (Hsteps : _NumberOfSteps (Base (prepared oi))
                   = _NumberOfSteps (Base o)).
  { assert (E : configuration (prepared oi) = configuration o)
      by (by rewrite HCp).
    unfold configuration in E. by injection E. }
  rewrite Hsteps in Hk. exists k. split; [exact Hk|].
  simpl. rewrite HO, HOp, HBi. by rewrite <- !app_assoc.
Qed.

(** X20: An infinite energy is never evaluated again: when the value
    of the model is infinite as the loop is entered, [Run] returns
    infinity, however many steps are made and whatever the model and
    the stopping criteria do. *)
Theorem Run_infinite_energy (o initialized final : EulerMethod M)
    (value : Energy) (exit : Exit) :
  Initialize o = Ok initialized ->
  Value (_Model (prepared initialized)) = Infinite ->
  Run LocalOptimizer_Converged t o = Ok (final, value, exit) ->
  value = Infinite.
Proof.
  intros Hinit Hinf HR.
  destruct (Run_inv _ _ _ _ _ _ HR) as (oi & o' & Hinit' & Hloop & _).
  rewrite Hinit in Hinit'. injection Hinit' as <-.
  destruct (loop_spec _ _ _ _ _ _ _ _ _ Hloop)
    as (_ & _ & _ & _ & Hsticky & _).
  by apply Hsticky.
Qed.


End RunProperties.

(* ===================================================================== *)
(** ** The tracked normal displacement and the copy of an optimizer *)
(* ===================================================================== *)

(** A loop that adds [f p] to slot [p] adds it once to every slot of
    its range that the array has, and touches no other. *)
Lemma for_range_accumulate (f : nat -> R) (n : nat) :
  forall (b : nat) (a : list R),
  length (for_range n b (fun p a => <[p := nth p a 0 + f p]> a) a)
  = length a /\
  forall i,
    nth i (for_range n b (fun p a => <[p := nth p a 0 + f p]> a) a) 0
    = if decide ((b <= i < b + n)%nat /\ (i < length a)%nat)
      then nth i a 0 + f i else nth i a 0.
Proof.
  induction n as [|n IH]; intros b a; simpl.
  { split; [done|]. intros i. destruct (decide _) as [[? _]|_]; [lia|done]. }
  destruct (IH (S b) (<[b := nth b a 0 + f b]> a)) as [Hlen Hnth].
  split; [by rewrite Hlen, length_insert|].
  intros i. rewrite Hnth, length_insert.
  destruct (decide (i = b)) as [->|Hne].
  - destruct (decide ((S b <= b < S b + n)%nat /\ _)) as [[? _]|_]; [lia|].
    destruct (decide ((b <= b < b + S n)%nat /\ (b < length a)%nat))
      as [[_ Hb]|Hout].
    + by apply nth_insert_eq.
    + rewrite nth_overflow by (rewrite length_insert; lia).
      rewrite nth_overflow by lia. done.
  - rewrite nth_insert_ne by done.
    destruct (decide ((S b <= i < S b + n)%nat /\ (i < length a)%nat))
      as [[? ?]|Hout];
      destruct (decide ((b <= i < b + S n)%nat /\ (i < length a)%nat))
        as [[? ?]|Hout']; try done; lia.
Qed.

Section TrackingAndCopy.
Import EulerMethodUtils EulerMethod DisplacementPolicy RunFacts.
Context {M : Type} `{DeformableSurfaceModel M}.

(** [memcpy] of [n > 0] scalars either finds both arrays large enough
    and overwrites the first [n] scalars of the target, or faults. *)
Lemma memcpy_cases (dst src : option (list R)) (n : nat) :
  (0 < n)%nat ->
  ((n <= length (deref dst))%nat /\ (n <= length (deref src))%nat /\
   memcpy dst src n
   = Ok (Some (take n (deref src) ++ drop n (deref dst)))) \/
  (~ ((n <= length (deref dst))%nat /\ (n <= length (deref src))%nat) /\
   exists f, memcpy dst src n = Crash f).
Proof.
  intros Hn. unfold memcpy.
  destruct dst as [d|], src as [s|]; simpl;
    try (right; split; [lia|by eexists]).
  destruct (n <=? length d)%nat eqn:E1;
    [apply Nat.leb_le in E1|apply Nat.leb_gt in E1]; simpl;
    [|right; split; [lia|by eexists]].
  destruct (n <=? length s)%nat eqn:E2;
    [apply Nat.leb_le in E2|apply Nat.leb_gt in E2];
    [by left|right; split; [lia|by eexists]].
Qed.

(** X22: When a normal displacement array is tracked and the model is
    a surface mesh, [UpdateNormalDisplacement] adds to the entry of
    every point, once, the component of its displacement along its
    normal; entries past the points, the length of the array, both
    buffers and the configuration are left alone.  Without an array or
    on a model that is not a surface mesh it does nothing. *)
Theorem UpdateNormalDisplacement_accumulates (o : EulerMethod M) :
  let N := NumberOfPoints (_Model o) in
  let d := deref (_Displacement o) in
  let normals := SurfaceNormals (_Model o) in
  (forall a,
     _NormalDisplacement o = Some a -> IsSurfaceMesh (_Model o) = true ->
     (N <= length a)%nat ->
     exists a',
       _NormalDisplacement (UpdateNormalDisplacement o) = Some a' /\
       length a' = length a /\
       (forall p, (p < N)%nat ->
          nth p a' 0
          = nth p a 0 + vtkMath.Dot (load3 d p) (GetPoint normals p)) /\
       (forall p, (N <= p)%nat -> nth p a' 0 = nth p a 0)) /\
  (_NormalDisplacement o = None \/ IsSurfaceMesh (_Model o) = false ->
     UpdateNormalDisplacement o = o) /\
  _Gradient (UpdateNormalDisplacement o) = _Gradient o /\
  _Displacement (UpdateNormalDisplacement o) = _Displacement o /\
  _NumberOfDOFs (UpdateNormalDisplacement o) = _NumberOfDOFs o /\
  Base (UpdateNormalDisplacement o) = Base o /\
  configuration (UpdateNormalDisplacement o) = configuration o.
Proof.
  intros N d normals.
  destruct (UpdateNormalDisplacement_spec o)
    as (HB & _ & HC & HG & HD & HF).
  split; [|split; [|done]].
  - intros a Ha Hs Hlen. unfold UpdateNormalDisplacement.
    rewrite Ha, Hs. fold N d normals.
    destruct (for_range_accumulate
                (fun p => vtkMath.Dot (load3 d p) (GetPoint normals p))
                N 0 a) as [Hl Hn].
    eexists. split; [reflexivity|].
    unfold GetComponent, vtkMath.Dot in *.
    split; [exact Hl|]. split.
    + intros p Hp. rewrite Hn.
      destruct (decide _) as [_|Hout]; [done|lia].
    + intros p Hp. rewrite Hn.
      destruct (decide _) as [[? _]|_]; [lia|done].
  - unfold UpdateNormalDisplacement. intros [->| ->]; [done|].
    by destruct (_NormalDisplacement o).
Qed.

(** X23: [CopyAttributes] from an optimizer without degrees of freedom
    frees both buffers.  From one with [n > 0] degrees of freedom it
    succeeds exactly when all four buffers exist and hold at least [n]
    scalars; the target then keeps its own buffers at their size, with
    their first [n] scalars those of the source.  In both cases the
    step length, the normalization flag, the maximum displacement, the
    normal displacement array and [_NumberOfDOFs] are the source's, and
    the inherited members and the model are the target's. *)
Theorem CopyAttributes_outcome (this other : EulerMethod M) :
  let n := _NumberOfDOFs other in
  (n = 0%nat ->
     exists r, CopyAttributes this other = Ok r /\
       _Gradient r = None /\ _Displacement r = None) /\
  ((0 < n)%nat ->
     (exists r, CopyAttributes this other = Ok r) <->
     ((n <= length (deref (_Gradient this)))%nat /\
      (n <= length (deref (_Displacement this)))%nat /\
      (n <= length (deref (_Gradient other)))%nat /\
      (n <= length (deref (_Displacement other)))%nat)) /\
  (forall r, CopyAttributes this other = Ok r ->
     Base r = Base this /\ _Model r = _Model this /\
     _StepLength r = _StepLength other /\
     _NormalizeStepLength r = _NormalizeStepLength other /\
     _MaximumDisplacement r = _MaximumDisplacement other /\
     _NormalDisplacement r = _NormalDisplacement other /\
     _NumberOfDOFs r = n /\
     ((0 < n)%nat ->
        length (deref (_Gradient r)) = length (deref (_Gradient this)) /\
        length (deref (_Displacement r))
        = length (deref (_Displacement this)) /\
        take n (deref (_Gradient r)) = take n (deref (_Gradient other)) /\
        take n (deref (_Displacement r))
        = take n (deref (_Displacement other)))).
Proof.
  intros n. unfold CopyAttributes. cbv zeta. simpl. fold n.
  rewrite Nat.eqb_refl. simpl.
  destruct (Nat.eq_dec n 0%nat) as [Hz|Hpos].
  { rewrite Hz. simpl. split; [intros _; by eexists|].
    split; [intros Hlt; lia|].
    intros r [= <-]. simpl. repeat split; try done; lia. }
  assert (Hn : (0 < n)%nat) by lia.
  assert (E0 : (n =? 0)%nat = false) by (apply Nat.eqb_neq; lia).
  assert (E1 : (0 <? n)%nat = true) by (apply Nat.ltb_lt; lia).
  rewrite E0. cbn [_NumberOfDOFs _Gradient _Displacement].
  rewrite E1.
  split; [done|].
  destruct (memcpy_cases (_Gradient this) (_Gradient other) n Hn)
    as [(Hg1 & Hg2 & ->)|(Hng & f & ->)];
    cbv beta iota delta [bind];
    [|split; [intros _; split; [intros [r Hr]; done|intros (?&?&?&?); lia]
             |intros r Hr; done]].
  destruct (memcpy_cases (_Displacement this) (_Displacement other) n Hn)
    as [(Hd1 & Hd2 & ->)|(Hnd & f & ->)];
    cbv beta iota;
    [|split; [intros _; split; [intros [r Hr]; done|intros (?&?&?&?); lia]
             |intros r Hr; done]].
  split.
  { intros _. split; [done|intros _; by eexists]. }
  intros r [= <-]. simpl.
  do 7 (split; [done|]). intros _.
  rewrite !length_app, !length_take, !length_drop.
  split; [lia|]. split; [lia|].
  split; rewrite take_app_le by (rewrite length_take; lia);
    rewrite take_take; f_equal; lia.
Qed.

End TrackingAndCopy.

Section RunPropertiesExamples.
Import EulerMethodUtils EulerMethod DisplacementPolicy RunFacts ToyModel.



Lemma Run_keeps_buffers_witness :
  let o := one_point true [3; 4; 0] [0; 0; 0] in
  (forall (m : Toy) g, length (Gradient m g) = length g) /\
  buffers_ok o /\
  exists final value exit,
    Run never_converged Whole o = Ok (final, value, exit) /\
    buffers_ok final /\ (_NumberOfDOFs o <= _NumberOfDOFs final)%nat.
Proof.
  intros o.
  assert (HG : forall (m : Toy) g, length (Gradient m g) = length g)
    by reflexivity.
  assert (Hb : buffers_ok o) by (split; reflexivity).
  split; [exact HG|]. split; [exact Hb|].
  assert (HT : Transformation (_Model o) = false) by reflexivity.
  destruct (Run_returns never_converged Whole o HT)
    as (final & value & exit & HR).
  exists final, value, exit. split; [exact HR|].
  exact (Run_keeps_buffers never_converged Whole o final value exit
           HG Hb HR).
Defined.

Lemma Run_keeps_configuration_witness :
  let o := one_point false [3; 4; 0] [0; 0; 0] in
  exists final value exit,
    Run always_converged Whole o = Ok (final, value, exit) /\
    configuration final = (1, false, 0, 10%nat, 1e-9, 1e-12).
Proof.
  intros o.
  assert (HT : Transformation (_Model o) = false) by reflexivity.
  destruct (Run_returns always_converged Whole o HT)
    as (final & value & exit & HR).
  exists final, value, exit. split; [exact HR|].
  exact (Run_keeps_configuration always_converged Whole o final value
           exit HR).
Defined.

Lemma Run_event_log_witness :
  let o := one_point true [3; 4; 0] [0; 0; 0] in
  exists final value exit k,
    Run never_converged Whole o = Ok (final, value, exit) /\
    (if is_break exit then (k < 10)%nat else k = 10%nat) /\
    Observed (Base final)
    = [StartEvent] ++ iteration_events 1 k (is_break exit)
      ++ [EndEvent value].
Proof.
  intros o.
  assert (HT : Transformation (_Model o) = false) by reflexivity.
  destruct (Run_returns never_converged Whole o HT)
    as (final & value & exit & HR).
  destruct (Run_event_log never_converged Whole o final value exit HR)
    as (k & Hk & HO).
  exists final, value, exit, k. split; [exact HR|].
  split; [exact Hk|exact HO].
Defined.


Lemma CopyAttributes_outcome_witness :
  let this := one_point true [0; 0; 0] [0; 0; 0] in
  let other := one_point false [1; 2; 3] [4; 5; 6] in
  (0 < _NumberOfDOFs other)%nat /\
  exists r,
    CopyAttributes this other = Ok r /\
    _NormalizeStepLength r = false /\
    take 3 (deref (_Gradient r)) = [1; 2; 3] /\
    take 3 (deref (_Displacement r)) = [4; 5; 6].
Proof.
  intros this other.
  assert (Hpos : (0 < _NumberOfDOFs other)%nat) by (simpl; lia).
  split; [exact Hpos|].
  destruct (CopyAttributes_outcome this other) as (_ & Hiff & Hres).
  assert (Hlen : (_NumberOfDOFs other <= length (deref (_Gradient this)))%nat
                 /\ (_NumberOfDOFs other
                     <= length (deref (_Displacement this)))%nat
                 /\ (_NumberOfDOFs other
                     <= length (deref (_Gradient other)))%nat
                 /\ (_NumberOfDOFs other
                     <= length (deref (_Displacement other)))%nat)
    by (simpl; lia).
  destruct (proj2 (Hiff Hpos) Hlen) as [r Hr].
  exists r. split; [exact Hr|].
  destruct (Hres r Hr) as (_ & _ & _ & Hnorm & _ & _ & _ & Hcopy).
  destruct (Hcopy Hpos) as (_ & _ & Hg & Hd).
  split; [exact Hnorm|]. split; [exact Hg|exact Hd].
Defined.

End RunPropertiesExamples.

Section ForceModelExamples.
Import EulerMethodUtils EulerMethod DisplacementPolicy RunFacts ForceModel.

Lemma Run_infinite_energy_witness :
  let o := inflating None [0; 0; 0] in
  Initialize o = Ok o /\
  Value (_Model (prepared o)) = Infinite /\
  exists final exit,
    Run (fun _ _ _ _ m => (m, false)) Whole o
    = Ok (final, Infinite, exit).
Proof.
  intros o.
  assert (Hinit : Initialize o = Ok o) by reflexivity.
  assert (Hinf : Value (_Model (prepared o)) = Infinite) by reflexivity.
  split; [exact Hinit|]. split; [exact Hinf|].
  assert (HT : Transformation (_Model o) = false) by reflexivity.
  destruct (Run_returns (fun _ _ _ _ m => (m, false)) Whole o HT)
    as (final & value & exit & HR).
  exists final, exit. rewrite HR.
  by rewrite (Run_infinite_energy (fun _ _ _ _ m => (m, false)) Whole
                o o final value exit Hinit Hinf HR).
Defined.

Lemma UpdateNormalDisplacement_accumulates_witness :
  let o := inflating (Some [5]) [1; 2; 3] in
  IsSurfaceMesh (_Model o) = true /\
  exists a',
    _NormalDisplacement (UpdateNormalDisplacement o) = Some a' /\
    length a' = 1%nat /\
    nth 0 a' 0 = 5 + (1 * 0 + 2 * 0 + 3 * 1).
Proof.
  intros o. split; [reflexivity|].
  destruct (UpdateNormalDisplacement_accumulates o) as (Hacc & _).
  assert (Hlen : (NumberOfPoints (_Model o) <= length [5])%nat)
    by (simpl; lia).
  destruct (Hacc [5] eq_refl eq_refl Hlen) as (a' & Ha & Hl & Hin & _).
  exists a'. split; [exact Ha|]. split; [exact Hl|].
  assert (Hp : (0 < NumberOfPoints (_Model o))%nat) by (simpl; lia).
  exact (Hin 0%nat Hp).
Defined.

End ForceModelExamples.
